(** * File-backed collections: a write-back LRU cache over a SQLite table

    Shallow embedding of
    [metadata-ingestion/src/datahub/utilities/file_backed_collections.py]:
    the connection registry [_SqliteConnectionCache], the dict-like
    [FileBackedDict] and the list-like [FileBackedList].

    Modelling conventions.
    - A Python exception leaves the object as mutated so far, so every
      method maps an object to a result *and* the object afterwards.
    - [collections.OrderedDict] is an association list in insertion order:
      the head is the oldest entry ([popitem(last=False)] takes it), the
      last element is the newest.
    - A SQLite table with [key TEXT PRIMARY KEY] is a finite map from keys
      to rows; [INSERT OR REPLACE] is map insertion, [DELETE ... WHERE key = ?]
      is map deletion and its [rowcount] tells whether a row was there.
      The order in which [SELECT key FROM t] returns rows is the order of
      [map_to_list]; no statement below depends on it.  The SQLite build
      enters through [SqliteBuild]: a statement may bind at most
      [SQLITE_MAX_VARIABLE_NUMBER] host parameters.  Only [__len__] binds a
      number of parameters that grows with the data; the other statements
      bind one parameter, or two plus the number of extra columns, and are
      taken to be within the limit.
    - A [FileBackedDict] reaches its table through [_conn]; the rows of that
      table are kept in the field [table] of the object, the only writer of
      a table it has created.  The registry
      closes a handle only when its last holder has dropped it (see
      [registry_inv]), so an object whose [_conn] is set always finds its
      handle open; an object whose [_conn] is [None] raises
      [AttributeError] on every statement it tries to execute. *)

From stdpp Require Import base option list gmap sets strings pretty.
From Stdlib Require Import ZArith Lia.

Set Warnings "-clear-no-such-hyp".
Open Scope Z_scope.

(** ** Exceptions and results *)

Inductive Exception : Type :=
  | KeyError
  | IndexError
  | AttributeError
  | AssertionError
  | OperationalError.

Inductive Result (A : Type) : Type :=
  | Ok (a : A)
  | Raise (e : Exception).
Arguments Ok {A} a.
Arguments Raise {A} e.

#[global] Instance Exception_eq_dec : EqDecision Exception.
Proof. solve_decision. Defined.

(** ** [collections.OrderedDict] *)

Module OrderedDict.
Abbreviation t V := (list (string * V)) (only parsing).

Section ordered_dict.
Context {V : Type}.

Definition keys (c : t V) : list string := c.*1.

(** [key in c] *)
Definition contains (key : string) (c : t V) : bool :=
  bool_decide (key ∈ keys c).

(** [c[key]] *)
Fixpoint getitem (key : string) (c : t V) : option V :=
  match c with
  | [] => None
  | (k, v) :: c' => if decide (k = key) then Some v else getitem key c'
  end.

(** Overwrite the value stored under [key], keeping its position. *)
Fixpoint replace (key : string) (value : V) (c : t V) : t V :=
  match c with
  | [] => []
  | (k, v) :: c' =>
      if decide (k = key) then (k, value) :: c'
      else (k, v) :: replace key value c'
  end.

(** [c[key] = value]: a key already present keeps its position, a new key
    goes to the end. *)
Definition setitem (key : string) (value : V) (c : t V) : t V :=
  if contains key c then replace key value c else c ++ [(key, value)].

(** [del c[key]] *)
Definition delitem (key : string) (c : t V) : t V :=
  filter (λ p, p.1 ≠ key) c.

(** [c.move_to_end(key)] *)
Definition move_to_end (key : string) (c : t V) : t V :=
  match getitem key c with
  | Some v => delitem key c ++ [(key, v)]
  | None => c
  end.

(** [c.popitem(last=False)]; [None] stands for the [KeyError] of an empty
    dictionary. *)
Definition popitem_first (c : t V) : option ((string * V) * t V) :=
  match c with
  | [] => None
  | p :: c' => Some (p, c')
  end.

(** [len(c)] *)
Definition len (c : t V) : Z := Z.of_nat (length c).

(** Representation invariant: a dictionary holds each key once. *)
Definition wf (c : t V) : Prop := NoDup (keys c).

End ordered_dict.
End OrderedDict.

(** ** The SQLite side *)

Abbreviation Path := string (only parsing).
Abbreviation Connection := nat (only parsing).

(** One row of a collection's table, without its primary key: the [value]
    column and the extra columns by name. *)
Record Row (B : Type) : Type := mkRow {
  row_value : B;
  row_extra : list (string * B)
}.
Arguments mkRow {B} _ _.
Arguments row_value {B} _.
Arguments row_extra {B} _.

(** The registry singleton together with the part of the SQLite library it
    acts on: the handles that are open, the next handle [sqlite3.connect]
    will return, and the names (tables and indexes share one name space)
    defined in each database file. *)
Record World : Type := mkWorld {
  _ref_count : gmap Path Z;
  _sqlite_connection_cache : gmap Path Connection;
  open_handles : gset Connection;
  next_handle : Connection;
  schema : gmap Path (gset string)
}.

Definition empty_world : World :=
  mkWorld ∅ ∅ ∅ 0%nat ∅.

(** [_SqliteConnectionCache.get_connection].  [sqlite3.connect] and the four
    [PRAGMA] statements are taken to succeed: the file can be opened.  Where
    they fail the exception leaves [get_connection] before the registry is
    written, and [__post_init__] before [_conn] is assigned; no statement
    below is about that case. *)
Definition get_connection (filename : Path) (w : World) : Result Connection * World :=
  let w1 :=
    if decide (filename ∈ dom (_ref_count w)) then w
    else
      let conn := next_handle w in
      mkWorld (<[filename := 0]> (_ref_count w))
              (<[filename := conn]> (_sqlite_connection_cache w))
              ({[conn]} ∪ open_handles w)
              (S conn)
              (schema w) in
  let w2 :=
    mkWorld (alter (λ n, n + 1) filename (_ref_count w1))
            (_sqlite_connection_cache w1) (open_handles w1) (next_handle w1)
            (schema w1) in
  match _sqlite_connection_cache w2 !! filename with
  | Some conn => (Ok conn, w2)
  | None => (Raise KeyError, w2)
  end.

(** [_SqliteConnectionCache.drop_connection] *)
Definition drop_connection (filename : Path) (w : World) : Result unit * World :=
  match _ref_count w !! filename with
  | None => (Raise KeyError, w)
  | Some n =>
      let w1 :=
        mkWorld (<[filename := n - 1]> (_ref_count w))
                (_sqlite_connection_cache w) (open_handles w) (next_handle w)
                (schema w) in
      if decide (n - 1 = 0) then
        match _sqlite_connection_cache w1 !! filename with
        | None => (Raise KeyError, w1)
        | Some conn =>
            (Ok (), mkWorld (delete filename (_ref_count w1))
                            (delete filename (_sqlite_connection_cache w1))
                            (open_handles w1 ∖ {[conn]})
                            (next_handle w1)
                            (schema w1))
        end
      else (Ok (), w1)
  end.

(** [conn.execute("CREATE TABLE name ...")] and [conn.execute("CREATE INDEX
    name ...")]: the statement fails when the database file already defines
    [name].  Names are compared as strings, where SQLite ignores the case of
    ASCII letters, and every string is taken to be a name SQLite accepts
    where it stands in the statement. *)
Definition create_name (filename : Path) (name : string) (w : World)
  : Result unit * World :=
  let names := default ∅ (schema w !! filename) in
  if decide (name ∈ names) then (Raise OperationalError, w)
  else
    (Ok (), mkWorld (_ref_count w) (_sqlite_connection_cache w)
                    (open_handles w) (next_handle w)
                    (<[filename := {[name]} ∪ names]> (schema w))).

Fixpoint create_names (filename : Path) (names : list string) (w : World)
  : Result unit * World :=
  match names with
  | [] => (Ok (), w)
  | name :: rest =>
      match create_name filename name w with
      | (Ok _, w') => create_names filename rest w'
      | (Raise e, w') => (Raise e, w')
      end
  end.

Definition _DEFAULT_TABLE_NAME : string := "data".
Definition _DEFAULT_MEMORY_CACHE_MAX_SIZE : Z := 2000.
Definition _DEFAULT_MEMORY_CACHE_EVICTION_BATCH_SIZE : Z := 200.

(** The SQLite library the process runs on.  [SQLITE_MAX_VARIABLE_NUMBER] is
    the largest number of host parameters ([?]) one statement may bind: 999
    up to SQLite 3.31, 32766 from 3.32 on, other values in some
    distributions.  A statement that binds more fails with
    [sqlite3.OperationalError]. *)
Class SqliteBuild : Type := {
  SQLITE_MAX_VARIABLE_NUMBER : Z;
  SQLITE_MAX_VARIABLE_NUMBER_positive : 0 < SQLITE_MAX_VARIABLE_NUMBER
}.

(** SQLite up to 3.31 and from 3.32 on, with the limits they are compiled
    with by default. *)
Definition sqlite_3_31 : SqliteBuild :=
  {| SQLITE_MAX_VARIABLE_NUMBER := 999;
     SQLITE_MAX_VARIABLE_NUMBER_positive := eq_refl |}.

Definition sqlite_3_32 : SqliteBuild :=
  {| SQLITE_MAX_VARIABLE_NUMBER := 32766;
     SQLITE_MAX_VARIABLE_NUMBER_positive := eq_refl |}.

(** ** [FileBackedDict] *)

Module FileBackedDict.
Section file_backed_dict.
Context {V B : Type} {build : SqliteBuild}.

Record t : Type := mk {
  filename : Path;
  tablename : string;
  serializer : V → B;
  deserializer : B → V;
  extra_columns : list (string * (V → B));
  cache_max_size : Z;
  cache_eviction_batch_size : Z;
  _conn : option Connection;
  _active_object_cache : OrderedDict.t V;
  table : gmap string (Row B)
}.

Definition with_cache (c : OrderedDict.t V) (d : t) : t :=
  mk (filename d) (tablename d) (serializer d) (deserializer d)
     (extra_columns d) (cache_max_size d) (cache_eviction_batch_size d)
     (_conn d) c (table d).

Definition with_table (tb : gmap string (Row B)) (d : t) : t :=
  mk (filename d) (tablename d) (serializer d) (deserializer d)
     (extra_columns d) (cache_max_size d) (cache_eviction_batch_size d)
     (_conn d) (_active_object_cache d) tb.

Definition with_conn (c : option Connection) (d : t) : t :=
  mk (filename d) (tablename d) (serializer d) (deserializer d)
     (extra_columns d) (cache_max_size d) (cache_eviction_batch_size d)
     c (_active_object_cache d) (table d).

Definition with_cache_max_size (n : Z) (d : t) : t :=
  mk (filename d) (tablename d) (serializer d) (deserializer d)
     (extra_columns d) n (cache_eviction_batch_size d)
     (_conn d) (_active_object_cache d) (table d).

(** The object as the generated [__init__] leaves it before it calls
    [__post_init__]: the constructor arguments are stored, [_conn] and
    [_active_object_cache] are not set yet.  The record has no way to say
    that an attribute is missing and shows [None] and an empty cache
    instead; so a method that reads [self._conn] is modelled on objects
    whose [__post_init__] has assigned it, and nothing is stated about
    method calls on an object whose construction raised before that (in
    Python they end in [AttributeError]). *)
Definition init (filename : Path) (tablename : string)
    (serializer : V → B) (deserializer : B → V)
    (extra_columns : list (string * (V → B)))
    (cache_max_size cache_eviction_batch_size : Z) : t :=
  mk filename tablename serializer deserializer extra_columns
     cache_max_size cache_eviction_batch_size None [] ∅.

(** Methods: an object goes in, a result and the object come out. *)
Definition M (A : Type) : Type := t → Result A * t.

Definition ret {A} (a : A) : M A := λ d, (Ok a, d).
Definition raise {A} (e : Exception) : M A := λ d, (Raise e, d).
Definition bind {A A'} (m : M A) (f : A → M A') : M A' :=
  λ d, match m d with
       | (Ok a, d') => f a d'
       | (Raise e, d') => (Raise e, d')
       end.

(** [__post_init__] *)
Definition __post_init__ (d : t) (w : World) : (Result unit * t) * World :=
  if decide (cache_eviction_batch_size d > 0) then
    if decide ("key" ∈ (extra_columns d).*1) then (Raise AssertionError, d, w)
    else if decide ("value" ∈ (extra_columns d).*1) then (Raise AssertionError, d, w)
    else
      match get_connection (filename d) w with
      | (Raise e, w1) => (Raise e, d, w1)
      | (Ok conn, w1) =>
          let d1 := with_cache [] (with_conn (Some conn) d) in
          let indexes :=
            (λ column_name, tablename d +:+ "_" +:+ column_name)
              <$> (extra_columns d).*1 in
          match create_names (filename d) (tablename d :: indexes) w1 with
          | (Raise e, w2) => (Raise e, d1, w2)
          | (Ok _, w2) => (Ok (), with_table ∅ d1, w2)
          end
      end
  else (Raise AssertionError, d, w).

(** The tuple [_prune_cache] writes for one popped entry, without its key:
    the serialized value, then one value per extra column. *)
Definition row_of (d : t) (value : V) : Row B :=
  mkRow (serializer d value)
        ((λ col, (col.1, col.2 value)) <$> extra_columns d).

(** The loop of [_prune_cache]: pop the oldest entry [n] times and collect
    the rows to write. *)
Fixpoint pop_items (n : nat) (items_to_write : list (string * Row B))
  : M (list (string * Row B)) :=
  match n with
  | O => ret items_to_write
  | S n' => λ d,
      match OrderedDict.popitem_first (_active_object_cache d) with
      | None => (Raise KeyError, d)
      | Some ((key, value), c') =>
          pop_items n' (items_to_write ++ [(key, row_of d value)])
                    (with_cache c' d)
      end
  end.

(** [self._conn.executemany("INSERT OR REPLACE INTO ...", items_to_write)] *)
Definition insert_or_replace (items_to_write : list (string * Row B)) : M unit :=
  λ d, match _conn d with
       | None => (Raise AttributeError, d)
       | Some _ =>
           (Ok (), with_table (foldl (λ tb item, <[item.1 := item.2]> tb)
                                     (table d) items_to_write) d)
       end.

(** [_prune_cache] *)
Definition _prune_cache (num_items_to_prune : Z) : M unit :=
  bind (pop_items (Z.to_nat num_items_to_prune) []) insert_or_replace.

(** [_add_to_cache] *)
Definition _add_to_cache (key : string) (value : V) : M unit :=
  λ d,
    let d1 := with_cache (OrderedDict.setitem key value (_active_object_cache d)) d in
    if decide (OrderedDict.len (_active_object_cache d1) > cache_max_size d1) then
      let num_items_to_prune :=
        Z.min (OrderedDict.len (_active_object_cache d1))
              (cache_eviction_batch_size d1) in
      _prune_cache num_items_to_prune d1
    else (Ok (), d1).

(** [flush] *)
Definition flush : M unit :=
  λ d, _prune_cache (OrderedDict.len (_active_object_cache d)) d.

(** [__getitem__] *)
Definition __getitem__ (key : string) : M V :=
  λ d,
    if OrderedDict.contains key (_active_object_cache d) then
      let d1 := with_cache (OrderedDict.move_to_end key (_active_object_cache d)) d in
      match OrderedDict.getitem key (_active_object_cache d1) with
      | Some v => (Ok v, d1)
      | None => (Raise KeyError, d1)
      end
    else
      match _conn d with
      | None => (Raise AttributeError, d)
      | Some _ =>
          match table d !! key with
          | None => (Raise KeyError, d)
          | Some result =>
              let deserialized_result := deserializer d (row_value result) in
              bind (_add_to_cache key deserialized_result)
                   (λ _, ret deserialized_result) d
          end
      end.

(** [__setitem__] *)
Definition __setitem__ (key : string) (value : V) : M unit :=
  _add_to_cache key value.

(** [__delitem__] *)
Definition __delitem__ (key : string) : M unit :=
  λ d,
    let in_cache := OrderedDict.contains key (_active_object_cache d) in
    let d1 :=
      if in_cache
      then with_cache (OrderedDict.delitem key (_active_object_cache d)) d
      else d in
    match _conn d1 with
    | None => (Raise AttributeError, d1)
    | Some _ =>
        let n_deleted : Z := if decide (is_Some (table d1 !! key)) then 1 else 0 in
        let d2 := with_table (delete key (table d1)) d1 in
        if negb in_cache && bool_decide (n_deleted = 0)
        then (Raise KeyError, d2)
        else (Ok (), d2)
    end.

(** The keys [SELECT key FROM tablename] returns. *)
Definition select_keys (d : t) : list string := (map_to_list (table d)).*1.

(** [__iter__], run to exhaustion with no other call in between. *)
Definition __iter__ : M (list string) :=
  λ d,
    match _conn d with
    | None => (Raise AttributeError, d)
    | Some _ =>
        (Ok (filter (λ key, key ∉ OrderedDict.keys (_active_object_cache d))
                    (select_keys d)
             ++ OrderedDict.keys (_active_object_cache d)), d)
    end.

(** [__len__]; the statement binds one host parameter per cached key. *)
Definition __len__ : M Z :=
  λ d,
    match _conn d with
    | None => (Raise AttributeError, d)
    | Some _ =>
        if decide (OrderedDict.len (_active_object_cache d)
                   > SQLITE_MAX_VARIABLE_NUMBER)
        then (Raise OperationalError, d)
        else
          let row0 :=
            Z.of_nat (length (filter
                        (λ key, key ∉ OrderedDict.keys (_active_object_cache d))
                        (select_keys d))) in
          (Ok (row0 + OrderedDict.len (_active_object_cache d)), d)
    end.

(** What a statement run on [self._conn] can read, when [others] are the
    other collections of the process: the table of [self] and, by name, the
    tables of the collections that hold the same connection.  A collection
    on another connection keeps its table in another file. *)
Definition database (d : t) (others : list t)
  : gmap string (gmap string (Row B)) :=
  <[tablename d := table d]>
    (list_to_map ((λ r, (tablename r, table r))
                    <$> filter (λ r, _conn r = _conn d) others)).

(** [self._conn.execute(query, params).fetchall()]; a query is given by the
    rows it returns on a database, and [others] are the other collections
    of the process. *)
Definition execute {R} (query : gmap string (gmap string (Row B)) → R)
    (others : list t) : M R :=
  λ d, match _conn d with
       | None => (Raise AttributeError, d)
       | Some _ => (Ok (query (database d others)), d)
       end.

(** The loop [for referenced_table in refs: referenced_table.flush()]. *)
Fixpoint flush_refs (refs : list t) : Result unit * list t :=
  match refs with
  | [] => (Ok (), [])
  | referenced_table :: rest =>
      match flush referenced_table with
      | (Raise e, r') => (Raise e, r' :: rest)
      | (Ok _, r') =>
          let '(res, rest') := flush_refs rest in (res, r' :: rest')
      end
  end.

(** [sql_query] in a process whose other collections are the ones passed in
    [refs]; the referenced collections are objects other than [self]. *)
Definition sql_query {R} (query : gmap string (gmap string (Row B)) → R)
    (refs : option (list t)) (d : t) : (Result R * t) * list t :=
  match flush d with
  | (Raise e, d1) => (Raise e, d1, default [] refs)
  | (Ok _, d1) =>
      match flush_refs (default [] refs) with
      | (Raise e, refs1) => (Raise e, d1, refs1)
      | (Ok _, refs1) => (execute query refs1 d1, refs1)
      end
  end.

(** [close] *)
Definition close (d : t) (w : World) : (Result unit * t) * World :=
  match _conn d with
  | Some _ =>
      match flush d with
      | (Raise e, d1) => (Raise e, d1, w)
      | (Ok _, d1) =>
          match drop_connection (filename d1) w with
          | (Raise e, w1) => (Raise e, d1, w1)
          | (Ok _, w1) =>
              (Ok (), with_cache_max_size 0 (with_conn None d1), w1)
          end
      end
  | None => (Ok (), d, w)
  end.

(** [__del__] *)
Definition __del__ (d : t) (w : World) : (Result unit * t) * World :=
  close d w.

End file_backed_dict.
Arguments t : clear implicits.
End FileBackedDict.

(** The statement [SELECT key FROM tablename WHERE column = ?] with
    parameter [x], as a function of the database. *)
Definition select_where {B} `{EqDecision B} (tablename column : string) (x : B)
    (db : gmap string (gmap string (Row B))) : list string :=
  match db !! tablename with
  | None => []
  | Some tb =>
      (filter (λ kr, (column, x) ∈ row_extra kr.2) (map_to_list tb)).*1
  end.

(** ** [FileBackedList] *)

(** [x or default] on an optional integer: [None] and [0] are falsy. *)
Definition or_default (x : option Z) (default : Z) : Z :=
  match x with
  | Some n => if decide (n = 0) then default else n
  | None => default
  end.

(** [str(index)] *)
Definition str (index : Z) : string := pretty index.

Module FileBackedList.
Section file_backed_list.
Context {V B : Type}.

Record t : Type := mk {
  _len : Z;
  _dict : FileBackedDict.t V B
}.

(** [__init__] *)
Definition __init__ (filename : Path) (tablename : string)
    (serializer : V → B) (deserializer : B → V)
    (extra_columns : option (list (string * (V → B))))
    (cache_max_size cache_eviction_batch_size : option Z) (w : World)
  : (Result unit * t) * World :=
  let d :=
    FileBackedDict.init filename tablename serializer deserializer
      (default [] extra_columns)
      (or_default cache_max_size _DEFAULT_MEMORY_CACHE_MAX_SIZE)
      (or_default cache_eviction_batch_size
                  _DEFAULT_MEMORY_CACHE_EVICTION_BATCH_SIZE) in
  let '(res, d', w') := FileBackedDict.__post_init__ d w in
  (res, mk 0 d', w').

(** [__getitem__] *)
Definition __getitem__ (index : Z) (l : t) : Result V * t :=
  if decide (index < 0 ∨ index >= _len l) then (Raise IndexError, l)
  else
    let '(res, d') := FileBackedDict.__getitem__ (str index) (_dict l) in
    (res, mk (_len l) d').

(** [__setitem__] *)
Definition __setitem__ (index : Z) (value : V) (l : t) : Result unit * t :=
  if decide (index < 0 ∨ index >= _len l) then (Raise IndexError, l)
  else
    let '(res, d') := FileBackedDict.__setitem__ (str index) value (_dict l) in
    (res, mk (_len l) d').

(** [append] *)
Definition append (value : V) (l : t) : Result unit * t :=
  match FileBackedDict.__setitem__ (str (_len l)) value (_dict l) with
  | (Raise e, d') => (Raise e, mk (_len l) d')
  | (Ok _, d') => (Ok (), mk (_len l + 1) d')
  end.

(** [__len__] *)
Definition __len__ (l : t) : Z := _len l.

(** [flush] *)
Definition flush (l : t) : Result unit * t :=
  let '(res, d') := FileBackedDict.flush (_dict l) in
  (res, mk (_len l) d').

(** The property [tablename] *)
Definition tablename (l : t) : string := FileBackedDict.tablename (_dict l).

(** The loop of [__iter__]: [n] more elements from [index] on, each read
    through [__getitem__]. *)
Fixpoint iter_from (n : nat) (index : Z) (l : t) : Result (list V) * t :=
  match n with
  | O => (Ok [], l)
  | S n' =>
      match __getitem__ index l with
      | (Raise e, l') => (Raise e, l')
      | (Ok v, l') =>
          match iter_from n' (index + 1) l' with
          | (Raise e, l'') => (Raise e, l'')
          | (Ok vs, l'') => (Ok (v :: vs), l'')
          end
      end
  end.

(** [__iter__], run to exhaustion with no other call in between; the
    result is the list of the values yielded, or the exception that ended
    the iteration. *)
Definition __iter__ (l : t) : Result (list V) * t :=
  iter_from (Z.to_nat (_len l)) 0 l.

(** [sql_query] *)
Definition sql_query {R} (query : gmap string (gmap string (Row B)) → R)
    (refs : option (list (FileBackedDict.t V B))) (l : t)
  : (Result R * t) * list (FileBackedDict.t V B) :=
  let '(res, d', refs') := FileBackedDict.sql_query query refs (_dict l) in
  (res, mk (_len l) d', refs').

(** [close] *)
Definition close (l : t) (w : World) : (Result unit * t) * World :=
  let '(res, d', w') := FileBackedDict.close (_dict l) w in
  (res, mk (_len l) d', w').

(** [__del__] *)
Definition __del__ (l : t) (w : World) : (Result unit * t) * World :=
  close l w.

End file_backed_list.
Arguments t : clear implicits.
End FileBackedList.

(** ** Facts about [OrderedDict] *)

Section ordered_dict_facts.
Context {V : Type}.
Implicit Types (c : OrderedDict.t V) (k key : string) (v : V).

Lemma od_contains_true key c :
  OrderedDict.contains key c = true ↔ key ∈ OrderedDict.keys c.
Proof. unfold OrderedDict.contains. apply bool_decide_eq_true. Qed.

Lemma od_contains_false key c :
  OrderedDict.contains key c = false ↔ key ∉ OrderedDict.keys c.
Proof. unfold OrderedDict.contains. apply bool_decide_eq_false. Qed.

Lemma od_getitem_None key c :
  OrderedDict.getitem key c = None ↔ key ∉ OrderedDict.keys c.
Proof.
  induction c as [|[k v] c IH]; simpl.
  - split; [intros _; apply not_elem_of_nil | done].
  - rewrite not_elem_of_cons. destruct (decide (k = key)) as [->|Hne].
    + split; [done | intros [? _]; done].
    + rewrite IH. split; [by intros ? | by intros [_ ?]].
Qed.

Lemma od_getitem_is_Some key c :
  is_Some (OrderedDict.getitem key c) ↔ key ∈ OrderedDict.keys c.
Proof.
  rewrite <- not_eq_None_Some, od_getitem_None.
  split; [apply dec_stable | auto].
Qed.

Lemma od_getitem_elem_of key v c :
  OrderedDict.getitem key c = Some v → (key, v) ∈ c.
Proof.
  induction c as [|[k w] c IH]; simpl; [done|].
  destruct (decide (k = key)) as [->|Hne].
  - intros [= ->]. apply list_elem_of_here.
  - intros H. apply list_elem_of_further. auto.
Qed.

Lemma od_elem_of_getitem key v c :
  OrderedDict.wf c → (key, v) ∈ c → OrderedDict.getitem key c = Some v.
Proof.
  unfold OrderedDict.wf, OrderedDict.keys.
  induction c as [|[k w] c IH]; simpl; [by intros _ ?%elem_of_nil|].
  intros [Hk Hc]%NoDup_cons [Heq|Hin]%elem_of_cons.
  - injection Heq as -> ->. by rewrite decide_True.
  - destruct (decide (k = key)) as [->|Hne]; [|by apply IH].
    exfalso. apply Hk. apply list_elem_of_fmap. by exists (key, v).
Qed.

Lemma od_keys_replace key v c :
  OrderedDict.keys (OrderedDict.replace key v c) = OrderedDict.keys c.
Proof.
  unfold OrderedDict.keys. induction c as [|[k w] c IH]; simpl; [done|].
  destruct (decide (k = key)); csimpl; [done | by rewrite IH].
Qed.

Lemma od_length_replace key v c :
  length (OrderedDict.replace key v c) = length c.
Proof.
  induction c as [|[k w] c IH]; simpl; [done|].
  destruct (decide (k = key)); simpl; [done | by rewrite IH].
Qed.

Lemma od_getitem_replace_eq key v c :
  key ∈ OrderedDict.keys c →
  OrderedDict.getitem key (OrderedDict.replace key v c) = Some v.
Proof.
  unfold OrderedDict.keys.
  induction c as [|[k0 w] c IH]; csimpl; [by intros ?%elem_of_nil|].
  intros Hin. destruct (decide (k0 = key)) as [->|Hne]; simpl.
  - by rewrite decide_True.
  - rewrite decide_False by done. apply IH.
    apply elem_of_cons in Hin as [->|]; done.
Qed.

Lemma od_getitem_replace_ne key v k c :
  k ≠ key →
  OrderedDict.getitem k (OrderedDict.replace key v c) = OrderedDict.getitem k c.
Proof.
  intros Hk. induction c as [|[k0 w] c IH]; simpl; [done|].
  destruct (decide (k0 = key)) as [->|Hne]; simpl.
  - by rewrite !decide_False by done.
  - by rewrite IH.
Qed.

Lemma od_getitem_app k c1 c2 :
  OrderedDict.getitem k (c1 ++ c2) =
    match OrderedDict.getitem k c1 with
    | Some v => Some v
    | None => OrderedDict.getitem k c2
    end.
Proof.
  induction c1 as [|[k0 w] c1 IH]; simpl; [done|].
  destruct (decide (k0 = k)); [done | apply IH].
Qed.

Lemma od_getitem_setitem key v k c :
  OrderedDict.getitem k (OrderedDict.setitem key v c) =
    if decide (k = key) then Some v else OrderedDict.getitem k c.
Proof.
  unfold OrderedDict.setitem.
  destruct (OrderedDict.contains key c) eqn:Hc.
  - apply od_contains_true in Hc. destruct (decide (k = key)) as [->|Hne].
    + by apply od_getitem_replace_eq.
    + by apply od_getitem_replace_ne.
  - rewrite od_getitem_app. simpl.
    destruct (decide (k = key)) as [->|Hne].
    + apply od_contains_false, od_getitem_None in Hc. rewrite Hc.
      by rewrite decide_True.
    + rewrite decide_False by done. by destruct (OrderedDict.getitem k c).
Qed.

Lemma od_keys_setitem key v c :
  OrderedDict.keys (OrderedDict.setitem key v c) =
    if OrderedDict.contains key c then OrderedDict.keys c
    else OrderedDict.keys c ++ [key].
Proof.
  unfold OrderedDict.setitem. destruct (OrderedDict.contains key c).
  - apply od_keys_replace.
  - unfold OrderedDict.keys. by rewrite fmap_app.
Qed.

Lemma od_elem_of_keys_setitem key v k c :
  k ∈ OrderedDict.keys (OrderedDict.setitem key v c) ↔
  k = key ∨ k ∈ OrderedDict.keys c.
Proof.
  rewrite od_keys_setitem. destruct (OrderedDict.contains key c) eqn:Hc.
  - apply od_contains_true in Hc. split; [by right | by intros [->|?]].
  - rewrite elem_of_app, list_elem_of_singleton. tauto.
Qed.

Lemma od_wf_setitem key v c :
  OrderedDict.wf c → OrderedDict.wf (OrderedDict.setitem key v c).
Proof.
  unfold OrderedDict.wf. rewrite od_keys_setitem.
  destruct (OrderedDict.contains key c) eqn:Hc; [done|].
  apply od_contains_false in Hc. intros Hnd.
  apply NoDup_app. split_and!; [done| |apply NoDup_singleton].
  intros x Hx ->%list_elem_of_singleton. done.
Qed.

Lemma od_length_setitem key v c :
  length (OrderedDict.setitem key v c) =
    if OrderedDict.contains key c then length c else S (length c).
Proof.
  unfold OrderedDict.setitem. destruct (OrderedDict.contains key c).
  - apply od_length_replace.
  - rewrite length_app. simpl. lia.
Qed.

Lemma od_keys_delitem key c :
  OrderedDict.keys (OrderedDict.delitem key c) =
    filter (λ k, k ≠ key) (OrderedDict.keys c).
Proof.
  unfold OrderedDict.keys, OrderedDict.delitem.
  induction c as [|[k w] c IH]; [done|].
  rewrite fmap_cons. destruct (decide (k ≠ key)).
  - rewrite !filter_cons_True by done. csimpl. by rewrite IH.
  - rewrite !filter_cons_False by done. done.
Qed.

Lemma od_elem_of_keys_delitem key k c :
  k ∈ OrderedDict.keys (OrderedDict.delitem key c) ↔
  k ≠ key ∧ k ∈ OrderedDict.keys c.
Proof. by rewrite od_keys_delitem, list_elem_of_filter. Qed.

Lemma od_wf_delitem key c :
  OrderedDict.wf c → OrderedDict.wf (OrderedDict.delitem key c).
Proof.
  unfold OrderedDict.wf. rewrite od_keys_delitem. apply NoDup_filter.
Qed.

Lemma od_getitem_delitem key k c :
  OrderedDict.getitem k (OrderedDict.delitem key c) =
    if decide (k = key) then None else OrderedDict.getitem k c.
Proof.
  unfold OrderedDict.delitem.
  induction c as [|[k0 w] c IH]; simpl.
  - by destruct (decide (k = key)).
  - rewrite filter_cons. simpl. destruct (decide (k0 ≠ key)) as [Hne|Heq]; simpl.
    + rewrite IH. destruct (decide (k0 = k)) as [->|]; [|done].
      by rewrite decide_False.
    + apply dec_stable in Heq as ->. rewrite IH.
      destruct (decide (k = key)) as [->|]; [done|].
      by rewrite decide_False.
Qed.

Lemma od_length_delitem key c :
  (length (OrderedDict.delitem key c) ≤ length c)%nat.
Proof. apply length_filter. Qed.

End ordered_dict_facts.

Section ordered_dict_recency.
Context {V : Type}.
Implicit Types (c : OrderedDict.t V) (k key : string) (v : V).

Lemma od_getitem_move_to_end key k c :
  OrderedDict.getitem k (OrderedDict.move_to_end key c) = OrderedDict.getitem k c.
Proof.
  unfold OrderedDict.move_to_end.
  destruct (OrderedDict.getitem key c) as [v|] eqn:Hget; [|done].
  rewrite od_getitem_app, od_getitem_delitem. simpl.
  destruct (decide (k = key)) as [->|Hne].
  - by rewrite decide_True.
  - rewrite decide_False by done. by destruct (OrderedDict.getitem k c).
Qed.

Lemma od_keys_move_to_end key c :
  key ∈ OrderedDict.keys c →
  OrderedDict.keys (OrderedDict.move_to_end key c) =
    filter (λ k, k ≠ key) (OrderedDict.keys c) ++ [key].
Proof.
  intros [v Hv]%od_getitem_is_Some. unfold OrderedDict.move_to_end.
  rewrite Hv. unfold OrderedDict.keys at 1. rewrite fmap_app.
  by rewrite <- od_keys_delitem.
Qed.

Lemma od_elem_of_keys_move_to_end key k c :
  k ∈ OrderedDict.keys (OrderedDict.move_to_end key c) ↔ k ∈ OrderedDict.keys c.
Proof.
  rewrite <- !od_getitem_is_Some. by rewrite od_getitem_move_to_end.
Qed.

Lemma od_wf_move_to_end key c :
  OrderedDict.wf c → OrderedDict.wf (OrderedDict.move_to_end key c).
Proof.
  intros Hwf. destruct (decide (key ∈ OrderedDict.keys c)) as [Hin|Hnin].
  - unfold OrderedDict.wf. rewrite od_keys_move_to_end by done.
    apply NoDup_app. split_and!.
    + by apply NoDup_filter.
    + intros x [Hx _]%list_elem_of_filter ->%list_elem_of_singleton. done.
    + apply NoDup_singleton.
  - apply od_getitem_None in Hnin. unfold OrderedDict.move_to_end.
    by rewrite Hnin.
Qed.

Lemma od_length_delitem_lt key c :
  key ∈ OrderedDict.keys c →
  (length (OrderedDict.delitem key c) < length c)%nat.
Proof.
  unfold OrderedDict.keys, OrderedDict.delitem.
  induction c as [|[k w] c IH]; csimpl; [by intros ?%elem_of_nil|].
  intros Hin. destruct (decide (k = key)) as [->|Hne].
  - rewrite filter_cons_False by (simpl; auto).
    pose proof (length_filter (λ p : string * V, p.1 ≠ key) c). lia.
  - rewrite filter_cons_True by done. simpl.
    apply elem_of_cons in Hin as [->|Hin]; [done|]. specialize (IH Hin). lia.
Qed.

Lemma od_length_move_to_end key c :
  (length (OrderedDict.move_to_end key c) ≤ length c)%nat.
Proof.
  unfold OrderedDict.move_to_end.
  destruct (OrderedDict.getitem key c) as [v|] eqn:Hget; [|done].
  rewrite length_app. simpl.
  assert (key ∈ OrderedDict.keys c) as Hin
    by (apply od_getitem_is_Some; eauto).
  pose proof (od_length_delitem_lt key c Hin). lia.
Qed.

Lemma od_last_move_to_end key v c :
  OrderedDict.getitem key c = Some v →
  last (OrderedDict.move_to_end key c) = Some (key, v).
Proof.
  intros Hget. unfold OrderedDict.move_to_end. rewrite Hget.
  apply last_snoc.
Qed.

Lemma od_wf_drop n c : OrderedDict.wf c → OrderedDict.wf (drop n c).
Proof.
  unfold OrderedDict.wf, OrderedDict.keys. rewrite fmap_drop.
  intros Hnd. rewrite <- (take_drop n c.*1) in Hnd.
  by apply NoDup_app in Hnd as (_ & _ & ?).
Qed.

Lemma od_take_drop_disjoint n k c :
  OrderedDict.wf c →
  k ∈ OrderedDict.keys (take n c) → k ∉ OrderedDict.keys (drop n c).
Proof.
  unfold OrderedDict.wf, OrderedDict.keys. rewrite fmap_take, fmap_drop.
  intros Hnd. rewrite <- (take_drop n c.*1) in Hnd.
  apply NoDup_app in Hnd as (_ & Hdisj & _). apply Hdisj.
Qed.

Lemma od_keys_take_drop n k c :
  k ∈ OrderedDict.keys c ↔
  k ∈ OrderedDict.keys (take n c) ∨ k ∈ OrderedDict.keys (drop n c).
Proof.
  unfold OrderedDict.keys. rewrite <- (take_drop n c) at 1.
  by rewrite fmap_app, elem_of_app.
Qed.

Lemma od_getitem_drop n k c :
  OrderedDict.wf c → k ∈ OrderedDict.keys (drop n c) →
  OrderedDict.getitem k (drop n c) = OrderedDict.getitem k c.
Proof.
  intros Hwf Hin.
  apply od_getitem_is_Some in Hin as [v Hv]. rewrite Hv. symmetry.
  apply od_elem_of_getitem; [done|].
  apply od_getitem_elem_of in Hv. rewrite <- (take_drop n c).
  apply elem_of_app. by right.
Qed.

End ordered_dict_recency.

(** ** Sequences of calls on one [FileBackedDict] *)

Inductive Op (V : Type) : Type :=
  | OpGet (key : string)
  | OpSet (key : string) (value : V)
  | OpDel (key : string)
  | OpFlush
  | OpIter
  | OpLen.
Arguments OpGet {V} key.
Arguments OpSet {V} key value.
Arguments OpDel {V} key.
Arguments OpFlush {V}.
Arguments OpIter {V}.
Arguments OpLen {V}.

(** The object after one call, whether the call returned or raised. *)
Definition step {V B} {build : SqliteBuild} (op : Op V)
    (d : FileBackedDict.t V B) : FileBackedDict.t V B :=
  match op with
  | OpGet key => (FileBackedDict.__getitem__ key d).2
  | OpSet key value => (FileBackedDict.__setitem__ key value d).2
  | OpDel key => (FileBackedDict.__delitem__ key d).2
  | OpFlush => (FileBackedDict.flush d).2
  | OpIter => (FileBackedDict.__iter__ d).2
  | OpLen => (FileBackedDict.__len__ d).2
  end.

Fixpoint run {V B} {build : SqliteBuild} (ops : list (Op V))
    (d : FileBackedDict.t V B) : FileBackedDict.t V B :=
  match ops with
  | [] => d
  | op :: ops' => run ops' (step op d)
  end.

(** A call that writes or deletes [key]. *)
Definition writes {V} (key : string) (op : Op V) : Prop :=
  match op with
  | OpSet k _ | OpDel k => k = key
  | _ => False
  end.

#[global] Instance writes_dec {V} key (op : Op V) : Decision (writes key op).
Proof. destruct op; simpl; apply _. Defined.

(** [key] is in the cache now and after each call of [ops]. *)
Fixpoint cached_throughout {V B} {build : SqliteBuild} (key : string)
    (ops : list (Op V)) (d : FileBackedDict.t V B) : Prop :=
  key ∈ OrderedDict.keys (FileBackedDict._active_object_cache d) ∧
  match ops with
  | [] => True
  | op :: ops' => cached_throughout key ops' (step op d)
  end.

(** A collection right after a successful [__post_init__]. *)
Definition fresh {V B} (d : FileBackedDict.t V B) : Prop :=
  is_Some (FileBackedDict._conn d) ∧
  FileBackedDict._active_object_cache d = [] ∧
  FileBackedDict.table d = ∅.

Definition reachable {V B} {build : SqliteBuild} (d : FileBackedDict.t V B)
  : Prop :=
  ∃ d0 ops, fresh d0 ∧ d = run ops d0.

(** The keys a collection holds, in its cache or in its table. *)
Definition live_keys {V B} (d : FileBackedDict.t V B) : gset string :=
  dom (FileBackedDict.table d) ∪
  list_to_set (OrderedDict.keys (FileBackedDict._active_object_cache d)).

(** The same sequence of calls on a plain set of keys: what [set] and
    [delete] mean for the keys of a dictionary. *)
Fixpoint model_keys {V} (ops : list (Op V)) (s : gset string) : gset string :=
  match ops with
  | [] => s
  | OpSet key _ :: ops' => model_keys ops' ({[key]} ∪ s)
  | OpDel key :: ops' => model_keys ops' (s ∖ {[key]})
  | _ :: ops' => model_keys ops' s
  end.

Section dict_facts.
Context {V B : Type} {build : SqliteBuild}.
Import FileBackedDict.
Implicit Types (d : FileBackedDict.t V B) (k key : string) (v value : V).

Definition rows_of d (c : OrderedDict.t V) : list (string * Row B) :=
  (λ kv, (kv.1, row_of d kv.2)) <$> c.

Definition write_rows (tb : gmap string (Row B)) (items : list (string * Row B))
  : gmap string (Row B) :=
  foldl (λ tb item, <[item.1 := item.2]> tb) tb items.

Definition is_open d : Prop := is_Some (_conn d).

Definition wf d : Prop := OrderedDict.wf (_active_object_cache d).

Lemma with_cache_id d : with_cache (_active_object_cache d) d = d.
Proof. by destruct d. Qed.

Lemma with_table_id d : with_table (table d) d = d.
Proof. by destruct d. Qed.

Lemma write_rows_snoc tb items item :
  write_rows tb (items ++ [item]) = <[item.1 := item.2]> (write_rows tb items).
Proof. unfold write_rows. by rewrite foldl_app. Qed.

Lemma write_rows_lookup_notin tb items k :
  k ∉ items.*1 → write_rows tb items !! k = tb !! k.
Proof.
  induction items as [|item items IH] using rev_ind; [done|].
  rewrite fmap_app, not_elem_of_app. csimpl. rewrite not_elem_of_cons.
  intros (Hk & Hne & _). rewrite write_rows_snoc.
  rewrite lookup_insert_ne by done. auto.
Qed.

Lemma write_rows_lookup_in tb items k r :
  NoDup items.*1 → (k, r) ∈ items → write_rows tb items !! k = Some r.
Proof.
  induction items as [|item items IH] using rev_ind; [by intros _ ?%elem_of_nil|].
  rewrite fmap_app. csimpl. intros (Hnd & Hdisj & _)%NoDup_app.
  rewrite write_rows_snoc. intros [Hin|Heq%list_elem_of_singleton]%elem_of_app.
  - rewrite lookup_insert_ne; [by apply IH|].
    intros Heq. apply (Hdisj k); [|rewrite Heq; apply list_elem_of_here].
    apply list_elem_of_fmap. by exists (k, r).
  - subst item. simpl. by rewrite lookup_insert_eq.
Qed.

Lemma dom_write_rows tb items :
  dom (write_rows tb items) = dom tb ∪ list_to_set items.*1.
Proof.
  induction items as [|item items IH] using rev_ind.
  - simpl. set_solver.
  - rewrite write_rows_snoc, dom_insert_L, IH, fmap_app, list_to_set_app_L.
    simpl. set_solver.
Qed.

Lemma rows_of_keys d c : (rows_of d c).*1 = OrderedDict.keys c.
Proof.
  unfold rows_of, OrderedDict.keys. rewrite <- list_fmap_compose.
  by apply list_fmap_ext.
Qed.

Lemma pop_items_enough n acc d :
  (n ≤ length (_active_object_cache d))%nat →
  pop_items n acc d =
    (Ok (acc ++ rows_of d (take n (_active_object_cache d))),
     with_cache (drop n (_active_object_cache d)) d).
Proof.
  revert acc d. induction n as [|n IH]; intros acc d Hn.
  - simpl. unfold ret. rewrite drop_0, with_cache_id.
    by rewrite app_nil_r.
  - simpl. destruct (_active_object_cache d) as [|[key value] c'] eqn:Hc;
      [simpl in Hn; lia|].
    simpl. rewrite IH by (simpl in *; lia). simpl.
    by rewrite <- app_assoc.
Qed.

Lemma pop_items_short n acc d :
  (length (_active_object_cache d) < n)%nat →
  pop_items n acc d = (Raise KeyError, with_cache [] d).
Proof.
  revert acc d. induction n as [|n IH]; intros acc d Hn; [lia|].
  simpl. destruct (_active_object_cache d) as [|[key value] c'] eqn:Hc.
  - simpl. by rewrite <- Hc, with_cache_id.
  - simpl. rewrite IH by (simpl in *; lia). done.
Qed.

Lemma prune_cache_open num d :
  is_open d →
  (Z.to_nat num ≤ length (_active_object_cache d))%nat →
  _prune_cache num d =
    (Ok (),
     with_table
       (write_rows (table d)
          (rows_of d (take (Z.to_nat num) (_active_object_cache d))))
       (with_cache (drop (Z.to_nat num) (_active_object_cache d)) d)).
Proof.
  intros [conn Hconn] Hn. unfold _prune_cache, bind.
  rewrite pop_items_enough by done. unfold insert_or_replace. simpl.
  by rewrite Hconn.
Qed.

Lemma prune_cache_closed num d :
  _conn d = None →
  (Z.to_nat num ≤ length (_active_object_cache d))%nat →
  _prune_cache num d =
    (Raise AttributeError,
     with_cache (drop (Z.to_nat num) (_active_object_cache d)) d).
Proof.
  intros Hconn Hn. unfold _prune_cache, bind.
  rewrite pop_items_enough by done. unfold insert_or_replace. simpl.
  by rewrite Hconn.
Qed.

(** How many entries [_add_to_cache] prunes once the cache is [c]. *)
Definition evict_count d (c : OrderedDict.t V) : nat :=
  if decide (OrderedDict.len c > cache_max_size d)
  then Z.to_nat (Z.min (OrderedDict.len c) (cache_eviction_batch_size d))
  else 0%nat.

Lemma evict_count_le d c : (evict_count d c ≤ length c)%nat.
Proof.
  unfold evict_count, OrderedDict.len. case_decide; lia.
Qed.

Lemma pop_items_state n acc d :
  (pop_items n acc d).2 = with_cache (drop n (_active_object_cache d)) d.
Proof.
  destruct (decide (n ≤ length (_active_object_cache d))%nat).
  - by rewrite pop_items_enough.
  - rewrite pop_items_short by lia. simpl. by rewrite drop_ge by lia.
Qed.

Lemma prune_cache_state num d :
  ∃ tb, (_prune_cache num d).2 =
        with_table tb
          (with_cache (drop (Z.to_nat num) (_active_object_cache d)) d).
Proof.
  unfold _prune_cache, bind.
  pose proof (pop_items_state (Z.to_nat num) [] d) as Hst.
  destruct (pop_items (Z.to_nat num) [] d) as [[items|e] d1]; simpl in *; subst d1.
  - unfold insert_or_replace. simpl. destruct (_conn d); simpl.
    + eauto.
    + eexists. symmetry. apply with_table_id.
  - eexists. symmetry. apply with_table_id.
Qed.

Lemma add_to_cache_open key value d :
  is_open d →
  let c1 := OrderedDict.setitem key value (_active_object_cache d) in
  _add_to_cache key value d =
    (Ok (),
     with_table
       (write_rows (table d) (rows_of d (take (evict_count d c1) c1)))
       (with_cache (drop (evict_count d c1) c1) d)).
Proof.
  intros Hopen c1. unfold _add_to_cache, evict_count. fold c1. simpl.
  case_decide as Hgt.
  - rewrite prune_cache_open; [done|done|]. simpl. unfold OrderedDict.len. lia.
  - rewrite drop_0.
    change (write_rows (table d) (rows_of d (take 0 c1)))
      with (table (with_cache c1 d)).
    by rewrite with_table_id.
Qed.

Lemma add_to_cache_state key value d :
  let c1 := OrderedDict.setitem key value (_active_object_cache d) in
  ∃ tb, (_add_to_cache key value d).2 =
        with_table tb (with_cache (drop (evict_count d c1) c1) d).
Proof.
  intros c1. unfold _add_to_cache, evict_count. fold c1. simpl.
  case_decide as Hgt.
  - destruct (prune_cache_state
                (Z.min (OrderedDict.len c1) (cache_eviction_batch_size d))
                (with_cache c1 d)) as [tb Htb].
    exists tb. by rewrite Htb.
  - exists (table d). rewrite drop_0.
    change (table d) with (table (with_cache c1 d)).
    by rewrite with_table_id.
Qed.

(** Every call leaves the configuration and the connection of the object
    alone: only the cache and the table change. *)
Lemma step_state (op : Op V) d :
  ∃ c tb, step op d = with_table tb (with_cache c d).
Proof.
  destruct op as [key|key value|key| | |]; simpl.
  - unfold __getitem__.
    destruct (OrderedDict.contains key (_active_object_cache d)).
    + exists (OrderedDict.move_to_end key (_active_object_cache d)), (table d).
      rewrite (with_table_id (with_cache _ d)).
      by destruct (OrderedDict.getitem key _).
    + destruct (_conn d); [|exists (_active_object_cache d), (table d);
          by rewrite (with_table_id (with_cache _ d)), with_cache_id].
      destruct (table d !! key) as [result|];
        [|exists (_active_object_cache d), (table d);
          by rewrite (with_table_id (with_cache _ d)), with_cache_id].
      unfold bind.
      destruct (add_to_cache_state key (deserializer d (row_value result)) d)
        as [tb Htb].
      destruct (_add_to_cache key (deserializer d (row_value result)) d)
        as [[?|?] d1]; simpl in *; subst d1; eauto.
  - destruct (add_to_cache_state key value d) as [tb Htb]. eauto.
  - unfold __delitem__.
    destruct (OrderedDict.contains key (_active_object_cache d)); simpl.
    + destruct (_conn d); simpl.
      * exists (OrderedDict.delitem key (_active_object_cache d)),
               (delete key (table d)). done.
      * exists (OrderedDict.delitem key (_active_object_cache d)), (table d).
        by rewrite (with_table_id (with_cache _ d)).
    + destruct (_conn d); simpl.
      * exists (_active_object_cache d), (delete key (table d)).
        rewrite with_cache_id. by case_decide.
      * exists (_active_object_cache d), (table d).
        by rewrite (with_table_id (with_cache _ d)), with_cache_id.
  - destruct (prune_cache_state (OrderedDict.len (_active_object_cache d)) d)
      as [tb Htb]. unfold flush. eauto.
  - unfold __iter__. exists (_active_object_cache d), (table d).
    rewrite (with_table_id (with_cache _ d)), with_cache_id.
    by destruct (_conn d).
  - unfold __len__. exists (_active_object_cache d), (table d).
    rewrite (with_table_id (with_cache _ d)), with_cache_id.
    destruct (_conn d); [by case_decide|done].
Qed.

Lemma step_conn (op : Op V) d : _conn (step op d) = _conn d.
Proof. destruct (step_state op d) as (c & tb & ->). done. Qed.

Lemma step_cache_max_size (op : Op V) d :
  cache_max_size (step op d) = cache_max_size d.
Proof. destruct (step_state op d) as (c & tb & ->). done. Qed.

Lemma step_cache_eviction_batch_size (op : Op V) d :
  cache_eviction_batch_size (step op d) = cache_eviction_batch_size d.
Proof. destruct (step_state op d) as (c & tb & ->). done. Qed.

Lemma step_serializer (op : Op V) d : serializer (step op d) = serializer d.
Proof. destruct (step_state op d) as (c & tb & ->). done. Qed.

Lemma step_deserializer (op : Op V) d : deserializer (step op d) = deserializer d.
Proof. destruct (step_state op d) as (c & tb & ->). done. Qed.

Lemma step_is_open (op : Op V) d : is_open d → is_open (step op d).
Proof. unfold is_open. by rewrite step_conn. Qed.

Lemma run_is_open (ops : list (Op V)) d : is_open d → is_open (run ops d).
Proof.
  revert d. induction ops as [|op ops IH]; intros d Hd; simpl; [done|].
  apply IH. by apply step_is_open.
Qed.

(** The cache [_add_to_cache key value] leaves behind. *)
Definition cache_added key value d : OrderedDict.t V :=
  let c1 := OrderedDict.setitem key value (_active_object_cache d) in
  drop (evict_count d c1) c1.

(** The table [_add_to_cache key value] leaves behind on an open collection. *)
Definition table_added key value d : gmap string (Row B) :=
  let c1 := OrderedDict.setitem key value (_active_object_cache d) in
  write_rows (table d) (rows_of d (take (evict_count d c1) c1)).

(** The cache after one call. *)
Definition cache_after (op : Op V) d : OrderedDict.t V :=
  let c := _active_object_cache d in
  match op with
  | OpGet key =>
      if OrderedDict.contains key c then OrderedDict.move_to_end key c
      else match _conn d, table d !! key with
           | Some _, Some result =>
               cache_added key (deserializer d (row_value result)) d
           | _, _ => c
           end
  | OpSet key value => cache_added key value d
  | OpDel key =>
      if OrderedDict.contains key c then OrderedDict.delitem key c else c
  | OpFlush => []
  | OpIter | OpLen => c
  end.

(** The table after one call on an open collection. *)
Definition table_after (op : Op V) d : gmap string (Row B) :=
  let c := _active_object_cache d in
  match op with
  | OpGet key =>
      if OrderedDict.contains key c then table d
      else match table d !! key with
           | Some result =>
               table_added key (deserializer d (row_value result)) d
           | None => table d
           end
  | OpSet key value => table_added key value d
  | OpDel key => delete key (table d)
  | OpFlush => write_rows (table d) (rows_of d c)
  | OpIter | OpLen => table d
  end.

Lemma add_to_cache_cache key value d :
  _active_object_cache (_add_to_cache key value d).2 = cache_added key value d.
Proof.
  destruct (add_to_cache_state key value d) as [tb ->]. done.
Qed.

Lemma step_cache (op : Op V) d :
  _active_object_cache (step op d) = cache_after op d.
Proof.
  destruct op as [key|key value|key| | |]; simpl.
  - unfold __getitem__.
    destruct (OrderedDict.contains key (_active_object_cache d)).
    + by destruct (OrderedDict.getitem key _).
    + destruct (_conn d); [|done].
      destruct (table d !! key) as [result|]; [|done].
      unfold bind.
      pose proof (add_to_cache_cache key (deserializer d (row_value result)) d).
      by destruct (_add_to_cache key (deserializer d (row_value result)) d)
        as [[?|?] d1].
  - apply add_to_cache_cache.
  - unfold __delitem__.
    destruct (OrderedDict.contains key (_active_object_cache d)); simpl.
    + by destruct (_conn d).
    + destruct (_conn d); simpl; [|done]. by case_decide.
  - unfold flush.
    destruct (prune_cache_state (OrderedDict.len (_active_object_cache d)) d)
      as [tb ->]. simpl. unfold OrderedDict.len.
    rewrite Nat2Z.id. apply drop_all.
  - unfold __iter__. by destruct (_conn d).
  - unfold __len__. destruct (_conn d); [by case_decide|done].
Qed.

Lemma step_table (op : Op V) d :
  is_open d → table (step op d) = table_after op d.
Proof.
  intros Hopen. pose proof Hopen as [conn Hconn].
  destruct op as [key|key value|key| | |]; simpl.
  - unfold __getitem__.
    destruct (OrderedDict.contains key (_active_object_cache d)).
    + by destruct (OrderedDict.getitem key _).
    + rewrite Hconn. destruct (table d !! key) as [result|]; [|done].
      unfold bind. by rewrite add_to_cache_open.
  - unfold __setitem__. by rewrite add_to_cache_open.
  - unfold __delitem__.
    destruct (OrderedDict.contains key (_active_object_cache d)); simpl;
      rewrite Hconn; simpl; [done|]. by case_decide.
  - unfold flush. rewrite prune_cache_open; [|done|unfold OrderedDict.len; lia].
    simpl. unfold OrderedDict.len. rewrite Nat2Z.id. by rewrite firstn_all.
  - unfold __iter__. by rewrite Hconn.
  - unfold __len__. rewrite Hconn. by case_decide.
Qed.

Lemma cache_added_wf key value d : wf d → OrderedDict.wf (cache_added key value d).
Proof. intros Hwf. apply od_wf_drop. by apply od_wf_setitem. Qed.

Lemma step_wf (op : Op V) d : wf d → wf (step op d).
Proof.
  intros Hwf. unfold wf. rewrite step_cache.
  destruct op as [key|key value|key| | |]; simpl.
  - destruct (OrderedDict.contains key _); [by apply od_wf_move_to_end|].
    destruct (_conn d); [|done].
    destruct (table d !! key); [by apply cache_added_wf | done].
  - by apply cache_added_wf.
  - destruct (OrderedDict.contains key _); [by apply od_wf_delitem | done].
  - apply NoDup_nil_2.
  - done.
  - done.
Qed.

Lemma run_wf (ops : list (Op V)) d : wf d → wf (run ops d).
Proof.
  revert d. induction ops as [|op ops IH]; intros d Hd; simpl; [done|].
  apply IH. by apply step_wf.
Qed.

Lemma fresh_wf d : fresh d → wf d.
Proof. intros (_ & Hc & _). unfold wf. rewrite Hc. apply NoDup_nil_2. Qed.

Lemma reachable_wf d : reachable d → wf d.
Proof. intros (d0 & ops & Hf & ->). by apply run_wf, fresh_wf. Qed.

Lemma reachable_is_open d : reachable d → is_open d.
Proof. intros (d0 & ops & (Hc & _) & ->). by apply run_is_open. Qed.

End dict_facts.

(** ** The cache never outgrows [cache_max_size] *)

Section cache_bound.
Context {V B : Type} {build : SqliteBuild}.
Import FileBackedDict.
Implicit Types (d : FileBackedDict.t V B) (k key : string) (v value : V).

Definition bounded d : Prop :=
  OrderedDict.len (_active_object_cache d) ≤ cache_max_size d.

Lemma cache_added_length key value d :
  0 ≤ cache_eviction_batch_size d →
  let c1 := OrderedDict.setitem key value (_active_object_cache d) in
  OrderedDict.len (cache_added key value d) =
    if decide (OrderedDict.len c1 > cache_max_size d)
    then OrderedDict.len c1
         - Z.min (OrderedDict.len c1) (cache_eviction_batch_size d)
    else OrderedDict.len c1.
Proof.
  intros Hb c1. unfold cache_added, evict_count. fold c1.
  unfold OrderedDict.len. rewrite length_drop.
  case_decide; lia.
Qed.

Lemma cache_added_bounded key value d :
  1 ≤ cache_eviction_batch_size d → bounded d →
  OrderedDict.len (cache_added key value d) ≤ cache_max_size d.
Proof.
  intros Hb Hbd. rewrite cache_added_length by lia.
  unfold bounded in Hbd.
  pose proof (od_length_setitem key value (_active_object_cache d)) as Hlen.
  unfold OrderedDict.len in *.
  destruct (OrderedDict.contains key (_active_object_cache d));
    case_decide; lia.
Qed.

Lemma step_bounded (op : Op V) d :
  1 ≤ cache_eviction_batch_size d → bounded d → bounded (step op d).
Proof.
  intros Hb Hbd. unfold bounded.
  rewrite step_cache, step_cache_max_size.
  pose proof Hbd as Hbd'. unfold bounded, OrderedDict.len in Hbd'.
  destruct op as [key|key value|key| | |]; simpl.
  - destruct (OrderedDict.contains key _).
    + pose proof (od_length_move_to_end key (_active_object_cache d)).
      unfold OrderedDict.len. lia.
    + destruct (_conn d); [|done].
      destruct (table d !! key); [by apply cache_added_bounded | done].
  - by apply cache_added_bounded.
  - destruct (OrderedDict.contains key _); [|done].
    pose proof (od_length_delitem key (_active_object_cache d)).
    unfold OrderedDict.len. lia.
  - unfold OrderedDict.len. simpl. lia.
  - done.
  - done.
Qed.

Lemma run_config (ops : list (Op V)) d :
  cache_max_size (run ops d) = cache_max_size d ∧
  cache_eviction_batch_size (run ops d) = cache_eviction_batch_size d.
Proof.
  revert d. induction ops as [|op ops IH]; intros d; simpl; [done|].
  destruct (IH (step op d)) as [-> ->].
  by rewrite step_cache_max_size, step_cache_eviction_batch_size.
Qed.

Lemma run_bounded (ops : list (Op V)) d :
  1 ≤ cache_eviction_batch_size d → bounded d → bounded (run ops d).
Proof.
  revert d. induction ops as [|op ops IH]; intros d Hb Hbd; simpl; [done|].
  apply IH; [by rewrite step_cache_eviction_batch_size | by apply step_bounded].
Qed.

(** C10. A collection built with [cache_max_size >= 0] and
    [cache_eviction_batch_size >= 1] holds at most [cache_max_size] cache
    entries after every sequence of get, set, delete, flush, iterate and
    length calls; and an insertion that takes the cache above
    [cache_max_size] evicts [min(len(cache), cache_eviction_batch_size)]
    entries, oldest first, before it returns. *)
Theorem cache_size_bound (d0 : FileBackedDict.t V B) (ops : list (Op V)) :
  fresh d0 →
  0 ≤ cache_max_size d0 →
  1 ≤ cache_eviction_batch_size d0 →
  let d := run ops d0 in
  OrderedDict.len (_active_object_cache d) ≤ cache_max_size d0 ∧
  ∀ key value,
    let c1 := OrderedDict.setitem key value (_active_object_cache d) in
    let d' := (__setitem__ key value d).2 in
    OrderedDict.len c1 > cache_max_size d0 →
    _active_object_cache d' =
      drop (Z.to_nat (Z.min (OrderedDict.len c1) (cache_eviction_batch_size d0))) c1 ∧
    OrderedDict.len c1 - OrderedDict.len (_active_object_cache d') =
      Z.min (OrderedDict.len c1) (cache_eviction_batch_size d0) ∧
    OrderedDict.len (_active_object_cache d') ≤ cache_max_size d0.
Proof.
  intros (Hopen & Hc & Htb) Hmax Hbatch d.
  assert (bounded d0) as Hbd0.
  { unfold bounded. rewrite Hc. unfold OrderedDict.len. simpl. lia. }
  assert (bounded d) as Hbd by (by apply run_bounded).
  destruct (run_config ops d0) as [Hcm Hcb]. fold d in Hcm, Hcb.
  split; [unfold bounded in Hbd; by rewrite <- Hcm|].
  intros key value c1 d' Hgt.
  assert (_active_object_cache d' = cache_added key value d) as Hd'
    by apply (step_cache (OpSet key value) d).
  rewrite Hd'. split_and!.
  - unfold cache_added, evict_count. fold c1. rewrite Hcm, Hcb.
    by rewrite decide_True.
  - rewrite cache_added_length by lia. fold c1. rewrite Hcm, Hcb.
    rewrite decide_True by done. lia.
  - rewrite <- Hcm. apply cache_added_bounded; [lia | done].
Qed.

End cache_bound.

(** ** Point lookup and deletion *)

Section lookup_delete.
Context {V B : Type} {build : SqliteBuild}.
Import FileBackedDict.
Implicit Types (d : FileBackedDict.t V B) (k key : string) (v value : V).

(** [key] is neither in the cache nor in the table. *)
Definition absent key d : Prop :=
  (key ∉ OrderedDict.keys (_active_object_cache d)) ∧ table d !! key = None.

Lemma getitem_cached key v d :
  OrderedDict.getitem key (_active_object_cache d) = Some v →
  __getitem__ key d =
    (Ok v, with_cache (OrderedDict.move_to_end key (_active_object_cache d)) d).
Proof.
  intros Hget. unfold __getitem__.
  rewrite (proj2 (od_contains_true key _))
    by (apply od_getitem_is_Some; eauto).
  simpl. by rewrite od_getitem_move_to_end, Hget.
Qed.

Lemma getitem_stored key result d :
  is_open d →
  key ∉ OrderedDict.keys (_active_object_cache d) →
  table d !! key = Some result →
  __getitem__ key d =
    (Ok (deserializer d (row_value result)),
     (_add_to_cache key (deserializer d (row_value result)) d).2).
Proof.
  intros Hopen Hnin Hrow. unfold __getitem__.
  rewrite (proj2 (od_contains_false key _)) by done.
  destruct Hopen as [conn Hconn]. rewrite Hconn, Hrow.
  unfold bind. rewrite add_to_cache_open by (by exists conn). done.
Qed.

Lemma getitem_absent key d :
  is_open d → absent key d → __getitem__ key d = (Raise KeyError, d).
Proof.
  intros [conn Hconn] [Hnin Hrow]. unfold __getitem__.
  rewrite (proj2 (od_contains_false key _)) by done.
  by rewrite Hconn, Hrow.
Qed.

Lemma delitem_result key d :
  is_open d →
  (__delitem__ key d).1 =
    if decide (absent key d) then Raise KeyError else Ok ().
Proof.
  intros [conn Hconn]. unfold __delitem__, absent.
  destruct (OrderedDict.contains key (_active_object_cache d)) eqn:Hc; simpl.
  - rewrite Hconn. simpl. apply od_contains_true in Hc.
    rewrite decide_False; [done | by intros [? _]].
  - rewrite Hconn. apply od_contains_false in Hc.
    destruct (table d !! key) as [row|] eqn:Hrow.
    + rewrite decide_True by eauto. simpl.
      rewrite decide_False; [done | by intros [_ ?]].
    + rewrite decide_False by (by intros [? ?]). simpl.
      by rewrite decide_True.
Qed.

Lemma delitem_removes key d :
  is_open d →
  absent key (__delitem__ key d).2.
Proof.
  intros Hopen. change ((__delitem__ key d).2) with (step (OpDel key) d).
  unfold absent. rewrite step_cache, step_table by done. simpl. split.
  - destruct (OrderedDict.contains key _) eqn:Hc.
    + rewrite od_elem_of_keys_delitem. by intros [? _].
    + by apply od_contains_false.
  - apply lookup_delete_eq.
Qed.

(** C7. On an open collection, [get] and [delete] raise [KeyError] exactly
    when the key is in neither the cache nor the table; otherwise [get]
    returns a value and [delete] succeeds, in particular for a key held
    only by the table or only by the cache, and after a [delete] the key is
    in neither. *)
Theorem not_found_exactly_when_absent (d : FileBackedDict.t V B) (key : string) :
  is_open d →
  ((__getitem__ key d).1 = Raise KeyError ↔ absent key d) ∧
  ((__delitem__ key d).1 = Raise KeyError ↔ absent key d) ∧
  (¬ absent key d →
     (∃ v, (__getitem__ key d).1 = Ok v) ∧ (__delitem__ key d).1 = Ok ()) ∧
  (key ∉ OrderedDict.keys (_active_object_cache d) → is_Some (table d !! key) →
     (__delitem__ key d).1 = Ok ()) ∧
  (key ∈ OrderedDict.keys (_active_object_cache d) → table d !! key = None →
     (__delitem__ key d).1 = Ok ()) ∧
  absent key (__delitem__ key d).2.
Proof.
  intros Hopen.
  assert (¬ absent key d → ∃ v, (__getitem__ key d).1 = Ok v) as Hget.
  { intros Hpresent.
    destruct (OrderedDict.getitem key (_active_object_cache d)) as [v|] eqn:Hc.
    - exists v. by rewrite (getitem_cached key v).
    - apply od_getitem_None in Hc.
      destruct (table d !! key) as [result|] eqn:Hrow.
      + eexists. by rewrite (getitem_stored key result).
      + by destruct Hpresent. }
  split_and!.
  - split.
    + intros Hraise. destruct (decide (absent key d)) as [|Hpresent]; [done|].
      destruct (Hget Hpresent) as [v Hv]. congruence.
    + intros Habs. by rewrite getitem_absent.
  - rewrite delitem_result by done. by case_decide.
  - intros Hpresent. split; [by apply Hget|].
    rewrite delitem_result by done. by rewrite decide_False.
  - intros Hnin [row Hrow]. rewrite delitem_result by done.
    rewrite decide_False; [done|]. intros [_ ?]. congruence.
  - intros Hin Hrow. rewrite delitem_result by done.
    rewrite decide_False; [done|]. by intros [? _].
  - by apply delitem_removes.
Qed.

End lookup_delete.

(** ** Iteration and length *)

Section iterate_length.
Context {V B : Type} {build : SqliteBuild}.
Import FileBackedDict.
Implicit Types (d : FileBackedDict.t V B) (k key : string) (v value : V).

(** What [__iter__] yields: the stored keys no cache entry shadows, then
    the cached keys. *)
Definition iter_keys d : list string :=
  filter (λ key, key ∉ OrderedDict.keys (_active_object_cache d)) (select_keys d)
  ++ OrderedDict.keys (_active_object_cache d).

Lemma elem_of_select_keys key d : key ∈ select_keys d ↔ is_Some (table d !! key).
Proof.
  unfold select_keys. rewrite list_elem_of_fmap. split.
  - intros ([k r] & -> & Hin). apply elem_of_map_to_list in Hin. eauto.
  - intros [r Hr]. exists (key, r). split; [done|].
    by apply elem_of_map_to_list.
Qed.

Lemma elem_of_iter_keys key d :
  key ∈ iter_keys d ↔
  key ∈ OrderedDict.keys (_active_object_cache d) ∨ is_Some (table d !! key).
Proof.
  unfold iter_keys. rewrite elem_of_app, list_elem_of_filter, elem_of_select_keys.
  destruct (decide (key ∈ OrderedDict.keys (_active_object_cache d))); tauto.
Qed.

Lemma NoDup_iter_keys d : wf d → NoDup (iter_keys d).
Proof.
  intros Hwf. unfold iter_keys. apply NoDup_app. split_and!.
  - apply NoDup_filter, NoDup_fst_map_to_list.
  - by intros key [Hnin _]%list_elem_of_filter.
  - done.
Qed.

Lemma live_keys_iter_keys d : live_keys d = list_to_set (iter_keys d).
Proof.
  apply set_eq. intros key. unfold live_keys.
  rewrite elem_of_union, elem_of_dom, !elem_of_list_to_set, elem_of_iter_keys.
  tauto.
Qed.

Lemma size_live_keys d : wf d → size (live_keys d) = length (iter_keys d).
Proof.
  intros Hwf. rewrite live_keys_iter_keys.
  by apply size_list_to_set, NoDup_iter_keys.
Qed.

Lemma list_to_set_keys_take_drop n (c : OrderedDict.t V) :
  list_to_set (OrderedDict.keys (take n c)) ∪
  list_to_set (OrderedDict.keys (drop n c)) =@{gset string}
  list_to_set (OrderedDict.keys c).
Proof.
  rewrite <- list_to_set_app_L. unfold OrderedDict.keys.
  by rewrite <- fmap_app, take_drop.
Qed.

Lemma live_keys_added key value d :
  dom (table_added key value d) ∪
  list_to_set (OrderedDict.keys (cache_added key value d)) =
  {[key]} ∪ live_keys d.
Proof.
  unfold table_added, cache_added, live_keys.
  rewrite dom_write_rows, rows_of_keys.
  rewrite <- (assoc_L (∪)), list_to_set_keys_take_drop.
  apply set_eq. intros k.
  rewrite !elem_of_union, !elem_of_list_to_set, od_elem_of_keys_setitem.
  rewrite elem_of_singleton. tauto.
Qed.

(** What one call does to the set of keys a dictionary holds. *)
Definition model_step (op : Op V) (s : gset string) : gset string :=
  match op with
  | OpSet key _ => {[key]} ∪ s
  | OpDel key => s ∖ {[key]}
  | _ => s
  end.

Lemma model_keys_cons (op : Op V) ops s :
  model_keys (op :: ops) s = model_keys ops (model_step op s).
Proof. by destruct op. Qed.

Lemma step_live_keys (op : Op V) d :
  is_open d → live_keys (step op d) = model_step op (live_keys d).
Proof.
  intros Hopen. unfold live_keys at 1. rewrite step_cache, step_table by done.
  destruct Hopen as [conn Hconn].
  destruct op as [key|key value|key| | |]; simpl.
  - destruct (OrderedDict.contains key _) eqn:Hc.
    + unfold live_keys. f_equal. apply set_eq. intros k.
      by rewrite !elem_of_list_to_set, od_elem_of_keys_move_to_end.
    + rewrite Hconn. destruct (table d !! key) as [result|] eqn:Hrow; [|done].
      rewrite live_keys_added. unfold live_keys.
      assert (key ∈ dom (table d)) by (apply elem_of_dom; eauto).
      set_solver.
  - apply live_keys_added.
  - unfold live_keys. rewrite dom_delete_L.
    destruct (OrderedDict.contains key _) eqn:Hc.
    + apply set_eq. intros k.
      rewrite !elem_of_difference, !elem_of_union, !elem_of_difference,
        !elem_of_list_to_set, od_elem_of_keys_delitem, elem_of_singleton.
      tauto.
    + apply od_contains_false in Hc. apply set_eq. intros k.
      rewrite !elem_of_difference, !elem_of_union, !elem_of_difference,
        !elem_of_list_to_set, elem_of_singleton.
      split; [|tauto]. intros [[? ?]|?]; [tauto|].
      split; [tauto|]. by intros ->.
  - unfold live_keys. rewrite dom_write_rows, rows_of_keys. simpl.
    set_solver.
  - done.
  - done.
Qed.

Lemma run_live_keys (ops : list (Op V)) d :
  is_open d → live_keys (run ops d) = model_keys ops (live_keys d).
Proof.
  revert d. induction ops as [|op ops IH]; intros d Hopen; [done|].
  rewrite model_keys_cons. simpl.
  rewrite IH by (by apply step_is_open). by rewrite step_live_keys.
Qed.

(** C4. In every state a collection can reach, [__iter__] yields the stored
    keys that no cache entry shadows followed by the cached keys; no key
    comes twice, and the keys that come are exactly those present in the
    cache or in the table. *)
Theorem iterate_every_live_key_once (d : FileBackedDict.t V B) :
  reachable d →
  __iter__ d = (Ok (iter_keys d), d) ∧
  NoDup (iter_keys d) ∧
  ∀ key, key ∈ iter_keys d ↔
         key ∈ OrderedDict.keys (_active_object_cache d) ∨
         is_Some (table d !! key).
Proof.
  intros Hreach. pose proof (reachable_wf d Hreach) as Hwf.
  destruct (reachable_is_open d Hreach) as [conn Hconn].
  split_and!.
  - unfold __iter__. by rewrite Hconn.
  - by apply NoDup_iter_keys.
  - intros key. apply elem_of_iter_keys.
Qed.

(** What [__len__] does on an open collection: its statement binds one host
    parameter per cached key, so it runs when the cache holds at most
    [SQLITE_MAX_VARIABLE_NUMBER] keys and fails above that. *)
Lemma len_returns d :
  wf d → is_open d →
  OrderedDict.len (_active_object_cache d) ≤ SQLITE_MAX_VARIABLE_NUMBER →
  __len__ d = (Ok (Z.of_nat (size (live_keys d))), d).
Proof.
  intros Hwf [conn Hconn] Hle. unfold __len__. rewrite Hconn.
  rewrite decide_False by lia. do 2 f_equal.
  rewrite size_live_keys by done. unfold iter_keys, OrderedDict.len.
  rewrite length_app. unfold OrderedDict.keys. rewrite length_fmap. lia.
Qed.

Lemma len_raises d :
  is_open d →
  OrderedDict.len (_active_object_cache d) > SQLITE_MAX_VARIABLE_NUMBER →
  __len__ d = (Raise OperationalError, d).
Proof.
  intros [conn Hconn] Hgt. unfold __len__. rewrite Hconn.
  by rewrite decide_True by done.
Qed.

Lemma len_outcome d :
  wf d → is_open d →
  __len__ d =
    (if decide (OrderedDict.len (_active_object_cache d)
                > SQLITE_MAX_VARIABLE_NUMBER)
     then Raise OperationalError
     else Ok (Z.of_nat (size (live_keys d))), d).
Proof.
  intros Hwf Hopen. case_decide.
  - by apply len_raises.
  - apply len_returns; [done..|lia].
Qed.

(** C5, with the bound it needs.  After any sequence of calls on a new
    collection, [__len__] returns the number of rows whose key is not cached
    plus the size of the cache as long as the cache holds at most
    [SQLITE_MAX_VARIABLE_NUMBER] keys, and raises [OperationalError] when it
    holds more; a collection built with
    [0 <= cache_max_size <= SQLITE_MAX_VARIABLE_NUMBER] never holds more.
    The number returned is the number of distinct keys present in the cache
    or in the table, and those keys are the ones the [set] and [delete]
    calls of the sequence leave in a plain dictionary. *)
Theorem length_counts_live_keys (d0 : FileBackedDict.t V B) (ops : list (Op V)) :
  fresh d0 →
  let d := run ops d0 in
  let cached := OrderedDict.len (_active_object_cache d) in
  let n :=
    Z.of_nat (length (filter
       (λ key, key ∉ OrderedDict.keys (_active_object_cache d)) (select_keys d)))
    + cached in
  (cached ≤ SQLITE_MAX_VARIABLE_NUMBER → __len__ d = (Ok n, d)) ∧
  (cached > SQLITE_MAX_VARIABLE_NUMBER →
   __len__ d = (Raise OperationalError, d)) ∧
  (0 ≤ cache_max_size d0 ≤ SQLITE_MAX_VARIABLE_NUMBER →
   1 ≤ cache_eviction_batch_size d0 →
   cached ≤ SQLITE_MAX_VARIABLE_NUMBER) ∧
  n = Z.of_nat (size (live_keys d)) ∧
  live_keys d = model_keys ops ∅.
Proof.
  intros Hfresh d cached n.
  assert (reachable d) as Hreach by (by exists d0, ops).
  pose proof (reachable_wf d Hreach) as Hwf.
  pose proof (reachable_is_open d Hreach) as Hopen.
  assert (n = Z.of_nat (size (live_keys d))) as Hn.
  { rewrite size_live_keys by done. unfold n, cached, iter_keys, OrderedDict.len.
    rewrite length_app. unfold OrderedDict.keys. rewrite length_fmap. lia. }
  split; [|split; [|split; [|split]]].
  - intros Hle. rewrite Hn. by apply len_returns.
  - intros Hgt. by apply len_raises.
  - intros [Hmin Hmax] Hbatch.
    assert (bounded d0) as Hbd0.
    { destruct Hfresh as (_ & Hc & _). unfold bounded. rewrite Hc.
      unfold OrderedDict.len. simpl. lia. }
    assert (bounded d) as Hbd by (by apply run_bounded).
    destruct (run_config ops d0) as [Hcm _]. fold d in Hcm.
    unfold bounded in Hbd. unfold cached. lia.
  - done.
  - unfold d. destruct Hfresh as (Hopen0 & Hc & Htb).
    rewrite run_live_keys by done. f_equal.
    unfold live_keys. rewrite Hc, Htb. simpl. set_solver.
Qed.

End iterate_length.

(** ** The value of a key between two writes *)

Section value_of_key.
Context {V B : Type} {build : SqliteBuild}.
Import FileBackedDict.
Implicit Types (d : FileBackedDict.t V B) (k key : string) (v value : V).
Implicit Types (c : OrderedDict.t V) (tb : gmap string (Row B)).

(** The table has a row for [key] whose value column is [value] serialized. *)
Definition stored_in (ser : V → B) key value tb : Prop :=
  ∃ row, tb !! key = Some row ∧ row_value row = ser value.

(** [value] is what the collection has for [key]: the cache says so, or the
    cache has no entry for [key] and the table stores [value]. *)
Definition holds_in (ser : V → B) key value c tb : Prop :=
  OrderedDict.getitem key c = Some value ∨
  (key ∉ OrderedDict.keys c) ∧ stored_in ser key value tb.

Definition holds key value d : Prop :=
  holds_in (serializer d) key value (_active_object_cache d) (table d).

Lemma getitem_drop_or_take n key value c :
  OrderedDict.wf c →
  OrderedDict.getitem key c = Some value →
  OrderedDict.getitem key (drop n c) = Some value ∨
  (key ∉ OrderedDict.keys (drop n c)) ∧ (key, value) ∈ take n c.
Proof.
  intros Hwf Hget.
  destruct (decide (key ∈ OrderedDict.keys (drop n c))) as [Hin|Hnin].
  - left. by rewrite od_getitem_drop.
  - right. split; [done|].
    apply od_getitem_elem_of in Hget. rewrite <- (take_drop n c) in Hget.
    apply elem_of_app in Hget as [?|Hdrop]; [done|].
    exfalso. apply Hnin. apply list_elem_of_fmap. by exists (key, value).
Qed.

(** Pruning keeps the value of every key: an entry either stays in the
    cache or is written to the table. *)
Lemma prune_holds_in n key value d c tb :
  OrderedDict.wf c →
  holds_in (serializer d) key value c tb →
  holds_in (serializer d) key value (drop n c)
           (write_rows tb (rows_of d (take n c))).
Proof.
  intros Hwf [Hget|[Hnin Hst]].
  - destruct (getitem_drop_or_take n key value c Hwf Hget) as [?|[Hnin Hin]];
      [by left|].
    right. split; [done|]. exists (row_of d value). split; [|done].
    apply write_rows_lookup_in.
    + rewrite rows_of_keys. rewrite <- (take_drop n c) in Hwf.
      unfold OrderedDict.wf, OrderedDict.keys in Hwf.
      rewrite fmap_app in Hwf. by apply NoDup_app in Hwf as (? & _ & _).
    + unfold rows_of. apply list_elem_of_fmap. by exists (key, value).
  - right. split.
    + intros Hin. apply Hnin. apply (od_keys_take_drop n). by right.
    + destruct Hst as (row & Hrow & Hval). exists row. split; [|done].
      rewrite write_rows_lookup_notin; [done|]. rewrite rows_of_keys.
      intros Hin. apply Hnin. apply (od_keys_take_drop n). by left.
Qed.

Lemma added_holds_same key value d :
  wf d →
  holds_in (serializer d) key value
           (cache_added key value d) (table_added key value d).
Proof.
  intros Hwf. unfold cache_added, table_added.
  apply prune_holds_in; [by apply od_wf_setitem|].
  left. rewrite od_getitem_setitem. by rewrite decide_True.
Qed.

Lemma added_holds_other k v key value d :
  wf d → k ≠ key →
  holds key value d →
  holds_in (serializer d) key value (cache_added k v d) (table_added k v d).
Proof.
  intros Hwf Hne Hh. unfold cache_added, table_added.
  apply prune_holds_in; [by apply od_wf_setitem|].
  destruct Hh as [Hget|[Hnin Hst]].
  - left. rewrite od_getitem_setitem. by rewrite decide_False.
  - right. split; [|done]. rewrite od_elem_of_keys_setitem.
    intros [?|?]; [by subst | done].
Qed.

Lemma step_holds (op : Op V) key value d :
  wf d → is_open d →
  deserializer d (serializer d value) = value →
  ¬ writes key op →
  holds key value d → holds key value (step op d).
Proof.
  intros Hwf Hopen Hinv Hw Hh. unfold holds.
  rewrite step_serializer, step_cache, step_table by done.
  destruct Hopen as [conn Hconn].
  destruct op as [k|k v|k| | |]; simpl in *.
  - destruct (OrderedDict.contains k _) eqn:Hc.
    + destruct Hh as [Hget|[Hnin Hst]].
      * left. by rewrite od_getitem_move_to_end.
      * right. by rewrite od_elem_of_keys_move_to_end.
    + rewrite Hconn. destruct (table d !! k) as [result|] eqn:Hrow; [|done].
      destruct (decide (k = key)) as [->|Hne]; [|by apply added_holds_other].
      apply od_contains_false in Hc.
      destruct Hh as [Hget|[_ (row & Hrow' & Hval)]].
      * exfalso. apply Hc. apply od_getitem_is_Some. eauto.
      * assert (result = row) as -> by congruence.
        rewrite Hval, Hinv. by apply added_holds_same.
  - by apply added_holds_other.
  - assert (k ≠ key) as Hne by done.
    destruct Hh as [Hget|[Hnin (row & Hrow & Hval)]].
    + left. destruct (OrderedDict.contains k _); [|done].
      rewrite od_getitem_delitem. by rewrite decide_False.
    + right. split.
      * destruct (OrderedDict.contains k _); [|done].
        rewrite od_elem_of_keys_delitem. by intros [_ ?].
      * exists row. by rewrite lookup_delete_ne.
  - pose proof (prune_holds_in (length (_active_object_cache d)) key value d
                  (_active_object_cache d) (table d) Hwf Hh) as Hp.
    by rewrite firstn_all, drop_all in Hp.
  - done.
  - done.
Qed.

Lemma run_holds (ops : list (Op V)) key value d :
  wf d → is_open d →
  deserializer d (serializer d value) = value →
  Forall (λ op, ¬ writes key op) ops →
  holds key value d → holds key value (run ops d).
Proof.
  revert d. induction ops as [|op ops IH]; intros d Hwf Hopen Hinv Hops Hh;
    simpl; [done|].
  apply Forall_cons in Hops as [Hop Hops].
  apply IH; [by apply step_wf | by apply step_is_open | | done |].
  - by rewrite step_deserializer, step_serializer.
  - by apply step_holds.
Qed.

(** While [key] stays in the cache, calls that do not write it leave its
    cached value alone. *)
Lemma step_cached_value (op : Op V) key value d :
  wf d →
  ¬ writes key op →
  OrderedDict.getitem key (_active_object_cache d) = Some value →
  key ∈ OrderedDict.keys (_active_object_cache (step op d)) →
  OrderedDict.getitem key (_active_object_cache (step op d)) = Some value.
Proof.
  intros Hwf Hw Hget. rewrite step_cache.
  assert (∀ k v, k ≠ key →
            key ∈ OrderedDict.keys (cache_added k v d) →
            OrderedDict.getitem key (cache_added k v d) = Some value) as Hadd.
  { intros k v Hne Hin. unfold cache_added in *.
    rewrite od_getitem_drop; [|by apply od_wf_setitem|done].
    rewrite od_getitem_setitem. by rewrite decide_False. }
  destruct op as [k|k v|k| | |]; simpl in *.
  - destruct (OrderedDict.contains k _) eqn:Hc.
    + intros _. by rewrite od_getitem_move_to_end.
    + destruct (_conn d); [|done]. destruct (table d !! k); [|done].
      apply Hadd. intros ->. apply od_contains_false in Hc. apply Hc.
      apply od_getitem_is_Some. eauto.
  - by apply Hadd.
  - intros _. destruct (OrderedDict.contains k _); [|done].
    rewrite od_getitem_delitem. rewrite decide_False; [done|]. by intros ->.
  - by intros ?%elem_of_nil.
  - done.
  - done.
Qed.

Lemma run_cached_value (ops : list (Op V)) key value d :
  wf d →
  Forall (λ op, ¬ writes key op) ops →
  OrderedDict.getitem key (_active_object_cache d) = Some value →
  cached_throughout key ops d →
  OrderedDict.getitem key (_active_object_cache (run ops d)) = Some value.
Proof.
  revert d. induction ops as [|op ops IH]; intros d Hwf Hops Hget Hct;
    simpl; [done|].
  apply Forall_cons in Hops as [Hop Hops]. destruct Hct as [_ Hct].
  apply IH; [by apply step_wf | done | | done].
  apply step_cached_value; [done..|]. by destruct ops; destruct Hct.
Qed.

(** C1. After [set(key, value)], and for as long as [key] stays in the
    cache while other calls go by that neither set nor delete [key],
    [get(key)] returns [value], whatever row the table holds for [key]. *)
Theorem cache_overrides_store (d : FileBackedDict.t V B) (key : string)
    (value : V) (ops : list (Op V)) :
  wf d →
  Forall (λ op, ¬ writes key op) ops →
  let d1 := (__setitem__ key value d).2 in
  cached_throughout key ops d1 →
  (__getitem__ key (run ops d1)).1 = Ok value.
Proof.
  intros Hwf Hops d1 Hct.
  assert (wf d1) as Hwf1 by apply (step_wf (OpSet key value) d Hwf).
  assert (OrderedDict.getitem key (_active_object_cache d1) = Some value) as Hget.
  { assert (key ∈ OrderedDict.keys (_active_object_cache d1)) as Hin
      by (by destruct ops; destruct Hct).
    unfold d1 in *.
    change ((__setitem__ key value d).2) with (step (OpSet key value) d) in *.
    rewrite step_cache in *. simpl in *. unfold cache_added in *.
    rewrite od_getitem_drop; [|by apply od_wf_setitem|done].
    rewrite od_getitem_setitem. by rewrite decide_True. }
  by rewrite (getitem_cached key value)
    by (by apply run_cached_value).
Qed.

(** C2. When the deserializer undoes the serializer on [value]: after
    [set(key, value)] on an open collection and any further calls that
    neither set nor delete [key], once [key] has left the cache the table
    holds [value] serialized under [key] and [get(key)] returns [value]. *)
Theorem eviction_preserves_value (d : FileBackedDict.t V B) (key : string)
    (value : V) (ops : list (Op V)) :
  wf d →
  is_open d →
  deserializer d (serializer d value) = value →
  Forall (λ op, ¬ writes key op) ops →
  let d2 := run ops (__setitem__ key value d).2 in
  key ∉ OrderedDict.keys (_active_object_cache d2) →
  stored_in (serializer d) key value (table d2) ∧
  (__getitem__ key d2).1 = Ok value.
Proof.
  intros Hwf Hopen Hinv Hops d2 Hnin.
  set (d1 := (__setitem__ key value d).2) in *.
  assert (d1 = step (OpSet key value) d) as Hd1 by done.
  assert (wf d1) as Hwf1 by (rewrite Hd1; by apply step_wf).
  assert (is_open d1) as Hopen1 by (rewrite Hd1; by apply step_is_open).
  assert (serializer d1 = serializer d) as Hser
    by (rewrite Hd1; apply step_serializer).
  assert (deserializer d1 = deserializer d) as Hdes
    by (rewrite Hd1; apply step_deserializer).
  assert (holds key value d1) as Hh1.
  { unfold holds. rewrite Hser, Hd1, step_cache, step_table by done.
    by apply added_holds_same. }
  assert (holds key value d2) as Hh2.
  { apply run_holds; [done|done| |done|done]. by rewrite Hser, Hdes. }
  assert (serializer d2 = serializer d ∧ deserializer d2 = deserializer d)
    as [Hser2 Hdes2].
  { unfold d2. clear -Hser Hdes. rewrite <- Hser, <- Hdes. clear Hser Hdes.
    generalize d1. induction ops as [|op ops IH]; intros d'; simpl; [done|].
    destruct (IH (step op d')) as [-> ->].
    by rewrite step_serializer, step_deserializer. }
  destruct Hh2 as [Hget|[_ Hst]].
  { exfalso. apply Hnin. apply od_getitem_is_Some. eauto. }
  rewrite Hser2 in Hst. split; [done|].
  destruct Hst as (row & Hrow & Hval).
  rewrite (getitem_stored key row); [|by apply run_is_open|done|done].
  simpl. by rewrite Hdes2, Hval, Hinv.
Qed.

End value_of_key.

(** ** Recency order of the cache *)

Section recency.
Context {V B : Type} {build : SqliteBuild}.
Import FileBackedDict.
Implicit Types (d : FileBackedDict.t V B) (k key : string) (v value : V).

Lemma last_drop_lt {A} n (l : list A) :
  (n < length l)%nat → last (drop n l) = last l.
Proof.
  intros Hn. rewrite !last_lookup, lookup_drop, length_drop. f_equal. lia.
Qed.

Lemma cache_added_new_key key value d :
  key ∉ OrderedDict.keys (_active_object_cache d) →
  key ∈ OrderedDict.keys (cache_added key value d) →
  last (cache_added key value d) = Some (key, value).
Proof.
  intros Hnew Hin. unfold cache_added in *.
  set (c1 := OrderedDict.setitem key value (_active_object_cache d)) in *.
  assert (last c1 = Some (key, value)) as Hlast.
  { unfold c1, OrderedDict.setitem.
    rewrite (proj2 (od_contains_false key _)) by done. apply last_snoc. }
  destruct (decide (evict_count d c1 < length c1)%nat) as [Hlt|Hge].
  - by rewrite last_drop_lt.
  - rewrite drop_ge in Hin by lia. by apply elem_of_nil in Hin.
Qed.

Lemma cache_added_keeps_new_key key value d :
  key ∉ OrderedDict.keys (_active_object_cache d) →
  cache_eviction_batch_size d ≤ cache_max_size d →
  key ∈ OrderedDict.keys (cache_added key value d).
Proof.
  intros Hnew Hcfg. unfold cache_added.
  set (c1 := OrderedDict.setitem key value (_active_object_cache d)).
  assert (last c1 = Some (key, value)) as Hlast.
  { unfold c1, OrderedDict.setitem.
    rewrite (proj2 (od_contains_false key _)) by done. apply last_snoc. }
  assert (evict_count d c1 < length c1)%nat as Hlt.
  { assert (0 < length c1)%nat
      by (destruct c1; [done | simpl; lia]).
    unfold evict_count, OrderedDict.len. case_decide; lia. }
  rewrite <- (last_drop_lt _ _ Hlt) in Hlast.
  apply last_Some in Hlast as [l' Hl']. unfold OrderedDict.keys.
  rewrite Hl', fmap_app, elem_of_app. right. apply list_elem_of_here.
Qed.

(** C3, as the code has it.  A key that was not in the cache and that
    [set] leaves in the cache is the newest cache entry, and [set] leaves it
    there whenever [cache_eviction_batch_size <= cache_max_size]; such a key
    goes only when an eviction empties the cache.  A [get] that finds its
    key in the cache returns the cached value and makes the key the newest
    entry.  Pruning [n] entries of an open collection removes the [n] oldest
    entries and writes them to the table in that order. *)
Theorem recency_order (d : FileBackedDict.t V B) (key : string) (value : V) :
  wf d →
  (key ∉ OrderedDict.keys (_active_object_cache d) →
   let d1 := (__setitem__ key value d).2 in
   (cache_eviction_batch_size d ≤ cache_max_size d →
    key ∈ OrderedDict.keys (_active_object_cache d1)) ∧
   (key ∈ OrderedDict.keys (_active_object_cache d1) →
    last (_active_object_cache d1) = Some (key, value) ∧
    ∀ n, (n < length (_active_object_cache d1))%nat →
         key ∈ OrderedDict.keys
                 (_active_object_cache (_prune_cache (Z.of_nat n) d1).2))) ∧
  (∀ v, OrderedDict.getitem key (_active_object_cache d) = Some v →
        (__getitem__ key d).1 = Ok v ∧
        last (_active_object_cache (__getitem__ key d).2) = Some (key, v)) ∧
  (∀ n, is_open d → (n ≤ length (_active_object_cache d))%nat →
        (_prune_cache (Z.of_nat n) d).1 = Ok () ∧
        _active_object_cache (_prune_cache (Z.of_nat n) d).2 =
          drop n (_active_object_cache d) ∧
        table (_prune_cache (Z.of_nat n) d).2 =
          write_rows (table d) (rows_of d (take n (_active_object_cache d)))).
Proof.
  intros Hwf. split_and!.
  - intros Hnew d1.
    assert (_active_object_cache d1 = cache_added key value d) as Hd1
      by apply (step_cache (OpSet key value) d).
    rewrite Hd1. split; [by apply cache_added_keeps_new_key|].
    intros Hin. pose proof (cache_added_new_key key value d Hnew Hin) as Hlast.
    split; [done|]. intros n Hn.
    destruct (prune_cache_state (Z.of_nat n) d1) as [tb ->]. simpl.
    rewrite Nat2Z.id, Hd1. rewrite <- (last_drop_lt n) in Hlast by done.
    apply last_Some in Hlast as [l' Hl']. unfold OrderedDict.keys.
    rewrite Hl', fmap_app, elem_of_app. right. apply list_elem_of_here.
  - intros v Hget. rewrite (getitem_cached key v) by done. simpl.
    split; [done | by apply od_last_move_to_end].
  - intros n Hopen Hn.
    rewrite prune_cache_open by (rewrite ?Nat2Z.id; done).
    simpl. by rewrite Nat2Z.id.
Qed.

End recency.

(** ** Extra columns and queries *)

Section extra_columns.
Context {V B : Type} {build : SqliteBuild} `{EqDecision B}.
Import FileBackedDict.
Implicit Types (d : FileBackedDict.t V B) (k key : string) (v value : V).

Lemma elem_of_select_where tablename column (x : B) key
    (db : gmap string (gmap string (Row B))) tb :
  db !! tablename = Some tb →
  key ∈ select_where tablename column x db ↔
  ∃ row, tb !! key = Some row ∧ (column, x) ∈ row_extra row.
Proof.
  intros Hdb. unfold select_where. rewrite Hdb, list_elem_of_fmap. split.
  - intros ([k row] & -> & [Hx Hin]%list_elem_of_filter).
    apply elem_of_map_to_list in Hin. eauto.
  - intros (row & Hrow & Hx). exists (key, row). split; [done|].
    apply list_elem_of_filter. split; [done|]. by apply elem_of_map_to_list.
Qed.

Lemma database_own_table d refs : database d refs !! tablename d = Some (table d).
Proof. unfold database. apply lookup_insert_eq. Qed.

Lemma row_of_extra d value column (f : V → B) :
  (column, f) ∈ extra_columns d → (column, f value) ∈ row_extra (row_of d value).
Proof.
  intros Hin. unfold row_of. simpl. apply list_elem_of_fmap.
  by exists (column, f).
Qed.

Lemma flush_open d :
  is_open d →
  flush d =
    (Ok (),
     with_table (write_rows (table d) (rows_of d (_active_object_cache d)))
                (with_cache [] d)).
Proof.
  intros Hopen. unfold flush.
  rewrite prune_cache_open; [|done|unfold OrderedDict.len; lia].
  unfold OrderedDict.len. by rewrite Nat2Z.id, firstn_all, drop_all.
Qed.

(** C6, as the code has it.  Take an open collection with an extra column
    [column], computed by [f].  After [set(key, value)] leaves [key] in the
    cache, the table holds for [key] the row it held before, so when it held
    none a statement run on the connection as it stands does not find [key]
    by its extra column; after [flush] it does; and [sql_query], which
    flushes before it runs its statement, finds it as well. *)
Theorem extra_column_visible_once_flushed (d : FileBackedDict.t V B)
    (key : string) (value : V) (column : string) (f : V → B) :
  wf d →
  is_open d →
  (column, f) ∈ extra_columns d →
  let d1 := (__setitem__ key value d).2 in
  key ∈ OrderedDict.keys (_active_object_cache d1) →
  let query := select_where (tablename d) column (f value) in
  table d1 !! key = table d !! key ∧
  (table d !! key = None →
   ∃ rows, execute query [] d1 = (Ok rows, d1) ∧ key ∉ rows) ∧
  (∃ rows d2, flush d1 = (Ok (), d2) ∧
              execute query [] d2 = (Ok rows, d2) ∧ key ∈ rows) ∧
  (∃ rows d2, sql_query query None d1 = (Ok rows, d2, []) ∧ key ∈ rows).
Proof.
  intros Hwf Hopen Hcol d1 Hin query.
  assert (d1 = step (OpSet key value) d) as Hd1 by done.
  assert (is_open d1) as Hopen1 by (rewrite Hd1; by apply step_is_open).
  assert (wf d1) as Hwf1 by (rewrite Hd1; by apply step_wf).
  pose proof Hopen1 as [conn Hconn].
  assert (∃ tb c, d1 = with_table tb (with_cache c d)) as (tb & c & Hshape).
  { destruct (step_state (OpSet key value) d) as (c & tb & Hst).
    exists tb, c. by rewrite Hd1. }
  assert (tablename d1 = tablename d) as Htn by (by rewrite Hshape).
  assert (extra_columns d1 = extra_columns d) as Hec by (by rewrite Hshape).
  assert (table d1 !! key = table d !! key) as Hrow1.
  { rewrite Hd1, step_table by done. simpl. unfold table_added.
    rewrite write_rows_lookup_notin; [done|]. rewrite rows_of_keys.
    intros Htake. rewrite Hd1, step_cache in Hin. simpl in Hin.
    unfold cache_added in Hin.
    eapply od_take_drop_disjoint; [|exact Htake|exact Hin].
    by apply od_wf_setitem. }
  assert (OrderedDict.getitem key (_active_object_cache d1) = Some value)
    as Hget.
  { rewrite Hd1, step_cache in *. simpl in *. unfold cache_added in *.
    rewrite od_getitem_drop; [|by apply od_wf_setitem|done].
    rewrite od_getitem_setitem. by rewrite decide_True. }
  set (d2 := with_table (write_rows (table d1) (rows_of d1 (_active_object_cache d1)))
                        (with_cache [] d1)).
  assert (flush d1 = (Ok (), d2)) as Hflush by (by apply flush_open).
  assert (∃ rows, execute query [] d2 = (Ok rows, d2) ∧ key ∈ rows) as Hafter.
  { unfold execute. change (_conn d2) with (_conn d1). rewrite Hconn.
    eexists. split; [done|]. unfold query.
    rewrite <- Htn. change (tablename d1) with (tablename d2).
    rewrite (elem_of_select_where _ _ _ _ _ (table d2))
      by apply (database_own_table d2).
    exists (row_of d1 value). split.
    - unfold d2. simpl. apply write_rows_lookup_in.
      + by rewrite rows_of_keys.
      + unfold rows_of. apply list_elem_of_fmap. exists (key, value).
        split; [done|]. by apply od_getitem_elem_of.
    - apply row_of_extra. by rewrite Hec. }
  split_and!.
  - done.
  - intros Hrow. unfold execute. rewrite Hconn. eexists. split; [done|].
    unfold query. rewrite <- Htn.
    rewrite (elem_of_select_where _ _ _ _ _ (table d1))
      by apply database_own_table.
    intros (row & Hr & _). congruence.
  - destruct Hafter as (rows & Hex & Hrows). by exists rows, d2.
  - destruct Hafter as (rows & Hex & Hrows). exists rows, d2.
    unfold sql_query. rewrite Hflush. simpl. by rewrite Hex.
Qed.

End extra_columns.

(** ** [FileBackedList]: appending and index bounds *)

Section list_bounds.
Context {V B : Type} {build : SqliteBuild}.
Implicit Types (d : FileBackedDict.t V B) (l : FileBackedList.t V B).
Implicit Types (index : Z) (value x : V).

Lemma post_init_ok d w d' w' :
  FileBackedDict.__post_init__ d w = (Ok (), d', w') →
  FileBackedDict.cache_eviction_batch_size d > 0 ∧
  ∃ conn,
    d' = FileBackedDict.with_table ∅
           (FileBackedDict.with_cache []
              (FileBackedDict.with_conn (Some conn) d)).
Proof.
  unfold FileBackedDict.__post_init__. intros Hinit.
  repeat case_decide; try done.
  destruct (get_connection _ w) as [[conn|e] w1]; [|done].
  destruct (create_names _ _ w1) as [[[]|e] w2]; [|done].
  split; [done|]. exists conn. congruence.
Qed.

Lemma prune_cache_no_IndexError num d :
  (FileBackedDict._prune_cache num d).1 ≠ Raise IndexError.
Proof.
  unfold FileBackedDict._prune_cache, FileBackedDict.bind.
  destruct (decide (Z.to_nat num ≤ length (FileBackedDict._active_object_cache d))%nat).
  - rewrite pop_items_enough by done.
    unfold FileBackedDict.insert_or_replace. simpl.
    by destruct (FileBackedDict._conn d).
  - rewrite pop_items_short by lia. done.
Qed.

Lemma add_to_cache_no_IndexError key value d :
  (FileBackedDict._add_to_cache key value d).1 ≠ Raise IndexError.
Proof.
  unfold FileBackedDict._add_to_cache.
  case_decide; [apply prune_cache_no_IndexError | done].
Qed.

Lemma dict_getitem_no_IndexError key d :
  (FileBackedDict.__getitem__ key d).1 ≠ Raise IndexError.
Proof.
  unfold FileBackedDict.__getitem__.
  destruct (OrderedDict.contains key _).
  - by destruct (OrderedDict.getitem key _).
  - destruct (FileBackedDict._conn d); [|done].
    destruct (FileBackedDict.table d !! key) as [result|]; [|done].
    unfold FileBackedDict.bind.
    pose proof (add_to_cache_no_IndexError key
                  (FileBackedDict.deserializer d (row_value result)) d).
    destruct (FileBackedDict._add_to_cache _ _ d) as [[?|?] ?];
      simpl in *; congruence.
Qed.

Lemma dict_set_get key x d :
  wf d → is_open d →
  key ∈ OrderedDict.keys (cache_added key x d) ∨
    FileBackedDict.deserializer d (FileBackedDict.serializer d x) = x →
  (FileBackedDict.__getitem__ key (FileBackedDict.__setitem__ key x d).2).1
    = Ok x.
Proof.
  intros Hwf Hopen Hcase.
  set (d1 := (FileBackedDict.__setitem__ key x d).2).
  assert (d1 = step (OpSet key x) d) as Hd1 by done.
  assert (is_open d1) as Hopen1 by (rewrite Hd1; by apply step_is_open).
  pose proof (added_holds_same key x d Hwf) as Hh.
  assert (FileBackedDict._active_object_cache d1 = cache_added key x d) as Hc1
    by (rewrite Hd1; exact (step_cache (OpSet key x) d)).
  assert (FileBackedDict.table d1 = table_added key x d) as Ht1
    by (rewrite Hd1; exact (step_table (OpSet key x) d Hopen)).
  assert (FileBackedDict.deserializer d1 = FileBackedDict.deserializer d) as Hdes
    by (rewrite Hd1; apply step_deserializer).
  rewrite <- Hc1, <- Ht1 in Hh. rewrite <- Hc1 in Hcase.
  destruct Hh as [Hget|[Hnin (row & Hrow & Hval)]].
  - by rewrite (getitem_cached key x).
  - destruct Hcase as [?|Hinv]; [done|].
    rewrite (getitem_stored key row) by done. simpl.
    by rewrite Hdes, Hval, Hinv.
Qed.

Lemma list_getitem_IndexError index l :
  (FileBackedList.__getitem__ index l).1 = Raise IndexError ↔
  ¬ (0 ≤ index < FileBackedList._len l).
Proof.
  unfold FileBackedList.__getitem__. case_decide as Hout.
  - simpl. split; [lia | done].
  - pose proof (dict_getitem_no_IndexError (str index) (FileBackedList._dict l)).
    destruct (FileBackedDict.__getitem__ _ _) as [res d']. simpl in *.
    split; [done | lia].
Qed.

Lemma list_getitem_in_range index l :
  0 ≤ index < FileBackedList._len l →
  (FileBackedList.__getitem__ index l).1 =
    (FileBackedDict.__getitem__ (str index) (FileBackedList._dict l)).1.
Proof.
  intros Hin. unfold FileBackedList.__getitem__.
  rewrite decide_False by lia.
  by destruct (FileBackedDict.__getitem__ _ _).
Qed.

Lemma list_setitem_IndexError index value l :
  (FileBackedList.__setitem__ index value l).1 = Raise IndexError ↔
  ¬ (0 ≤ index < FileBackedList._len l).
Proof.
  unfold FileBackedList.__setitem__. case_decide as Hout.
  - simpl. split; [lia | done].
  - pose proof (add_to_cache_no_IndexError (str index) value
                  (FileBackedList._dict l)).
    unfold FileBackedDict.__setitem__.
    destruct (FileBackedDict._add_to_cache _ _ _) as [res d']. simpl in *.
    split; [done | lia].
Qed.

Lemma list_len_unchanged index value l :
  FileBackedList._len (FileBackedList.__getitem__ index l).2
    = FileBackedList._len l ∧
  FileBackedList._len (FileBackedList.__setitem__ index value l).2
    = FileBackedList._len l ∧
  FileBackedList._len (FileBackedList.flush l).2 = FileBackedList._len l.
Proof.
  unfold FileBackedList.__getitem__, FileBackedList.__setitem__,
    FileBackedList.flush.
  split_and!.
  - case_decide; [done|]. by destruct (FileBackedDict.__getitem__ _ _).
  - case_decide; [done|]. by destruct (FileBackedDict.__setitem__ _ _ _).
  - by destruct (FileBackedDict.flush _).
Qed.

Lemma list_append_len value l :
  FileBackedList._len (FileBackedList.append value l).2 =
    match (FileBackedList.append value l).1 with
    | Ok _ => FileBackedList._len l + 1
    | Raise _ => FileBackedList._len l
    end.
Proof.
  unfold FileBackedList.append.
  by destruct (FileBackedDict.__setitem__ _ _ _) as [[?|?] ?].
Qed.

(** C9, as the code has it.  Take a list that [__init__] has just built,
    and suppose its cache keeps at least one entry (the [cache_max_size]
    argument is absent, zero or positive) or the deserializer undoes the
    serializer on [x].  Then [append(x)] succeeds, [get(0)] returns [x], and
    [get(1)] and [get(-1)] raise [IndexError].  For every list, [get] and
    [set] raise [IndexError] exactly at the indices outside [0, length);
    [get], [set] and [flush] keep the length, and [append] adds one to it
    when it succeeds. *)
Theorem append_then_index (filename : Path) (tablename : string)
    (serializer : V → B) (deserializer : B → V)
    (extra_columns : option (list (string * (V → B))))
    (cache_max_size cache_eviction_batch_size : option Z)
    (w w' : World) (l0 : FileBackedList.t V B) (x : V) :
  FileBackedList.__init__ filename tablename serializer deserializer
    extra_columns cache_max_size cache_eviction_batch_size w = (Ok (), l0, w') →
  (∀ n, cache_max_size = Some n → 0 ≤ n) ∨ deserializer (serializer x) = x →
  let l1 := (FileBackedList.append x l0).2 in
  ((FileBackedList.append x l0).1 = Ok () ∧
   (FileBackedList.__getitem__ 0 l1).1 = Ok x ∧
   (FileBackedList.__getitem__ 1 l1).1 = Raise IndexError ∧
   (FileBackedList.__getitem__ (-1) l1).1 = Raise IndexError) ∧
  (∀ l index value,
     ((FileBackedList.__getitem__ index l).1 = Raise IndexError ↔
      ¬ (0 ≤ index < FileBackedList._len l)) ∧
     ((FileBackedList.__setitem__ index value l).1 = Raise IndexError ↔
      ¬ (0 ≤ index < FileBackedList._len l))) ∧
  (∀ l index value,
     FileBackedList._len (FileBackedList.__getitem__ index l).2
       = FileBackedList._len l ∧
     FileBackedList._len (FileBackedList.__setitem__ index value l).2
       = FileBackedList._len l ∧
     FileBackedList._len (FileBackedList.flush l).2 = FileBackedList._len l ∧
     FileBackedList._len (FileBackedList.append value l).2 =
       match (FileBackedList.append value l).1 with
       | Ok _ => FileBackedList._len l + 1
       | Raise _ => FileBackedList._len l
       end).
Proof.
  intros Hinit Hcfg l1. split; [|split].
  - unfold FileBackedList.__init__ in Hinit.
    destruct (FileBackedDict.__post_init__ _ w) as [[res d0] w0] eqn:Hpost.
    injection Hinit as -> <- ->.
    apply post_init_ok in Hpost as [Hbatch [conn ->]].
    set (d0 := FileBackedDict.with_table _ _) in *.
    assert (is_open d0) as Hopen by (by exists conn).
    assert (fresh d0) as Hfresh by (by split).
    assert (FileBackedList.append x (FileBackedList.mk 0 d0) =
            (Ok (), FileBackedList.mk 1
                      (FileBackedDict.__setitem__ (str 0) x d0).2)) as Happ.
    { unfold FileBackedList.append, FileBackedDict.__setitem__. simpl.
      by rewrite add_to_cache_open. }
    unfold l1. rewrite Happ.
    split_and!; [done| |by apply list_getitem_IndexError; simpl; lia
                      |by apply list_getitem_IndexError; simpl; lia].
    rewrite list_getitem_in_range by (simpl; lia).
    { apply dict_set_get; [by apply fresh_wf|done|].
      destruct Hcfg as [Hcfg|Hinv]; [left|by right].
      unfold cache_added, evict_count, OrderedDict.len. simpl.
      rewrite decide_False; [apply list_elem_of_here|].
      unfold or_default, _DEFAULT_MEMORY_CACHE_MAX_SIZE.
      destruct cache_max_size as [n|]; [|lia].
      specialize (Hcfg n eq_refl). case_decide; lia. }
  - intros l index value. split.
    + apply list_getitem_IndexError.
    + apply list_setitem_IndexError.
  - intros l index value.
    destruct (list_len_unchanged index value l) as (? & ? & ?).
    split_and!; [done..|]. apply list_append_len.
Qed.

End list_bounds.

(** ** The connection registry *)

(** What the registry promises on its own: the two dictionaries have the
    same keys, every count is at least one, and the open handles are exactly
    the registered ones, one per path. *)
Definition world_inv (w : World) : Prop :=
  dom (_sqlite_connection_cache w) = dom (_ref_count w) ∧
  (∀ p n, _ref_count w !! p = Some n → 1 ≤ n) ∧
  (∀ p conn, _sqlite_connection_cache w !! p = Some conn →
             conn ∈ open_handles w) ∧
  (∀ conn, conn ∈ open_handles w →
           (conn < next_handle w)%nat ∧
           ∃ p, _sqlite_connection_cache w !! p = Some conn) ∧
  (∀ p1 p2 conn, _sqlite_connection_cache w !! p1 = Some conn →
                 _sqlite_connection_cache w !! p2 = Some conn → p1 = p2).

(** Two worlds with the same registry and the same handles. *)
Definition same_registry (w w' : World) : Prop :=
  _ref_count w' = _ref_count w ∧
  _sqlite_connection_cache w' = _sqlite_connection_cache w ∧
  open_handles w' = open_handles w ∧
  next_handle w' = next_handle w.

Section registry_world.
Implicit Types (w : World) (p filename : Path) (conn : Connection).

Lemma empty_world_inv : world_inv empty_world.
Proof.
  unfold world_inv, empty_world. simpl. split_and!.
  - by rewrite !dom_empty_L.
  - by intros p n ?%lookup_empty_Some.
  - by intros p conn ?%lookup_empty_Some.
  - by intros conn ?%not_elem_of_empty.
  - by intros p1 p2 conn ?%lookup_empty_Some.
Qed.

Lemma same_registry_inv w w' : same_registry w w' → world_inv w → world_inv w'.
Proof.
  intros (Hrc & Hcc & Hop & Hnx). unfold world_inv.
  by rewrite Hrc, Hcc, Hop, Hnx.
Qed.

Lemma create_name_same_registry filename name w :
  same_registry w (create_name filename name w).2.
Proof. unfold create_name. by case_decide. Qed.

Lemma create_names_same_registry filename names w :
  same_registry w (create_names filename names w).2.
Proof.
  revert w. induction names as [|name names IH]; intros w; simpl; [done|].
  pose proof (create_name_same_registry filename name w) as Hone.
  destruct (create_name filename name w) as [[[]|e] w1]; simpl in *; [|done].
  destruct (IH w1) as (H1 & H2 & H3 & H4).
  destruct Hone as (G1 & G2 & G3 & G4).
  unfold same_registry. by rewrite H1, H2, H3, H4.
Qed.

(** [get_connection] on a path the registry does not know. *)
Lemma get_connection_new filename w :
  _ref_count w !! filename = None →
  get_connection filename w =
    (Ok (next_handle w),
     mkWorld (<[filename := 1]> (_ref_count w))
             (<[filename := next_handle w]> (_sqlite_connection_cache w))
             ({[next_handle w]} ∪ open_handles w)
             (S (next_handle w))
             (schema w)).
Proof.
  intros Hnone. unfold get_connection.
  rewrite decide_False by (by apply not_elem_of_dom). simpl.
  rewrite lookup_insert_eq. rewrite alter_insert_eq. done.
Qed.

(** [get_connection] on a registered path. *)
Lemma get_connection_known filename n conn w :
  _ref_count w !! filename = Some n →
  _sqlite_connection_cache w !! filename = Some conn →
  get_connection filename w =
    (Ok conn,
     mkWorld (<[filename := n + 1]> (_ref_count w))
             (_sqlite_connection_cache w) (open_handles w) (next_handle w)
             (schema w)).
Proof.
  intros Hn Hconn. unfold get_connection.
  rewrite decide_True by (apply elem_of_dom; eauto). simpl. rewrite Hconn.
  do 2 f_equal. apply map_eq. intros p.
  destruct (decide (p = filename)) as [->|Hne].
  - by rewrite lookup_alter_eq, lookup_insert_eq, Hn.
  - by rewrite lookup_alter_ne, lookup_insert_ne.
Qed.

(** [drop_connection] by the last holder of a path. *)
Lemma drop_connection_last filename conn w :
  _ref_count w !! filename = Some 1 →
  _sqlite_connection_cache w !! filename = Some conn →
  drop_connection filename w =
    (Ok (),
     mkWorld (delete filename (_ref_count w))
             (delete filename (_sqlite_connection_cache w))
             (open_handles w ∖ {[conn]}) (next_handle w) (schema w)).
Proof.
  intros Hn Hconn. unfold drop_connection. rewrite Hn. simpl.
  rewrite Hconn. by rewrite delete_insert_eq.
Qed.

(** [drop_connection] while other holders remain. *)
Lemma drop_connection_shared filename n w :
  _ref_count w !! filename = Some n → n ≠ 1 →
  drop_connection filename w =
    (Ok (),
     mkWorld (<[filename := n - 1]> (_ref_count w))
             (_sqlite_connection_cache w) (open_handles w) (next_handle w)
             (schema w)).
Proof.
  intros Hn Hne. unfold drop_connection. rewrite Hn.
  by rewrite decide_False by lia.
Qed.

Lemma world_inv_registered filename w :
  world_inv w →
  (_ref_count w !! filename = None ∧
   _sqlite_connection_cache w !! filename = None) ∨
  ∃ n conn, 1 ≤ n ∧ _ref_count w !! filename = Some n ∧
            _sqlite_connection_cache w !! filename = Some conn.
Proof.
  intros (Hdom & Hpos & _).
  destruct (_ref_count w !! filename) as [n|] eqn:Hn.
  - right. assert (filename ∈ dom (_sqlite_connection_cache w)) as Hin
      by (rewrite Hdom; apply elem_of_dom; eauto).
    apply elem_of_dom in Hin as [conn Hconn]. exists n, conn. eauto.
  - left. split; [done|]. apply not_elem_of_dom. rewrite Hdom.
    by apply not_elem_of_dom.
Qed.

Lemma world_inv_get_connection_new filename w :
  world_inv w → _ref_count w !! filename = None →
  world_inv (get_connection filename w).2.
Proof.
  intros Hinv Hnone. rewrite get_connection_new by done.
  destruct (world_inv_registered filename w Hinv)
    as [[_ Hcnone]|(n & c & _ & Hn & _)]; [|congruence].
  destruct Hinv as (Hdom & Hpos & Hopen & Hreg & Hinj).
  unfold world_inv. simpl. split_and!.
  - by rewrite !dom_insert_L, Hdom.
  - intros p n. rewrite lookup_insert. case_decide; [by intros [= <-]|].
    apply Hpos.
  - intros p conn. rewrite lookup_insert. case_decide.
    + intros [= <-]. set_solver.
    + intros Hc. apply Hopen in Hc. set_solver.
  - intros conn [->%elem_of_singleton|Hin]%elem_of_union.
    + split; [lia|]. exists filename. by rewrite lookup_insert_eq.
    + destruct (Hreg conn Hin) as [Hlt [p Hp]]. split; [lia|].
      exists p. rewrite lookup_insert_ne; [done|]. congruence.
  - intros p1 p2 conn. rewrite !lookup_insert.
    repeat case_decide; subst; try done.
    + intros [= <-] Hc. apply Hopen, Hreg in Hc as [? _]. lia.
    + intros Hc [= <-]. apply Hopen, Hreg in Hc as [? _]. lia.
    + apply Hinj.
Qed.

Lemma world_inv_set_count filename m w :
  world_inv w → is_Some (_ref_count w !! filename) → 1 ≤ m →
  world_inv (mkWorld (<[filename := m]> (_ref_count w))
                     (_sqlite_connection_cache w) (open_handles w)
                     (next_handle w) (schema w)).
Proof.
  intros (Hdom & Hpos & Hopen & Hreg & Hinj) Hn Hge.
  unfold world_inv. simpl. split_and!; [|
    |done|done|done].
  - rewrite dom_insert_L, Hdom.
    assert (filename ∈ dom (_ref_count w)) by (by apply elem_of_dom).
    set_solver.
  - intros p k. rewrite lookup_insert. case_decide; [by intros [= <-]|].
    apply Hpos.
Qed.

Lemma world_inv_drop_last filename conn w :
  world_inv w →
  _sqlite_connection_cache w !! filename = Some conn →
  world_inv (mkWorld (delete filename (_ref_count w))
                     (delete filename (_sqlite_connection_cache w))
                     (open_handles w ∖ {[conn]}) (next_handle w) (schema w)).
Proof.
  intros (Hdom & Hpos & Hopen & Hreg & Hinj) Hconn.
  unfold world_inv. simpl. split_and!.
  - by rewrite !dom_delete_L, Hdom.
  - intros p n [_ Hn]%lookup_delete_Some. by apply (Hpos p).
  - intros p c [Hne Hc]%lookup_delete_Some.
    apply elem_of_difference. split; [by apply (Hopen p)|].
    intros ->%elem_of_singleton. apply Hne. by apply (Hinj filename p conn).
  - intros c [Hin Hnc]%elem_of_difference.
    destruct (Hreg c Hin) as [Hlt [p Hp]]. split; [done|].
    exists p. apply lookup_delete_Some. split; [|done].
    intros <-. apply Hnc. apply elem_of_singleton. congruence.
  - intros p1 p2 c [_ H1]%lookup_delete_Some [_ H2]%lookup_delete_Some.
    by apply (Hinj p1 p2 c).
Qed.

End registry_world.

Section registry_calls.
Implicit Types (w : World) (p filename : Path) (conn : Connection).

Lemma get_connection_spec filename w :
  world_inv w →
  ∃ conn w1,
    get_connection filename w = (Ok conn, w1) ∧
    world_inv w1 ∧
    _ref_count w1 =
      <[filename := default 0 (_ref_count w !! filename) + 1]> (_ref_count w) ∧
    _sqlite_connection_cache w1 =
      <[filename := conn]> (_sqlite_connection_cache w) ∧
    (∀ c, _sqlite_connection_cache w !! filename = Some c → c = conn) ∧
    open_handles w ⊆ open_handles w1 ∧
    schema w1 = schema w.
Proof.
  intros Hinv.
  destruct (world_inv_registered filename w Hinv)
    as [[Hnone Hcnone]|(n & c & Hge & Hn & Hc)].
  - eexists _, _. split; [by apply get_connection_new|].
    split.
    { pose proof (world_inv_get_connection_new filename w Hinv Hnone) as H.
      by rewrite get_connection_new in H. }
    simpl. rewrite Hnone. split_and!; try done.
    + intros c. by rewrite Hcnone.
    + set_solver.
  - exists c. eexists. split; [by apply (get_connection_known filename n c)|].
    split; [apply world_inv_set_count; [done|eauto|lia]|].
    simpl. rewrite Hn. split_and!; try done.
    + by rewrite insert_id.
    + intros c'. rewrite Hc. by intros [= ->].
Qed.

Lemma drop_connection_spec filename n w :
  world_inv w →
  _ref_count w !! filename = Some n →
  ∃ conn w1,
    _sqlite_connection_cache w !! filename = Some conn ∧
    drop_connection filename w = (Ok (), w1) ∧
    world_inv w1 ∧
    _ref_count w1 =
      (if decide (n = 1) then delete filename (_ref_count w)
       else <[filename := n - 1]> (_ref_count w)) ∧
    _sqlite_connection_cache w1 =
      (if decide (n = 1) then delete filename (_sqlite_connection_cache w)
       else _sqlite_connection_cache w) ∧
    open_handles w1 =
      (if decide (n = 1) then open_handles w ∖ {[conn]} else open_handles w) ∧
    schema w1 = schema w.
Proof.
  intros Hinv Hn.
  destruct (world_inv_registered filename w Hinv)
    as [[Hnone _]|(n' & c & Hge & Hn' & Hc)]; [congruence|].
  assert (n' = n) as -> by congruence.
  exists c. destruct (decide (n = 1)) as [->|Hne].
  - eexists. split; [done|]. split; [by apply drop_connection_last|].
    split; [by apply world_inv_drop_last|]. done.
  - eexists. split; [done|]. split; [by apply drop_connection_shared|].
    split; [|done].
    apply world_inv_set_count; [done|eauto|lia].
Qed.

End registry_calls.

(** ** Collections sharing the registry *)

Section registry_system.
Context {V B : Type} {build : SqliteBuild}.
Import FileBackedDict.
Implicit Types (d : FileBackedDict.t V B) (w : World) (p : Path).

(** The registry and the collections of a program. *)
Record System : Type := mkSystem {
  world : World;
  objects : list (FileBackedDict.t V B)
}.

Inductive Action : Type :=
  | New (filename : Path) (tablename : string)
        (serializer : V → B) (deserializer : B → V)
        (extra_columns : list (string * (V → B)))
        (cache_max_size cache_eviction_batch_size : Z)
  | Close (i : nat)
  | Call (i : nat) (op : Op V).

(** One action of the program: build a collection (the object exists even
    when [__post_init__] raises), close the [i]-th collection, or call a
    method of the [i]-th collection. *)
Definition act (a : Action) (s : System) : System :=
  match a with
  | New filename tablename serializer deserializer extra_columns
        cache_max_size cache_eviction_batch_size =>
      let '(_, d, w) :=
        __post_init__
          (init filename tablename serializer deserializer extra_columns
                cache_max_size cache_eviction_batch_size) (world s) in
      mkSystem w (objects s ++ [d])
  | Close i =>
      match objects s !! i with
      | Some d =>
          let '(_, d', w) := close d (world s) in
          mkSystem w (<[i := d']> (objects s))
      | None => s
      end
  | Call i op =>
      match objects s !! i with
      | Some d => mkSystem (world s) (<[i := step op d]> (objects s))
      | None => s
      end
  end.

Fixpoint acts (l : list Action) (s : System) : System :=
  match l with
  | [] => s
  | a :: l' => acts l' (act a s)
  end.

Definition empty_system : System := mkSystem empty_world [].

(** [d] holds the connection of path [p]. *)
Definition holder p d : Prop := filename d = p ∧ is_Some (_conn d).

#[local] Instance holder_dec p d : Decision (holder p d).
Proof. unfold holder. apply _. Defined.

(** How many collections hold the connection of [p]. *)
Definition holders p (l : list (FileBackedDict.t V B)) : nat :=
  length (filter (holder p) l).

(** The invariant of the registry: for every path the count is the number
    of collections holding its connection, with no entry when there is
    none, and every holder has the registered handle. *)
Definition registry_inv (s : System) : Prop :=
  world_inv (world s) ∧
  (∀ p, _ref_count (world s) !! p =
        if decide (holders p (objects s) = 0%nat) then None
        else Some (Z.of_nat (holders p (objects s)))) ∧
  (∀ d conn, d ∈ objects s → _conn d = Some conn →
             _sqlite_connection_cache (world s) !! filename d = Some conn).

Definition ind (P : Prop) `{Decision P} : nat := if decide P then 1%nat else 0%nat.

Lemma ind_True (P : Prop) `{Decision P} : P → ind P = 1%nat.
Proof. intros HP. unfold ind. by rewrite decide_True. Qed.

Lemma ind_False (P : Prop) `{Decision P} : ¬ P → ind P = 0%nat.
Proof. intros HP. unfold ind. by rewrite decide_False. Qed.

Lemma holders_app p l1 l2 : holders p (l1 ++ l2) = (holders p l1 + holders p l2)%nat.
Proof. unfold holders. by rewrite filter_app, length_app. Qed.

Lemma holders_cons p d l : holders p (d :: l) = (ind (holder p d) + holders p l)%nat.
Proof.
  unfold holders, ind. rewrite filter_cons. by case_decide.
Qed.

Lemma holders_snoc p d l : holders p (l ++ [d]) = (holders p l + ind (holder p d))%nat.
Proof.
  rewrite holders_app, holders_cons. change (holders p []) with 0%nat. lia.
Qed.

Lemma holders_insert p i d d' l :
  l !! i = Some d →
  (holders p (<[i := d']> l) + ind (holder p d) =
   holders p l + ind (holder p d'))%nat.
Proof.
  intros Hi. pose proof (lookup_lt_Some _ _ _ Hi) as Hlt.
  rewrite insert_take_drop by done.
  rewrite <- (take_drop_middle l i d Hi) at 3.
  rewrite !holders_app, !holders_cons. lia.
Qed.

Lemma holders_pos p d l : d ∈ l → holder p d → (1 ≤ holders p l)%nat.
Proof.
  intros Hin Hh. unfold holders.
  assert (d ∈ filter (holder p) l) as Hf by (by apply list_elem_of_filter).
  destruct (filter (holder p) l); [by apply elem_of_nil in Hf | simpl; lia].
Qed.

Lemma step_filename (op : Op V) d : filename (step op d) = filename d.
Proof. destruct (step_state op d) as (c & tb & ->). done. Qed.

Lemma step_holder (op : Op V) p d : holder p (step op d) ↔ holder p d.
Proof. unfold holder. by rewrite step_filename, step_conn. Qed.

(** What [__post_init__] does to the registry: nothing when an assertion
    fails, one [get_connection] otherwise. *)
Lemma post_init_registry d w :
  world_inv w →
  let r := __post_init__ d w in
  (r.1.2 = d ∧ r.2 = w ∧ r.1.1 = Raise AssertionError) ∨
  (∃ conn w1, get_connection (filename d) w = (Ok conn, w1) ∧
              same_registry w1 r.2 ∧
              _conn r.1.2 = Some conn ∧ filename r.1.2 = filename d).
Proof.
  intros Hinv. unfold __post_init__.
  case_decide; [|by left]. case_decide; [by left|]. case_decide; [by left|].
  right. destruct (get_connection_spec (filename d) w Hinv)
    as (conn & w1 & Hget & _). rewrite Hget. exists conn, w1.
  split; [done|].
  pose proof (create_names_same_registry (filename d)
    (tablename d :: ((λ column_name, tablename d +:+ "_" +:+ column_name)
                       <$> (extra_columns d).*1)) w1) as Hsame.
  destruct (create_names _ _ w1) as [[[]|e] w2]; simpl in *; done.
Qed.

(** What [close] does to an open collection under the invariant. *)
Lemma close_registry d conn n w :
  world_inv w →
  _conn d = Some conn →
  _ref_count w !! filename d = Some n →
  ∃ w1, drop_connection (filename d) w = (Ok (), w1) ∧
        close d w =
          (Ok (), with_cache_max_size 0 (with_conn None (flush d).2), w1).
Proof.
  intros Hinv Hconn Hn.
  destruct (drop_connection_spec (filename d) n w Hinv Hn)
    as (c & w1 & _ & Hdrop & _).
  exists w1. split; [done|]. unfold close. rewrite Hconn.
  rewrite flush_open by (by exists conn). simpl. by rewrite Hdrop.
Qed.

Lemma elem_of_insert_inv {A} (l : list A) i x y :
  y ∈ <[i := x]> l → y = x ∨ y ∈ l.
Proof.
  intros [j Hj]%list_elem_of_lookup.
  apply list_lookup_insert_Some in Hj as [(-> & -> & _)|[_ Hj]]; [by left|].
  right. by apply list_elem_of_lookup_2 in Hj.
Qed.

Lemma registry_inv_count s p :
  registry_inv s →
  default 0 (_ref_count (world s) !! p) = Z.of_nat (holders p (objects s)).
Proof.
  intros (_ & Hcount & _). rewrite Hcount. case_decide; simpl; lia.
Qed.

Lemma act_new_registry_inv s d :
  _conn d = None →
  registry_inv s →
  registry_inv (let '(_, d', w) := __post_init__ d (world s) in
                mkSystem w (objects s ++ [d'])).
Proof.
  intros Hnone Hinv. pose proof Hinv as (Hw & Hcount & Hheld).
  destruct (post_init_registry d (world s) Hw)
    as [(Hd & Hw' & _)|(conn & w1 & Hget & Hsame & Hconn & Hfile)];
    destruct (__post_init__ d (world s)) as [[res d'] w']; simpl in *.
  - subst d' w'. unfold registry_inv. simpl. split_and!; [done| |].
    + intros p. rewrite holders_snoc.
      rewrite ind_False by (intros [_ [c Hc]]; congruence).
      rewrite Nat.add_0_r. apply Hcount.
    + intros d' c [Hin| ->%list_elem_of_singleton]%elem_of_app; [|congruence].
      by apply Hheld.
  - destruct (get_connection_spec (filename d) (world s) Hw)
      as (conn' & w1' & Hget' & Hw1 & Hrc & Hcc & Hsame_conn & _).
    rewrite Hget in Hget'. injection Hget' as <- <-.
    pose proof Hsame as (Hrc' & Hcc' & _).
    unfold registry_inv. simpl. split_and!.
    + by apply (same_registry_inv w1).
    + intros p. rewrite Hrc', Hrc, holders_snoc.
      destruct (decide (p = filename d)) as [->|Hne].
      * rewrite lookup_insert_eq, (registry_inv_count s) by done.
        rewrite ind_True by (split; [done | by exists conn]).
        rewrite decide_False by lia. f_equal. lia.
      * rewrite lookup_insert_ne by done.
        rewrite ind_False by (intros [? _]; congruence).
        rewrite Nat.add_0_r. apply Hcount.
    + intros d'' c Hin Hc. rewrite Hcc', Hcc.
      apply elem_of_app in Hin as [Hin| ->%list_elem_of_singleton].
      * specialize (Hheld d'' c Hin Hc).
        destruct (decide (filename d'' = filename d)) as [Heq|Hne].
        -- rewrite Heq in *. rewrite lookup_insert_eq. f_equal. symmetry.
           by apply Hsame_conn.
        -- by rewrite lookup_insert_ne.
      * rewrite Hfile, lookup_insert_eq. congruence.
Qed.

Lemma act_close_registry_inv s i d :
  objects s !! i = Some d →
  registry_inv s →
  registry_inv (let '(_, d', w) := close d (world s) in
                mkSystem w (<[i := d']> (objects s))).
Proof.
  intros Hi Hinv. pose proof Hinv as (Hw & Hcount & Hheld).
  destruct (_conn d) as [conn|] eqn:Hconn.
  2:{ unfold close. rewrite Hconn. rewrite list_insert_id by done.
      by destruct s. }
  set (p := filename d).
  assert (d ∈ objects s) as Hin by (by apply list_elem_of_lookup_2 in Hi).
  assert (holder p d) as Hholder by (split; [done | by exists conn]).
  pose proof (holders_pos p d (objects s) Hin Hholder) as Hpos.
  assert (_ref_count (world s) !! p = Some (Z.of_nat (holders p (objects s))))
    as Hn by (rewrite Hcount; by rewrite decide_False by lia).
  destruct (close_registry d conn _ (world s) Hw Hconn Hn) as (w1 & Hdrop & ->).
  destruct (drop_connection_spec p _ (world s) Hw Hn)
    as (c & w1' & Hc & Hdrop' & Hw1 & Hrc & Hcc & _).
  fold p in Hdrop. rewrite Hdrop in Hdrop'. injection Hdrop' as <-.
  set (d' := with_cache_max_size 0 (with_conn None (flush d).2)).
  assert (∀ q, ¬ holder q d') as Hclosed by (intros q [_ [? ?]]; done).
  assert (∀ q, (holders q (<[i := d']> (objects s)) + ind (holder q d) =
                holders q (objects s))%nat) as Hh.
  { intros q. rewrite (holders_insert q i d d') by done.
    rewrite (ind_False (holder q d')) by apply Hclosed. lia. }
  unfold registry_inv. simpl. split_and!; [done| |].
  - intros q. specialize (Hh q). rewrite Hrc.
    destruct (decide (q = p)) as [->|Hne].
    + rewrite ind_True in Hh by done.
      case_decide as Hone.
      * rewrite lookup_delete_eq. by rewrite decide_True by lia.
      * rewrite lookup_insert_eq. rewrite decide_False by lia. f_equal. lia.
    + rewrite ind_False in Hh by (intros [? _]; by apply Hne).
      rewrite Nat.add_0_r in Hh. rewrite Hh.
      case_decide; [rewrite lookup_delete_ne by done
                   |rewrite lookup_insert_ne by done]; apply Hcount.
  - intros d'' c' Hin'' Hc''.
    pose proof Hin'' as [->|Hold]%elem_of_insert_inv; [done|].
    specialize (Hheld d'' c' Hold Hc''). rewrite Hcc.
    case_decide as Hone; [|done].
    rewrite lookup_delete_ne; [done|]. intros Heq.
    assert (holder p d'') as Hholder''
      by (split; [done | by exists c']).
    pose proof (holders_pos p d'' _ Hin'' Hholder'').
    specialize (Hh p). rewrite ind_True in Hh by done.
    lia.
Qed.

Lemma act_call_registry_inv s i d (op : Op V) :
  objects s !! i = Some d →
  registry_inv s →
  registry_inv (mkSystem (world s) (<[i := step op d]> (objects s))).
Proof.
  intros Hi (Hw & Hcount & Hheld).
  assert (d ∈ objects s) as Hin by (by apply list_elem_of_lookup_2 in Hi).
  assert (∀ q, holders q (<[i := step op d]> (objects s)) =
               holders q (objects s)) as Hh.
  { intros q. pose proof (holders_insert q i d (step op d) _ Hi) as Hq.
    unfold ind in Hq. pose proof (step_holder op q d).
    repeat case_decide; tauto || lia. }
  unfold registry_inv. simpl. split_and!; [done| |].
  - intros q. rewrite Hh. apply Hcount.
  - intros d'' c [->|Hold]%elem_of_insert_inv; [|by apply Hheld].
    rewrite step_filename, step_conn. by apply Hheld.
Qed.

Lemma act_registry_inv a s : registry_inv s → registry_inv (act a s).
Proof.
  intros Hinv. destruct a as [fn tn ser des ec cms b|i|i op]; simpl.
  - by apply act_new_registry_inv.
  - destruct (objects s !! i) as [d|] eqn:Hi; [|done].
    by apply act_close_registry_inv.
  - destruct (objects s !! i) as [d|] eqn:Hi; [|done].
    by apply act_call_registry_inv.
Qed.

Lemma acts_registry_inv l s : registry_inv s → registry_inv (acts l s).
Proof.
  revert s. induction l as [|a l IH]; intros s Hinv; simpl; [done|].
  by apply IH, act_registry_inv.
Qed.

Lemma empty_system_registry_inv : registry_inv empty_system.
Proof.
  unfold registry_inv, empty_system. simpl. split_and!.
  - apply empty_world_inv.
  - intros p. by rewrite lookup_empty.
  - by intros d conn ?%elem_of_nil.
Qed.

End registry_system.

Section registry_sharing.
Context {V B : Type} {build : SqliteBuild}.
Import FileBackedDict.
Implicit Types (d : FileBackedDict.t V B) (w : World) (p : Path).

(** The names defined in the database file [p]. *)
Definition names_of p w : gset string := default ∅ (schema w !! p).

Lemma create_name_names p name w w' :
  create_name p name w = (Ok (), w') →
  name ∉ names_of p w ∧ names_of p w' = {[name]} ∪ names_of p w.
Proof.
  unfold create_name, names_of. case_decide; [done|].
  intros [= <-]. simpl. by rewrite lookup_insert_eq.
Qed.

Lemma create_names_mono p names w w' :
  create_names p names w = (Ok (), w') → names_of p w ⊆ names_of p w'.
Proof.
  revert w. induction names as [|name names IH]; intros w; simpl.
  - by intros [= <-].
  - destruct (create_name p name w) as [[[]|e] w1] eqn:Hone; [|done].
    intros Hrest. apply create_name_names in Hone as [_ Hone].
    apply IH in Hrest. set_solver.
Qed.

Lemma create_names_head p name names w w' :
  create_names p (name :: names) w = (Ok (), w') →
  name ∉ names_of p w ∧ name ∈ names_of p w'.
Proof.
  simpl. destruct (create_name p name w) as [[[]|e] w1] eqn:Hone; [|done].
  intros Hrest. apply create_name_names in Hone as [Hnew Hone].
  split; [done|]. apply create_names_mono in Hrest. set_solver.
Qed.

(** A successful [__post_init__], step by step. *)
Lemma post_init_steps d w d' w' :
  __post_init__ d w = (Ok (), d', w') →
  ∃ conn w1,
    get_connection (filename d) w = (Ok conn, w1) ∧
    create_names (filename d)
      (tablename d :: ((λ column_name, tablename d +:+ "_" +:+ column_name)
                         <$> (extra_columns d).*1)) w1 = (Ok (), w') ∧
    d' = with_table ∅ (with_cache [] (with_conn (Some conn) d)).
Proof.
  unfold __post_init__. intros Hinit.
  repeat case_decide; try done.
  destruct (get_connection _ w) as [[conn|e] w1]; [|done].
  destruct (create_names _ _ w1) as [[[]|e] w2] eqn:Hnames; [|done].
  exists conn, w1. split; [done|]. split; [congruence | congruence].
Qed.

Lemma run_filename (ops : list (Op V)) d : filename (run ops d) = filename d.
Proof.
  revert d. induction ops as [|op ops IH]; intros d; simpl; [done|].
  by rewrite IH, step_filename.
Qed.

Lemma run_conn (ops : list (Op V)) d : _conn (run ops d) = _conn d.
Proof.
  revert d. induction ops as [|op ops IH]; intros d; simpl; [done|].
  by rewrite IH, step_conn.
Qed.

(** Two collections built one after the other on the same path. *)
Lemma shared_connection w (d_a d_b a b : FileBackedDict.t V B) w1 w2
    (ops_a ops_b : list (Op V)) :
  world_inv w →
  filename d_b = filename d_a →
  __post_init__ d_a w = (Ok (), a, w1) →
  __post_init__ d_b w1 = (Ok (), b, w2) →
  ∃ conn,
    _conn a = Some conn ∧ _conn b = Some conn ∧
    tablename d_a ≠ tablename d_b ∧
    conn ∈ open_handles w2 ∧
    ∃ a' w3,
      close (run ops_a a) w2 = (Ok (), a', w3) ∧
      _conn a' = None ∧ cache_max_size a' = 0 ∧
      _sqlite_connection_cache w3 !! filename d_a = Some conn ∧
      conn ∈ open_handles w3 ∧
      (∃ n, _ref_count w3 !! filename d_a = Some n ∧ 1 ≤ n) ∧
      ∃ b' w4,
        close (run ops_b b) w3 = (Ok (), b', w4) ∧
        _conn b' = None ∧ cache_max_size b' = 0 ∧
        _ref_count w4 !! filename d_a = _ref_count w !! filename d_a ∧
        (_ref_count w !! filename d_a = None →
         _sqlite_connection_cache w4 !! filename d_a = None ∧
         conn ∉ open_handles w4).
Proof.
  intros Hw Hpath Ha Hb. set (p := filename d_a) in *.
  apply post_init_steps in Ha as (ca & wa & Hget_a & Hnames_a & ->).
  apply post_init_steps in Hb as (cb & wb & Hget_b & Hnames_b & ->).
  rewrite Hpath in Hget_b, Hnames_b. fold p in Hget_a, Hnames_a.
  (* the first collection registers or joins the path *)
  destruct (get_connection_spec p w Hw)
    as (ca' & wa' & Hget_a' & Hwa & Hrc_a & Hcc_a & _ & _ & Hsch_a).
  rewrite Hget_a in Hget_a'. injection Hget_a' as <- <-.
  pose proof (create_names_same_registry p
    (tablename d_a :: ((λ column_name, tablename d_a +:+ "_" +:+ column_name)
                         <$> (extra_columns d_a).*1)) wa) as Hsame_a.
  rewrite Hnames_a in Hsame_a. simpl in Hsame_a.
  pose proof (same_registry_inv wa w1 Hsame_a Hwa) as Hw1.
  destruct Hsame_a as (Hrc1 & Hcc1 & Hop1 & _).
  (* the second one finds the path registered *)
  destruct (get_connection_spec p w1 Hw1)
    as (cb' & wb' & Hget_b' & Hwb & Hrc_b & Hcc_b & Hsame_conn & _ & Hsch_b).
  rewrite Hget_b in Hget_b'. injection Hget_b' as <- <-.
  assert (cb = ca) as ->.
  { symmetry. apply Hsame_conn. by rewrite Hcc1, Hcc_a, lookup_insert_eq. }
  pose proof (create_names_same_registry p
    (tablename d_b :: ((λ column_name, tablename d_b +:+ "_" +:+ column_name)
                         <$> (extra_columns d_b).*1)) wb) as Hsame_b.
  rewrite Hnames_b in Hsame_b. simpl in Hsame_b.
  pose proof (same_registry_inv wb w2 Hsame_b Hwb) as Hw2.
  destruct Hsame_b as (Hrc2 & Hcc2 & Hop2 & _).
  set (n0 := default 0 (_ref_count w !! p)) in *.
  assert (0 ≤ n0) as Hn0.
  { unfold n0. destruct (_ref_count w !! p) as [n|] eqn:Hn; simpl; [|lia].
    destruct Hw as (_ & Hpos & _). specialize (Hpos p n Hn). lia. }
  assert (_ref_count w2 !! p = Some (n0 + 1 + 1)) as Hcount2.
  { rewrite Hrc2, Hrc_b, lookup_insert_eq, Hrc1, Hrc_a, lookup_insert_eq. done. }
  assert (_sqlite_connection_cache w2 !! p = Some ca) as Hconn2.
  { by rewrite Hcc2, Hcc_b, lookup_insert_eq. }
  exists ca. split; [done|]. split; [done|]. split.
  { (* the table names differ *)
    apply create_names_head in Hnames_a as [_ Hin].
    apply create_names_head in Hnames_b as [Hnotin _].
    intros Heq. apply Hnotin. unfold names_of in *.
    rewrite Hsch_b. by rewrite <- Heq. }
  split.
  { destruct Hw2 as (_ & _ & Hopen & _). by apply (Hopen p). }
  (* closing the first collection *)
  set (a := with_table ∅ (with_cache [] (with_conn (Some ca) d_a))).
  set (b := with_table ∅ (with_cache [] (with_conn (Some ca) d_b))).
  assert (filename (run ops_a a) = p) as Hfa by (by rewrite run_filename).
  assert (filename (run ops_b b) = p) as Hfb by (by rewrite run_filename).
  assert (_conn (run ops_a a) = Some ca) as Hca by (by rewrite run_conn).
  assert (_conn (run ops_b b) = Some ca) as Hcb by (by rewrite run_conn).
  destruct (close_registry (run ops_a a) ca (n0 + 1 + 1) w2 Hw2 Hca)
    as (w3 & Hdrop3 & Hclose3); [by rewrite Hfa|].
  destruct (drop_connection_spec p (n0 + 1 + 1) w2 Hw2 Hcount2)
    as (c3 & w3' & _ & Hdrop3' & Hw3 & Hrc3 & Hcc3 & Hop3 & _).
  rewrite Hfa in Hdrop3. rewrite Hdrop3 in Hdrop3'. injection Hdrop3' as <-.
  rewrite decide_False in Hrc3 by lia. rewrite decide_False in Hcc3 by lia.
  rewrite decide_False in Hop3 by lia.
  assert (_ref_count w3 !! p = Some (n0 + 1)) as Hcount3.
  { rewrite Hrc3, lookup_insert_eq. f_equal. lia. }
  assert (_sqlite_connection_cache w3 !! p = Some ca) as Hconn3
    by (by rewrite Hcc3).
  eexists _, w3. split; [exact Hclose3|]. split; [done|]. split; [done|].
  split; [done|]. split.
  { destruct Hw3 as (_ & _ & Hopen & _). by apply (Hopen p). }
  split; [exists (n0 + 1); split; [done | lia]|].
  (* closing the second collection *)
  destruct (close_registry (run ops_b b) ca (n0 + 1) w3 Hw3 Hcb)
    as (w4 & Hdrop4 & Hclose4); [by rewrite Hfb|].
  destruct (drop_connection_spec p (n0 + 1) w3 Hw3 Hcount3)
    as (c4 & w4' & Hc4 & Hdrop4' & Hw4 & Hrc4 & Hcc4 & Hop4 & _).
  rewrite Hfb in Hdrop4. rewrite Hdrop4 in Hdrop4'. injection Hdrop4' as <-.
  assert (c4 = ca) as -> by congruence.
  eexists _, w4. split; [exact Hclose4|]. split; [done|]. split; [done|].
  split.
  - rewrite Hrc4. case_decide as Hone.
    + rewrite lookup_delete_eq. unfold n0 in Hone.
      destruct (_ref_count w !! p) as [n|] eqn:Hn; [|done].
      destruct Hw as (_ & Hpos & _). specialize (Hpos p n Hn).
      cbn [from_option id] in Hone. lia.
    + rewrite lookup_insert_eq. unfold n0 in *.
      destruct (_ref_count w !! p) as [n|] eqn:Hn;
        cbn [from_option id] in *; [f_equal; lia | lia].
  - intros Hnone. unfold n0 in *. rewrite Hnone in *.
    cbn [from_option id] in *.
    rewrite decide_True in Hcc4 by lia. rewrite decide_True in Hop4 by lia.
    rewrite Hcc4, Hop4, lookup_delete_eq. split; [done|]. set_solver.
Qed.

(** C8. In every state of a program that builds, uses and closes
    collections, the registry satisfies [registry_inv]: its two
    dictionaries have the same paths, the handles that are open are exactly
    the registered ones with one path each, the count of a path is the
    number of collections holding its connection and is at least one, a
    path nobody holds has no entry, and every holder has the registered
    handle.  Hence two collections built on the same path have different
    table names and the same handle; closing one leaves the handle open and
    registered; closing the other as well restores the count the path had
    before, and when nobody else held the path its entry is gone and the
    handle is closed. *)
Theorem registry_shares_one_connection (l : list (@Action V B)) :
  registry_inv (acts l empty_system) ∧
  ∀ (d_a d_b a b : FileBackedDict.t V B) (w1 w2 : World)
    (ops_a ops_b : list (Op V)),
    let w := world (acts l empty_system) in
    filename d_b = filename d_a →
    __post_init__ d_a w = (Ok (), a, w1) →
    __post_init__ d_b w1 = (Ok (), b, w2) →
    ∃ conn,
      _conn a = Some conn ∧ _conn b = Some conn ∧
      tablename d_a ≠ tablename d_b ∧
      conn ∈ open_handles w2 ∧
      ∃ a' w3,
        close (run ops_a a) w2 = (Ok (), a', w3) ∧
        _conn a' = None ∧ cache_max_size a' = 0 ∧
        _sqlite_connection_cache w3 !! filename d_a = Some conn ∧
        conn ∈ open_handles w3 ∧
        (∃ n, _ref_count w3 !! filename d_a = Some n ∧ 1 ≤ n) ∧
        ∃ b' w4,
          close (run ops_b b) w3 = (Ok (), b', w4) ∧
          _conn b' = None ∧ cache_max_size b' = 0 ∧
          _ref_count w4 !! filename d_a = _ref_count w !! filename d_a ∧
          (_ref_count w !! filename d_a = None →
           _sqlite_connection_cache w4 !! filename d_a = None ∧
           conn ∉ open_handles w4).
Proof.
  assert (registry_inv (acts l (@empty_system V B))) as Hinv
    by apply acts_registry_inv, empty_system_registry_inv.
  split; [done|].
  intros d_a d_b a b w1 w2 ops_a ops_b w Hpath Ha Hb.
  apply (shared_connection w d_a d_b a b w1 w2 ops_a ops_b);
    [by destruct Hinv | done..].
Qed.

End registry_sharing.

(** ** Worked examples

    Collections of integers, stored as they are, with one extra column [x]
    holding twice the value. *)

Module Examples.
Import FileBackedDict.
#[local] Existing Instance sqlite_3_32.

(** [FileBackedDict(filename="db", extra_columns={"x": ...},
    cache_max_size=..., cache_eviction_batch_size=...)] in a new process. *)
Definition new_dict (cache_max_size cache_eviction_batch_size : Z)
  : FileBackedDict.t Z Z :=
  (__post_init__
     (init "db" _DEFAULT_TABLE_NAME (λ v, v) (λ b, b) [("x", λ v, 2 * v)]
           cache_max_size cache_eviction_batch_size)
     empty_world).1.2.

Lemma new_dict_fresh m b : b > 0 → fresh (new_dict m b).
Proof.
  intros Hb. unfold new_dict, __post_init__. simpl.
  rewrite decide_True by done. done.
Qed.

(** A serializer that loses the sign, with the identity as deserializer. *)
Definition new_list_abs (cache_max_size : option Z) : FileBackedList.t Z Z :=
  (FileBackedList.__init__ "db" _DEFAULT_TABLE_NAME Z.abs (λ b, b) None
     cache_max_size None empty_world).1.2.

(** C3 fails as stated, in two ways.  With room for one entry and the
    default batch of 200, the second [set] prunes [min(2, 200) = 2] entries,
    so the key just set is not in the cache at all.  And [set] on a key that
    is already cached overwrites the value where it stands: ["a"], written
    last, is still the oldest entry and the next eviction takes it while
    ["b"] stays. *)
Lemma set_key_is_not_always_newest :
  (let d := run [OpSet "a" 1]
              (new_dict 1 _DEFAULT_MEMORY_CACHE_EVICTION_BATCH_SIZE) in
   ¬ (last (OrderedDict.keys (_active_object_cache (__setitem__ "b" 2 d).2))
      = Some "b")) ∧
  (let d := run [OpSet "a" 1; OpSet "b" 2] (new_dict 2 1) in
   ¬ (last (OrderedDict.keys (_active_object_cache (__setitem__ "a" 3 d).2))
      = Some "a") ∧
   OrderedDict.keys
     (_active_object_cache (__setitem__ "c" 4 (__setitem__ "a" 3 d).2).2)
   = ["b"; "c"]).
Proof.
  split; [vm_compute; discriminate|].
  split; [vm_compute; discriminate | reflexivity].
Qed.

(** C6 fails as stated: [sql_query] flushes before it runs its statement, so
    a query issued through it right after [set], with the entry still in the
    cache and the table still empty, finds the row by its extra column. *)
Lemma sql_query_sees_unflushed_entry :
  let d1 := (__setitem__ "k" 5 (new_dict 2000 200)).2 in
  _active_object_cache d1 = [("k", 5)] ∧
  table d1 !! "k" = None ∧
  ¬ (∀ rows, (sql_query (select_where "data" "x" 10) None d1).1.1 = Ok rows →
             "k" ∉ rows).
Proof.
  split_and!; [reflexivity | reflexivity |].
  intros Hnot. apply (Hnot ["k"]); [reflexivity | apply list_elem_of_here].
Qed.

(** C9 fails as stated: with [cache_max_size=-1] the appended value goes
    straight to the table, and [get(0)] returns what the deserializer makes
    of the serialized value. *)
Lemma append_then_get_changes_value :
  let l0 := new_list_abs (Some (-1)) in
  (FileBackedList.__init__ "db" _DEFAULT_TABLE_NAME Z.abs (λ b, b) None
     (Some (-1)) None empty_world).1.1 = Ok () ∧
  (FileBackedList.append (-3) l0).1 = Ok () ∧
  (FileBackedList.__getitem__ 0 (FileBackedList.append (-3) l0).2).1 = Ok 3 ∧
  (FileBackedList.__getitem__ 0 (FileBackedList.append (-3) l0).2).1 ≠ Ok (-3).
Proof. split_and!; [reflexivity..|]. vm_compute. discriminate. Qed.

(** C5 fails as stated.  On SQLite 3.31, which binds at most 999 host
    parameters, a collection with the default cache of 2000 entries that has
    been given 1000 keys holds all of them in its cache; the statement of
    [__len__] then has 1000 parameters and the call raises
    [OperationalError] instead of returning 1000. *)
Lemma len_raises_past_999_cached_keys :
  let d0 := new_dict _DEFAULT_MEMORY_CACHE_MAX_SIZE
                     _DEFAULT_MEMORY_CACHE_EVICTION_BATCH_SIZE in
  let ops := (λ i, OpSet (str (Z.of_nat i)) 0) <$> seq 0 1000 in
  let d := run (build := sqlite_3_31) ops d0 in
  fresh d0 ∧
  OrderedDict.len (_active_object_cache d) = 1000 ∧
  size (live_keys d) = 1000%nat ∧
  (__len__ (build := sqlite_3_31) d).1 = Raise OperationalError ∧
  ¬ (∃ n, __len__ (build := sqlite_3_31) d = (Ok n, d)).
Proof.
  intros d0 ops d.
  assert (fresh d0) as Hfresh by (apply new_dict_fresh; reflexivity).
  assert (is_open d) as Hopen by (apply run_is_open; by destruct Hfresh).
  assert (wf d) as Hwf by (by apply run_wf, fresh_wf).
  assert (OrderedDict.len (_active_object_cache d) = 1000) as Hlen
    by (vm_compute; reflexivity).
  assert (length (iter_keys d) = 1000%nat) as Hsize
    by (vm_compute; reflexivity).
  clearbody d.
  assert ((__len__ (build := sqlite_3_31) d).1 = Raise OperationalError)
    as Hraise.
  { rewrite (len_raises (build := sqlite_3_31) d); [done|done|].
    rewrite Hlen. reflexivity. }
  split_and!; [done | done | | done |].
  - by rewrite size_live_keys.
  - intros [n Hn]. rewrite Hn in Hraise. discriminate.
Qed.

(** [cache_overrides_store] at work: the table holds the older value 1 for
    ["k"], the cache the newer value 7. *)
Lemma cache_overrides_store_witness :
  let d := run [OpSet "k" 1; OpFlush] (new_dict 2 1) in
  let ops := [OpSet "a" 5; OpGet "a"; OpLen] in
  let d1 := (__setitem__ "k" 7 d).2 in
  wf d ∧
  Forall (λ op, ¬ writes "k" op) ops ∧
  cached_throughout "k" ops d1 ∧
  row_value <$> table (run ops d1) !! "k" = Some 1 ∧
  (__getitem__ "k" (run ops d1)).1 = Ok 7.
Proof.
  intros d ops d1.
  assert (wf d) as Hwf
    by (apply run_wf, fresh_wf, new_dict_fresh; lia).
  assert (Forall (λ op : Op Z, ¬ writes "k" op) ops) as Hops
    by (repeat constructor; simpl; try discriminate; tauto).
  assert (cached_throughout "k" ops d1) as Hct
    by (vm_compute; repeat split; repeat constructor).
  split_and!; [done | done | done | reflexivity |].
  exact (cache_overrides_store d "k" 7 ops Hwf Hops Hct).
Defined.

(** [eviction_preserves_value] at work: two more insertions push ["k"] out
    of a cache of two entries. *)
Lemma eviction_preserves_value_witness :
  let d := new_dict 2 1 in
  let ops := [OpSet "a" 1; OpSet "b" 2] in
  let d2 := run ops (__setitem__ "k" 7 d).2 in
  wf d ∧ is_open d ∧
  deserializer d (serializer d 7) = 7 ∧
  Forall (λ op, ¬ writes "k" op) ops ∧
  "k" ∉ OrderedDict.keys (_active_object_cache d2) ∧
  stored_in (serializer d) "k" 7 (table d2) ∧
  (__getitem__ "k" d2).1 = Ok 7.
Proof.
  intros d ops d2.
  assert (fresh d) as Hfresh by (apply new_dict_fresh; lia).
  assert (wf d) as Hwf by (by apply fresh_wf).
  assert (is_open d) as Hopen by (by destruct Hfresh).
  assert (deserializer d (serializer d 7) = 7) as Hinv by reflexivity.
  assert (Forall (λ op : Op Z, ¬ writes "k" op) ops) as Hops
    by (repeat constructor; simpl; discriminate).
  assert ("k" ∉ OrderedDict.keys (_active_object_cache d2)) as Hout
    by compute_done.
  split_and!; [done..| |].
  - exact (proj1 (eviction_preserves_value d "k" 7 ops Hwf Hopen Hinv Hops Hout)).
  - exact (proj2 (eviction_preserves_value d "k" 7 ops Hwf Hopen Hinv Hops Hout)).
Defined.

(** [recency_order] at work on a cache that holds ["a"]. *)
Lemma recency_order_witness :
  let d := run [OpSet "a" 1] (new_dict 2 1) in
  wf d ∧
  "b" ∉ OrderedDict.keys (_active_object_cache d) ∧
  last (_active_object_cache (__setitem__ "b" 2 d).2) = Some ("b", 2) ∧
  (__getitem__ "a" d).1 = Ok 1 ∧
  last (_active_object_cache (__getitem__ "a" d).2) = Some ("a", 1).
Proof.
  intros d.
  assert (wf d) as Hwf by (apply run_wf, fresh_wf, new_dict_fresh; lia).
  assert ("b" ∉ OrderedDict.keys (_active_object_cache d)) as Hnew
    by compute_done.
  destruct (recency_order d "b" 2 Hwf) as (Hset & _ & _).
  destruct (recency_order d "a" 1 Hwf) as (_ & Hget & _).
  destruct (Hset Hnew) as [Hstay Hlast].
  assert (cache_eviction_batch_size d ≤ cache_max_size d) as Hcfg
    by (vm_compute; discriminate).
  destruct (Hlast (Hstay Hcfg)) as [Hnewest _].
  destruct (Hget 1 eq_refl) as [Hval Hmoved].
  split_and!; done.
Defined.

(** [iterate_every_live_key_once] at work: ["a"] is in the table, ["b"] and
    ["c"] are in the cache. *)
Lemma iterate_every_live_key_once_witness :
  let d := run [OpSet "a" 1; OpSet "b" 2; OpSet "c" 3] (new_dict 2 1) in
  reachable d ∧
  __iter__ d = (Ok ["a"; "b"; "c"], d) ∧
  NoDup (iter_keys d).
Proof.
  intros d.
  assert (reachable d) as Hreach.
  { exists (new_dict 2 1), [OpSet "a" 1; OpSet "b" 2; OpSet "c" 3].
    split; [apply new_dict_fresh; lia | done]. }
  destruct (iterate_every_live_key_once d Hreach) as (Hiter & Hnodup & _).
  split_and!; [done | | done].
  rewrite Hiter. reflexivity.
Defined.

(** [length_counts_live_keys] at work: a cache of at most two entries is
    within the limit of every build. *)
Lemma length_counts_live_keys_witness :
  let d0 := new_dict 2 1 in
  let ops := [OpSet "a" 1; OpSet "b" 2; OpSet "c" 3; OpDel "b"; OpSet "a" 9] in
  fresh d0 ∧
  0 ≤ cache_max_size d0 ≤ SQLITE_MAX_VARIABLE_NUMBER ∧
  1 ≤ cache_eviction_batch_size d0 ∧
  (__len__ (run ops d0)).1 = Ok 2 ∧
  live_keys (run ops d0) = model_keys ops ∅.
Proof.
  intros d0 ops.
  assert (fresh d0) as Hfresh by (apply new_dict_fresh; lia).
  assert (0 ≤ cache_max_size d0 ≤ SQLITE_MAX_VARIABLE_NUMBER) as Hmax
    by (split; vm_compute; discriminate).
  assert (1 ≤ cache_eviction_batch_size d0) as Hbatch
    by (vm_compute; discriminate).
  destruct (length_counts_live_keys d0 ops Hfresh)
    as (Hlen & _ & Hbound & _ & Hkeys).
  split_and!; [done.. | | done].
  rewrite (Hlen (Hbound Hmax Hbatch)). reflexivity.
Defined.

(** [extra_column_visible_once_flushed] at work. *)
Lemma extra_column_visible_once_flushed_witness :
  let d := new_dict 2000 200 in
  let d1 := (__setitem__ "k" 5 d).2 in
  let query := select_where (tablename d) "x" (2 * 5) in
  wf d ∧ is_open d ∧
  ("x", λ v, 2 * v) ∈ extra_columns d ∧
  "k" ∈ OrderedDict.keys (_active_object_cache d1) ∧
  table d1 !! "k" = None ∧
  (∃ rows, execute query [] d1 = (Ok rows, d1) ∧ "k" ∉ rows) ∧
  (∃ rows d2, sql_query query None d1 = (Ok rows, d2, []) ∧ "k" ∈ rows).
Proof.
  intros d d1 query.
  assert (fresh d) as Hfresh by (apply new_dict_fresh; lia).
  assert (wf d) as Hwf by (by apply fresh_wf).
  assert (is_open d) as Hopen by (by destruct Hfresh).
  assert (("x", λ v, 2 * v) ∈ extra_columns d) as Hcol
    by apply list_elem_of_here.
  assert ("k" ∈ OrderedDict.keys (_active_object_cache d1)) as Hin
    by apply list_elem_of_here.
  destruct (extra_column_visible_once_flushed d "k" 5 "x" (λ v, 2 * v)
              Hwf Hopen Hcol Hin) as (Hrow1 & Hbefore & _ & Hquery).
  split_and!; [done..| | |done].
  - exact Hrow1.
  - by apply Hbefore.
Defined.

(** [not_found_exactly_when_absent] at work on an empty collection. *)
Lemma not_found_exactly_when_absent_witness :
  let d := new_dict 2 1 in
  is_open d ∧
  (__getitem__ "k" d).1 = Raise KeyError ∧
  (__delitem__ "k" d).1 = Raise KeyError.
Proof.
  intros d.
  assert (is_open d) as Hopen by (by exists 0%nat).
  destruct (not_found_exactly_when_absent d "k" Hopen) as (Hget & Hdel & _).
  assert (absent "k" d) as Habs by (split; [apply not_elem_of_nil | done]).
  split_and!; [done | by apply Hget | by apply Hdel].
Defined.

(** [cache_size_bound] at work. *)
Lemma cache_size_bound_witness :
  let d0 := new_dict 2 1 in
  let ops := [OpSet "a" 1; OpSet "b" 2; OpSet "c" 3; OpGet "a"] in
  fresh d0 ∧ 0 ≤ cache_max_size d0 ∧ 1 ≤ cache_eviction_batch_size d0 ∧
  OrderedDict.len (_active_object_cache (run ops d0)) ≤ cache_max_size d0.
Proof.
  intros d0 ops.
  assert (fresh d0) as Hfresh by (apply new_dict_fresh; lia).
  assert (0 ≤ cache_max_size d0) as Hmax by (vm_compute; discriminate).
  assert (1 ≤ cache_eviction_batch_size d0) as Hbatch
    by (vm_compute; discriminate).
  split_and!; [done..|].
  exact (proj1 (cache_size_bound d0 ops Hfresh Hmax Hbatch)).
Defined.

(** [append_then_index] at work with the default cache size. *)
Lemma append_then_index_witness :
  let r := FileBackedList.__init__ "db" _DEFAULT_TABLE_NAME Z.abs (λ b, b)
             None None None empty_world in
  let l1 := (FileBackedList.append (-3) r.1.2).2 in
  r = (Ok (), r.1.2, r.2) ∧
  (FileBackedList.__getitem__ 0 l1).1 = Ok (-3) ∧
  (FileBackedList.__getitem__ 1 l1).1 = Raise IndexError ∧
  (FileBackedList.__getitem__ (-1) l1).1 = Raise IndexError.
Proof.
  intros r l1.
  assert (r = (Ok (), r.1.2, r.2)) as Hinit by reflexivity.
  assert ((∀ n, (None : option Z) = Some n → 0 ≤ n) ∨
          (λ b : Z, b) (Z.abs (-3)) = -3) as Hcfg
    by (left; intros n; discriminate).
  destruct (append_then_index "db" _DEFAULT_TABLE_NAME Z.abs (λ b, b)
              None None None empty_world r.2 r.1.2 (-3) Hinit Hcfg)
    as ((_ & H0 & H1 & Hm1) & _).
  split_and!; done.
Defined.

(** [registry_shares_one_connection] at work: two tables in one file. *)
Lemma registry_shares_one_connection_witness :
  let d_a := init "db" "a" (λ v : Z, v) (λ b : Z, b) [] 2 1 in
  let d_b := init "db" "b" (λ v : Z, v) (λ b : Z, b) [] 2 1 in
  let ra := __post_init__ d_a empty_world in
  let rb := __post_init__ d_b ra.2 in
  ra = (Ok (), ra.1.2, ra.2) ∧
  rb = (Ok (), rb.1.2, rb.2) ∧
  ∃ conn, _conn ra.1.2 = Some conn ∧ _conn rb.1.2 = Some conn ∧
          conn ∈ open_handles rb.2.
Proof.
  intros d_a d_b ra rb.
  assert (ra = (Ok (), ra.1.2, ra.2)) as Ha by reflexivity.
  assert (rb = (Ok (), rb.1.2, rb.2)) as Hb by reflexivity.
  destruct (proj2 (registry_shares_one_connection (V:=Z) (B:=Z) [])
              d_a d_b ra.1.2 rb.1.2 ra.2 rb.2 [] [] eq_refl Ha Hb)
    as (conn & Hca & Hcb & _ & Hopen & _).
  split_and!; [done | done |]. by exists conn.
Defined.

End Examples.

(** ** A collection behaves like a dictionary *)

(** The same calls on a plain finite map. *)
Definition map_step {V} (op : Op V) (m : gmap string V) : gmap string V :=
  match op with
  | OpSet key value => <[key := value]> m
  | OpDel key => delete key m
  | _ => m
  end.

Fixpoint map_run {V} (ops : list (Op V)) (m : gmap string V) : gmap string V :=
  match ops with
  | [] => m
  | op :: ops' => map_run ops' (map_step op m)
  end.

Section dict_refinement.
Context {V B : Type} {build : SqliteBuild}.
Import FileBackedDict.
Implicit Types (d : FileBackedDict.t V B) (k key : string) (v value : V).
Implicit Types (m : gmap string V).

(** The deserializer undoes the serializer. *)
Definition round_trip d : Prop :=
  ∀ v, deserializer d (serializer d v) = v.

(** The collection holds exactly the bindings of [m]. *)
Definition agrees d m : Prop :=
  ∀ key, match m !! key with
         | Some value => holds key value d
         | None => absent key d
         end.

Lemma step_round_trip (op : Op V) d : round_trip d → round_trip (step op d).
Proof.
  unfold round_trip. by rewrite step_serializer, step_deserializer.
Qed.

Lemma run_round_trip (ops : list (Op V)) d : round_trip d → round_trip (run ops d).
Proof.
  revert d. induction ops as [|op ops IH]; intros d Hd; simpl; [done|].
  by apply IH, step_round_trip.
Qed.

Lemma absent_added k v key d :
  k ≠ key → absent key d →
  key ∉ OrderedDict.keys (cache_added k v d) ∧ table_added k v d !! key = None.
Proof.
  intros Hne [Hnin Hrow]. unfold cache_added, table_added.
  set (c1 := OrderedDict.setitem k v (_active_object_cache d)).
  assert (key ∉ OrderedDict.keys c1) as Hc1.
  { unfold c1. rewrite od_elem_of_keys_setitem. intros [?|?]; [by subst | done]. }
  split.
  - intros Hin. apply Hc1. apply (od_keys_take_drop (evict_count d c1)). by right.
  - rewrite write_rows_lookup_notin; [done|]. rewrite rows_of_keys.
    intros Hin. apply Hc1. apply (od_keys_take_drop (evict_count d c1)). by left.
Qed.

(** A call that does not set [key] leaves an absent [key] absent. *)
Lemma step_absent (op : Op V) key d :
  is_open d →
  (∀ v, op ≠ OpSet key v) →
  absent key d → absent key (step op d).
Proof.
  intros Hopen Hop Habs. unfold absent.
  rewrite step_cache, step_table by done.
  pose proof Habs as [Hnin Hrow]. destruct Hopen as [conn Hconn].
  destruct op as [k|k v|k| | |]; simpl.
  - destruct (OrderedDict.contains k _) eqn:Hc.
    + by rewrite od_elem_of_keys_move_to_end.
    + rewrite Hconn. destruct (table d !! k) as [result|] eqn:Hk; [|done].
      apply absent_added; [|done]. intros ->. congruence.
  - apply absent_added; [|done]. intros ->. by apply (Hop v).
  - split.
    + destruct (OrderedDict.contains k _); [|done].
      rewrite od_elem_of_keys_delitem. by intros [_ ?].
    + destruct (decide (k = key)) as [->|Hne];
        [apply lookup_delete_eq | by rewrite lookup_delete_ne].
  - split; [apply not_elem_of_nil|].
    rewrite write_rows_lookup_notin; [done | by rewrite rows_of_keys].
  - done.
  - done.
Qed.

Lemma set_holds key value d :
  wf d → is_open d → holds key value (step (OpSet key value) d).
Proof.
  intros Hwf Hopen. unfold holds.
  rewrite step_serializer, step_cache, step_table by done.
  by apply added_holds_same.
Qed.

Lemma step_agrees (op : Op V) d m :
  wf d → is_open d → round_trip d →
  agrees d m → agrees (step op d) (map_step op m).
Proof.
  intros Hwf Hopen Hrt Hag key. specialize (Hag key).
  destruct (decide (writes key op)) as [Hw|Hw].
  - destruct op as [k|k v|k| | |]; simpl in Hw; try done; subst k; simpl.
    + rewrite lookup_insert_eq. by apply set_holds.
    + rewrite lookup_delete_eq. by apply (delitem_removes key d).
  - assert (map_step op m !! key = m !! key) as ->.
    { destruct op as [k|k v|k| | |]; simpl in *; try done.
      - by rewrite lookup_insert_ne.
      - by rewrite lookup_delete_ne. }
    destruct (m !! key) as [value|].
    + by apply step_holds.
    + apply step_absent; [done| |done]. intros v ->. by apply Hw.
Qed.

Lemma run_agrees (ops : list (Op V)) d m :
  wf d → is_open d → round_trip d →
  agrees d m → agrees (run ops d) (map_run ops m).
Proof.
  revert d m. induction ops as [|op ops IH]; intros d m Hwf Hopen Hrt Hag;
    simpl; [done|].
  apply IH; [by apply step_wf | by apply step_is_open
            | by apply step_round_trip | by apply step_agrees].
Qed.

Lemma fresh_agrees d : fresh d → agrees d ∅.
Proof.
  intros (_ & Hc & Htb) key. rewrite lookup_empty. unfold absent.
  rewrite Hc, Htb. split; [apply not_elem_of_nil | apply lookup_empty].
Qed.

Lemma getitem_holds key value d :
  is_open d → round_trip d → holds key value d →
  (__getitem__ key d).1 = Ok value.
Proof.
  intros Hopen Hrt [Hget|[Hnin (row & Hrow & Hval)]].
  - by rewrite (getitem_cached key value).
  - rewrite (getitem_stored key row) by done. simpl. by rewrite Hval, Hrt.
Qed.

Lemma holds_not_absent key value d : holds key value d → ¬ absent key d.
Proof.
  intros [Hget|[_ (row & Hrow & _)]] [Hnin Hnone].
  - apply Hnin. apply od_getitem_is_Some. eauto.
  - congruence.
Qed.

Lemma agrees_live_keys d m : agrees d m → live_keys d = dom m.
Proof.
  intros Hag. apply set_eq. intros key. specialize (Hag key).
  unfold live_keys. rewrite elem_of_union, !elem_of_dom, elem_of_list_to_set.
  destruct (m !! key) as [value|] eqn:Hm.
  - split; [eauto|]. intros _.
    destruct Hag as [Hget|[_ (row & Hrow & _)]].
    + right. apply od_getitem_is_Some. eauto.
    + left. eauto.
  - destruct Hag as [Hnin Hnone]. rewrite Hnone.
    split; [|by intros [? ?]]. intros [[? ?]|?]; done.
Qed.

(** X1. When the deserializer undoes the serializer, a collection behaves
    like a dictionary: after any sequence of get, set, delete, flush,
    iterate and length calls on a new collection, [get] returns the value
    last set for the key and raises [KeyError] for a key never set or
    deleted since, [delete] succeeds exactly on the keys the dictionary
    has, and [len] is the number of its keys, unless the cache holds more
    than [SQLITE_MAX_VARIABLE_NUMBER] keys, when [len] raises
    [OperationalError]. *)
Theorem dict_behaves_like_map (d0 : FileBackedDict.t V B) (ops : list (Op V))
    (key : string) :
  fresh d0 →
  round_trip d0 →
  let d := run ops d0 in
  let m := map_run ops ∅ in
  (__getitem__ key d).1 =
    match m !! key with Some value => Ok value | None => Raise KeyError end ∧
  (__delitem__ key d).1 =
    match m !! key with Some _ => Ok () | None => Raise KeyError end ∧
  (__len__ d).1 =
    if decide (OrderedDict.len (_active_object_cache d)
               > SQLITE_MAX_VARIABLE_NUMBER)
    then Raise OperationalError
    else Ok (Z.of_nat (size m)).
Proof.
  intros Hfresh Hrt d m.
  assert (wf d0) as Hwf0 by (by apply fresh_wf).
  assert (is_open d0) as Hopen0 by (by destruct Hfresh).
  assert (agrees d m) as Hag
    by (apply run_agrees; [done..|by apply fresh_agrees]).
  assert (wf d) as Hwf by (by apply run_wf).
  assert (is_open d) as Hopen by (by apply run_is_open).
  assert (round_trip d) as Hrtd by (by apply run_round_trip).
  pose proof (Hag key) as Hkey. split_and!.
  - destruct (m !! key) as [value|].
    + by apply getitem_holds.
    + by rewrite getitem_absent.
  - rewrite delitem_result by done. destruct (m !! key) as [value|].
    + rewrite decide_False; [done|]. by apply (holds_not_absent key value).
    + by rewrite decide_True.
  - rewrite len_outcome by done. simpl.
    by rewrite <- size_dom, <- (agrees_live_keys d m Hag).
Qed.

End dict_refinement.

(** ** Flushing *)

Section flushing.
Context {V B : Type} {build : SqliteBuild}.
Import FileBackedDict.
Implicit Types (d : FileBackedDict.t V B) (k key : string) (v value : V).

Lemma write_rows_nil (tb : gmap string (Row B)) : write_rows tb [] = tb.
Proof. done. Qed.

Lemma with_cache_nil_flushed d :
  _active_object_cache d = [] → with_table (table d) (with_cache [] d) = d.
Proof. destruct d. simpl. by intros ->. Qed.


Lemma write_rows_lookup_cache d (c : OrderedDict.t V)
    (tb : gmap string (Row B)) key :
  OrderedDict.wf c →
  write_rows tb (rows_of d c) !! key =
    match OrderedDict.getitem key c with
    | Some value => Some (row_of d value)
    | None => tb !! key
    end.
Proof.
  intros Hwf. destruct (OrderedDict.getitem key c) as [value|] eqn:Hget.
  - apply write_rows_lookup_in; [by rewrite rows_of_keys|].
    unfold rows_of. apply list_elem_of_fmap. exists (key, value).
    split; [done|]. by apply od_getitem_elem_of.
  - apply write_rows_lookup_notin. rewrite rows_of_keys.
    by apply od_getitem_None.
Qed.

(** X3. [flush] writes every cache entry to the table and touches nothing
    else: afterwards the row of a key that was cached is the serialized
    cached value with its extra columns, the row of any other key is what it
    was, and the collection holds the same keys.  After the flush [len]
    binds no host parameter and returns the number of those keys; that is
    what it returned before the flush when the cache held at most
    [SQLITE_MAX_VARIABLE_NUMBER] keys, and it raised [OperationalError]
    before the flush when the cache held more. *)
Theorem flush_moves_cache_to_table (d : FileBackedDict.t V B) :
  wf d →
  is_open d →
  (∀ key,
     table (flush d).2 !! key =
       match OrderedDict.getitem key (_active_object_cache d) with
       | Some value => Some (row_of d value)
       | None => table d !! key
       end) ∧
  live_keys (flush d).2 = live_keys d ∧
  (__len__ (flush d).2).1 = Ok (Z.of_nat (size (live_keys d))) ∧
  (__len__ d).1 =
    if decide (OrderedDict.len (_active_object_cache d)
               > SQLITE_MAX_VARIABLE_NUMBER)
    then Raise OperationalError
    else (__len__ (flush d).2).1.
Proof.
  intros Hwf Hopen. rewrite flush_open by done. simpl.
  set (d' := with_table _ _).
  assert (live_keys d' = live_keys d) as Hlive.
  { unfold live_keys, d'. simpl. rewrite dom_write_rows, rows_of_keys.
    set_solver. }
  assert ((__len__ d').1 = Ok (Z.of_nat (size (live_keys d)))) as Hlen'.
  { rewrite (len_returns d'), Hlive.
    - done.
    - apply NoDup_nil_2.
    - done.
    - pose proof SQLITE_MAX_VARIABLE_NUMBER_positive.
      unfold d', OrderedDict.len. simpl. lia. }
  split; [|split; [|split]].
  - intros key. by apply write_rows_lookup_cache.
  - done.
  - done.
  - rewrite Hlen', (len_outcome d) by done. simpl. by case_decide.
Qed.

End flushing.

(** ** Closing a collection *)

(** The exception a call ends with, if any. *)
Definition raised {A} (r : Result A) : option Exception :=
  match r with
  | Ok _ => None
  | Raise e => Some e
  end.

Definition outcome {V B} {build : SqliteBuild} (op : Op V)
    (d : FileBackedDict.t V B) : option Exception :=
  match op with
  | OpGet key => raised (FileBackedDict.__getitem__ key d).1
  | OpSet key value => raised (FileBackedDict.__setitem__ key value d).1
  | OpDel key => raised (FileBackedDict.__delitem__ key d).1
  | OpFlush => raised (FileBackedDict.flush d).1
  | OpIter => raised (FileBackedDict.__iter__ d).1
  | OpLen => raised (FileBackedDict.__len__ d).1
  end.

Section closing.
Context {V B : Type} {build : SqliteBuild}.
Import FileBackedDict.
Implicit Types (d : FileBackedDict.t V B) (w : World) (k key : string).

(** What [close] leaves of a collection: no connection, an empty cache that
    holds nothing ([cache_max_size = 0]). *)
Definition closed d : Prop :=
  _conn d = None ∧ _active_object_cache d = [] ∧ cache_max_size d = 0.

Lemma close_open d conn n w :
  world_inv w →
  _conn d = Some conn →
  _ref_count w !! filename d = Some n →
  close d w =
    (Ok (), with_cache_max_size 0 (with_conn None (flush d).2),
     (drop_connection (filename d) w).2) ∧
  (drop_connection (filename d) w).1 = Ok () ∧
  closed (close d w).1.2.
Proof.
  intros Hw Hconn Hn.
  destruct (close_registry d conn n w Hw Hconn Hn) as (w1 & Hdrop & Hclose).
  rewrite Hclose, Hdrop. simpl. split_and!; [done..|].
  rewrite flush_open by (by exists conn). done.
Qed.


Lemma add_to_cache_no_conn key value d :
  _conn d = None →
  let c1 := OrderedDict.setitem key value (_active_object_cache d) in
  _add_to_cache key value d =
    ((if decide (OrderedDict.len c1 > cache_max_size d)
      then Raise AttributeError else Ok ()),
     with_cache (drop (evict_count d c1) c1) d).
Proof.
  intros Hconn c1. unfold _add_to_cache, evict_count. fold c1. simpl.
  case_decide as Hgt.
  - rewrite prune_cache_closed; [done|done|]. simpl. unfold OrderedDict.len. lia.
  - by rewrite drop_0.
Qed.

Lemma closed_prune_one key value d :
  closed d →
  cache_eviction_batch_size d > 0 →
  _add_to_cache key value d = (Raise AttributeError, d).
Proof.
  intros (Hconn & Hc & Hmax) Hb. rewrite add_to_cache_no_conn by done.
  assert (OrderedDict.setitem key value (_active_object_cache d) = [(key, value)])
    as Hset.
  { rewrite Hc. unfold OrderedDict.setitem.
    by rewrite (proj2 (od_contains_false key [])) by apply not_elem_of_nil. }
  rewrite Hset. unfold evict_count, OrderedDict.len. rewrite Hmax.
  change (Z.of_nat (length [(key, value)])) with 1.
  rewrite !decide_True by lia.
  replace (Z.to_nat (1 `min` cache_eviction_batch_size d)) with 1%nat by lia.
  f_equal. change (drop 1 [(key, value)]) with (@nil (string * V)).
  rewrite <- Hc. apply with_cache_id.
Qed.

(** X5. Every call on a closed collection raises [AttributeError] and
    leaves the collection as it is; in particular a value passed to [set]
    is dropped, not buffered. *)
Theorem closed_collection_rejects_calls (d : FileBackedDict.t V B) (op : Op V) :
  closed d →
  cache_eviction_batch_size d > 0 →
  outcome op d = Some AttributeError ∧ step op d = d.
Proof.
  intros Hclosed Hb. pose proof Hclosed as (Hconn & Hc & Hmax).
  destruct op as [key|key value|key| | |]; simpl.
  - unfold __getitem__. rewrite Hc.
    rewrite (proj2 (od_contains_false key [])) by apply not_elem_of_nil.
    by rewrite Hconn.
  - unfold __setitem__. by rewrite closed_prune_one.
  - unfold __delitem__. rewrite Hc.
    rewrite (proj2 (od_contains_false key [])) by apply not_elem_of_nil.
    by rewrite Hconn.
  - unfold flush. rewrite Hc.
    rewrite prune_cache_closed;
      [|done|unfold OrderedDict.len; rewrite Hc; simpl; lia].
    simpl. rewrite Hc. simpl. split; [done|]. rewrite <- Hc. apply with_cache_id.
  - unfold __iter__. by rewrite Hconn.
  - unfold __len__. by rewrite Hconn.
Qed.

End closing.

(** ** Acquiring and releasing connections *)

Section acquire_release.
Implicit Types (w : World) (p filename : Path) (conn : Connection).

Lemma release_after_acquire p w w1 :
  world_inv w →
  same_registry (get_connection p w).2 w1 →
  ∃ w2, drop_connection p w1 = (Ok (), w2) ∧
        _ref_count w2 = _ref_count w ∧
        _sqlite_connection_cache w2 = _sqlite_connection_cache w ∧
        open_handles w2 = open_handles w ∧
        schema w2 = schema w1.
Proof.
  intros Hw (Hrc & Hcc & Hop & Hnx).
  destruct (world_inv_registered p w Hw)
    as [[Hnone Hcnone]|(n & c & Hge & Hn & Hc)].
  - rewrite get_connection_new in Hrc, Hcc, Hop, Hnx by done. simpl in *.
    eexists. split.
    { apply (drop_connection_last p (next_handle w)).
      - by rewrite Hrc, lookup_insert_eq.
      - by rewrite Hcc, lookup_insert_eq. }
    simpl. rewrite Hrc, Hcc, Hop.
    rewrite !delete_insert_id by done. split_and!; [done..| |done].
    destruct Hw as (_ & _ & _ & Hreg & _).
    assert (next_handle w ∉ open_handles w) as Hfresh
      by (intros [? _]%Hreg; lia).
    set_solver.
  - rewrite (get_connection_known p n c) in Hrc, Hcc, Hop, Hnx by done.
    simpl in *. eexists. split.
    { apply (drop_connection_shared p (n + 1)); [|lia].
      by rewrite Hrc, lookup_insert_eq. }
    simpl. rewrite Hrc, Hcc, Hop. split_and!; [|done..].
    rewrite insert_insert_eq. replace (n + 1 - 1) with n by lia.
    by apply insert_id.
Qed.

(** X6. Releasing a connection right after acquiring it puts the registry
    back: both dictionaries and the set of open handles are as they were,
    so a connection opened by the acquisition is closed again and one that
    was shared stays open.  Releasing a path that is not registered raises
    [KeyError] and changes nothing. *)
Theorem acquire_then_release (filename : Path) (w : World) :
  world_inv w →
  (∃ conn w1 w2,
     get_connection filename w = (Ok conn, w1) ∧
     drop_connection filename w1 = (Ok (), w2) ∧
     _ref_count w2 = _ref_count w ∧
     _sqlite_connection_cache w2 = _sqlite_connection_cache w ∧
     open_handles w2 = open_handles w) ∧
  (_ref_count w !! filename = None →
   drop_connection filename w = (Raise KeyError, w)).
Proof.
  intros Hw. split.
  - destruct (get_connection_spec filename w Hw) as (conn & w1 & Hget & _).
    destruct (release_after_acquire filename w w1 Hw)
      as (w2 & Hdrop & Hrc & Hcc & Hop & _); [by rewrite Hget|].
    by exists conn, w1, w2.
  - intros Hnone. unfold drop_connection. by rewrite Hnone.
Qed.

End acquire_release.

Section construction.
Context {V B : Type} {build : SqliteBuild}.
Import FileBackedDict.
Implicit Types (d : FileBackedDict.t V B) (w : World) (p : Path).

(** The names [__post_init__] defines: the table, then one index per extra
    column. *)
Definition object_names d : list string :=
  tablename d ::
    ((λ column_name, tablename d +:+ "_" +:+ column_name)
       <$> (extra_columns d).*1).

(** The assertions of [__post_init__] hold. *)
Definition valid_config d : Prop :=
  cache_eviction_batch_size d > 0 ∧
  "key" ∉ (extra_columns d).*1 ∧ "value" ∉ (extra_columns d).*1.

Lemma create_names_outcome p names w :
  let r := create_names p names w in
  (r.1 = Ok () ↔ NoDup names ∧ ∀ name, name ∈ names → name ∉ names_of p w) ∧
  (r.1 = Ok () → names_of p r.2 = list_to_set names ∪ names_of p w) ∧
  (r.1 ≠ Ok () → r.1 = Raise OperationalError).
Proof.
  revert w. induction names as [|name names IH]; intros w; simpl.
  - split_and!; [|set_solver|done].
    split; [intros _|done]. split; [apply NoDup_nil_2|].
    by intros name ?%elem_of_nil.
  - destruct (create_name p name w) as [[[]|e] w1] eqn:Hone; simpl.
    + apply create_name_names in Hone as [Hnin Hw1].
      destruct (IH w1) as (Hiff & Hnames & Herr). split_and!.
      * rewrite Hiff, Hw1, NoDup_cons. split.
        -- intros [Hnd Hall]. split_and!; [|done|].
           ++ intros Hin. specialize (Hall name Hin). set_solver.
           ++ intros x [->|Hx]%elem_of_cons; [done|].
              specialize (Hall x Hx). set_solver.
        -- intros [[Hnew Hnd] Hall]. split; [done|].
           intros x Hx. apply not_elem_of_union. split.
           ++ intros ->%elem_of_singleton. done.
           ++ apply Hall. by apply list_elem_of_further.
      * intros Hok. rewrite (Hnames Hok), Hw1. simpl. set_solver.
      * done.
    + unfold create_name in Hone. fold (names_of p w) in Hone.
      case_decide as Hin; [|done]. injection Hone as <- <-.
      split_and!; [|done|done].
      split; [done|]. intros [_ Hall]. exfalso.
      apply (Hall name); [apply list_elem_of_here | done].
Qed.

Lemma post_init_unfold d w :
  valid_config d →
  __post_init__ d w =
    match get_connection (filename d) w with
    | (Raise e, w1) => (Raise e, d, w1)
    | (Ok conn, w1) =>
        let d1 := with_cache [] (with_conn (Some conn) d) in
        match create_names (filename d) (object_names d) w1 with
        | (Raise e, w2) => (Raise e, d1, w2)
        | (Ok _, w2) => (Ok (), with_table ∅ d1, w2)
        end
    end.
Proof.
  intros (Hb & Hk & Hv). unfold __post_init__.
  by rewrite decide_True, !decide_False by done.
Qed.

(** X7. How building a collection ends.  It raises [AssertionError] exactly
    when the batch size is not positive or an extra column is called [key]
    or [value], and then nothing has happened: no connection is taken.
    When it succeeds, the table name and the index names were distinct and
    not yet defined in the file, they are defined now, and the collection is
    open and empty.  When the assertions hold and [get_connection] has
    returned a connection, a failure is an [OperationalError] of a [CREATE]
    statement, and the object holds that connection and an empty cache. *)
Theorem construction_outcome (d : FileBackedDict.t V B) (w : World) :
  world_inv w →
  let r := __post_init__ d w in
  (r.1.1 = Raise AssertionError ↔ ¬ valid_config d) ∧
  (¬ valid_config d → r.1.2 = d ∧ r.2 = w) ∧
  (r.1.1 = Ok () →
     valid_config d ∧ NoDup (object_names d) ∧
     ∀ name, name ∈ object_names d → name ∉ names_of (filename d) w) ∧
  (r.1.1 = Ok () →
     fresh r.1.2 ∧
     names_of (filename d) r.2 =
       list_to_set (object_names d) ∪ names_of (filename d) w) ∧
  (∀ conn w1,
     get_connection (filename d) w = (Ok conn, w1) →
     valid_config d → r.1.1 ≠ Ok () →
     r.1.1 = Raise OperationalError ∧
     r.1.2 = with_cache [] (with_conn (Some conn) d)).
Proof.
  intros Hw r.
  destruct (decide (valid_config d)) as [Hcfg|Hcfg].
  - assert (r = _) as Hr by apply (post_init_unfold d w Hcfg).
    destruct (get_connection_spec (filename d) w Hw)
      as (conn & w1 & Hget & _ & _ & _ & _ & _ & Hsch).
    rewrite Hget in Hr. cbv beta iota zeta in Hr.
    destruct (create_names_outcome (filename d) (object_names d) w1)
      as (Hiff & Hnames & Herr).
    assert (names_of (filename d) w1 = names_of (filename d) w) as Hsame
      by (unfold names_of; by rewrite Hsch).
    rewrite Hsame in Hiff, Hnames.
    destruct (create_names (filename d) (object_names d) w1)
      as [[[]|e] w2] eqn:Hcreate; rewrite Hr; cbn [fst snd] in *.
    + split; [|split; [|split; [|split]]].
      * split; [done | by intros Hbad; destruct (Hbad Hcfg)].
      * by intros Hbad; destruct (Hbad Hcfg).
      * intros _. split; [done | by apply Hiff].
      * intros _. split; [|by apply Hnames].
        split; [by exists conn | done].
      * by intros conn' w1' _ _ Hne.
    + assert (e = OperationalError) as ->.
      { assert (Raise e = Raise OperationalError :> Result unit) as Heq
          by (by apply Herr). by injection Heq. }
      split; [|split; [|split; [|split]]].
      * split; [done | by intros Hbad; destruct (Hbad Hcfg)].
      * by intros Hbad; destruct (Hbad Hcfg).
      * done.
      * done.
      * intros conn' w1' Hget' _ _. rewrite Hget in Hget'.
        by injection Hget' as <- <-.
  - assert (r = (Raise AssertionError, d, w)) as Hr.
    { unfold r, __post_init__. unfold valid_config in Hcfg.
      repeat case_decide; try done. exfalso. by apply Hcfg. }
    rewrite Hr. cbn [fst snd].
    split; [|split; [|split; [|split]]]; done.
Qed.

(** X8. A table name cannot be used twice in one file: once a collection
    has been built, building another on the same path with the same table
    name raises [OperationalError]; the object it leaves behind holds the
    shared connection and the count of the path has gone up by one. *)
Theorem duplicate_table_rejected (d_a d_b a : FileBackedDict.t V B)
    (w w1 : World) :
  world_inv w →
  __post_init__ d_a w = (Ok (), a, w1) →
  filename d_b = filename d_a →
  tablename d_b = tablename d_a →
  valid_config d_b →
  let r := __post_init__ d_b w1 in
  r.1.1 = Raise OperationalError ∧
  _conn r.1.2 = _conn a ∧
  is_open r.1.2 ∧
  ∃ n, _ref_count w1 !! filename d_a = Some n ∧
       _ref_count r.2 !! filename d_a = Some (n + 1).
Proof.
  intros Hw Ha Hpath Htable Hcfg r.
  apply post_init_steps in Ha as (ca & wa & Hget_a & Hnames_a & ->).
  destruct (get_connection_spec (filename d_a) w Hw)
    as (ca' & wa' & Hget_a' & Hwa & Hrc_a & Hcc_a & _).
  rewrite Hget_a in Hget_a'. injection Hget_a' as <- <-.
  pose proof (create_names_same_registry (filename d_a) (object_names d_a) wa)
    as Hsame_a.
  unfold object_names in Hsame_a.
  rewrite Hnames_a in Hsame_a. simpl in Hsame_a.
  pose proof (same_registry_inv wa w1 Hsame_a Hwa) as Hw1.
  destruct Hsame_a as (Hrc1 & Hcc1 & _).
  apply create_names_head in Hnames_a as [_ Hdefined].
  assert (r = _) as Hr by apply (post_init_unfold d_b w1 Hcfg).
  rewrite Hpath in Hr.
  destruct (get_connection_spec (filename d_a) w1 Hw1)
    as (cb & wb & Hget_b & _ & Hrc_b & _ & Hsame_conn & _ & Hsch_b).
  assert (cb = ca) as ->.
  { symmetry. apply Hsame_conn. by rewrite Hcc1, Hcc_a, lookup_insert_eq. }
  rewrite Hget_b in Hr. cbv beta iota zeta in Hr.
  destruct (create_names_outcome (filename d_a) (object_names d_b) wb)
    as (Hiff & _ & Herr).
  pose proof (create_names_same_registry (filename d_a) (object_names d_b) wb)
    as (Hrc2 & _).
  assert (_ref_count w1 !! filename d_a =
            Some (default 0 (_ref_count w !! filename d_a) + 1)) as Hn
    by (by rewrite Hrc1, Hrc_a, lookup_insert_eq).
  destruct (create_names (filename d_a) (object_names d_b) wb)
    as [[[]|e] w2] eqn:Hcreate; rewrite Hr; cbn [fst snd] in *.
  - exfalso. destruct Hiff as [Hiff _]. destruct (Hiff eq_refl) as [_ Hall].
    apply (Hall (tablename d_b)); [apply list_elem_of_here|].
    unfold names_of in *. by rewrite Hsch_b, Htable.
  - assert (e = OperationalError) as ->.
    { assert (Raise e = Raise OperationalError :> Result unit) as Heq
        by (by apply Herr). by injection Heq. }
    split_and!; [done | done | by exists ca |].
    eexists. split; [exact Hn|].
    by rewrite Hrc2, Hrc_b, lookup_insert_eq, Hn.
Qed.

(** X9. Building a collection and closing it, with any calls in between,
    leaves the registry as it was: when the construction has succeeded, the
    [close] returns, and both dictionaries of the registry and the set of
    open handles are what they were before the construction. *)
Theorem construct_then_close_leaks_nothing (d d1 : FileBackedDict.t V B)
    (w w1 : World) (ops : list (Op V)) :
  world_inv w →
  __post_init__ d w = (Ok (), d1, w1) →
  let c := close (run ops d1) w1 in
  c.1.1 = Ok () ∧
  _ref_count c.2 = _ref_count w ∧
  _sqlite_connection_cache c.2 = _sqlite_connection_cache w ∧
  open_handles c.2 = open_handles w.
Proof.
  intros Hw Hinit c.
  destruct (post_init_registry d w Hw)
    as [(_ & _ & Hbad)|(conn & w0 & Hget & Hsame & Hconn & Hfile)];
    rewrite Hinit in *; cbn [fst snd] in *; [done|].
  destruct (release_after_acquire (filename d) w w1 Hw)
    as (w2 & Hdrop & Hrc & Hcc & Hop & _); [by rewrite Hget|].
  assert (c = (Ok (), with_cache_max_size 0
                        (with_conn None (flush (run ops d1)).2), w2))
    as Hc.
  { unfold c, close. rewrite run_conn, Hconn.
    rewrite flush_open by (exists conn; by rewrite run_conn).
    simpl. rewrite run_filename, Hfile, Hdrop. done. }
  rewrite Hc. done.
Qed.

End construction.

(** ** A [FileBackedList] behaves like a list *)

Inductive LOp (V : Type) : Type :=
  | LAppend (value : V)
  | LSet (index : Z) (value : V)
  | LGet (index : Z)
  | LFlush.
Arguments LAppend {V} value.
Arguments LSet {V} index value.
Arguments LGet {V} index.
Arguments LFlush {V}.

(** The list after one call, whether the call returned or raised. *)
Definition lstep {V B} (op : LOp V) (l : FileBackedList.t V B) : FileBackedList.t V B :=
  match op with
  | LAppend value => (FileBackedList.append value l).2
  | LSet index value => (FileBackedList.__setitem__ index value l).2
  | LGet index => (FileBackedList.__getitem__ index l).2
  | LFlush => (FileBackedList.flush l).2
  end.

Fixpoint lrun {V B} (ops : list (LOp V)) (l : FileBackedList.t V B)
  : FileBackedList.t V B :=
  match ops with
  | [] => l
  | op :: ops' => lrun ops' (lstep op l)
  end.

(** The same calls on a plain list; an index out of range changes
    nothing. *)
Definition list_step {V} (op : LOp V) (xs : list V) : list V :=
  match op with
  | LAppend value => xs ++ [value]
  | LSet index value =>
      if decide (0 ≤ index < Z.of_nat (length xs))
      then <[Z.to_nat index := value]> xs else xs
  | _ => xs
  end.

Fixpoint list_run {V} (ops : list (LOp V)) (xs : list V) : list V :=
  match ops with
  | [] => xs
  | op :: ops' => list_run ops' (list_step op xs)
  end.

Section list_refinement.
Context {V B : Type} {build : SqliteBuild}.
Implicit Types (d : FileBackedDict.t V B) (l : FileBackedList.t V B).
Implicit Types (index : Z) (value x : V) (xs : list V).

(** [l] stores the elements of [xs], in order. *)
Definition represents l xs : Prop :=
  wf (FileBackedList._dict l) ∧
  is_open (FileBackedList._dict l) ∧
  round_trip (FileBackedList._dict l) ∧
  FileBackedList._len l = Z.of_nat (length xs) ∧
  ∀ i x, xs !! i = Some x →
         holds (str (Z.of_nat i)) x (FileBackedList._dict l).

Lemma str_inj i j : str i = str j → i = j.
Proof. unfold str. apply (inj pretty). Qed.

Lemma list_getitem_step index l :
  0 ≤ index < FileBackedList._len l →
  FileBackedList.__getitem__ index l =
    ((FileBackedDict.__getitem__ (str index) (FileBackedList._dict l)).1,
     FileBackedList.mk (FileBackedList._len l)
       (step (OpGet (str index)) (FileBackedList._dict l))).
Proof.
  intros Hin. unfold FileBackedList.__getitem__. rewrite decide_False by lia.
  simpl. by destruct (FileBackedDict.__getitem__ _ _).
Qed.

Lemma list_setitem_step index value l :
  0 ≤ index < FileBackedList._len l →
  FileBackedList.__setitem__ index value l =
    ((FileBackedDict.__setitem__ (str index) value (FileBackedList._dict l)).1,
     FileBackedList.mk (FileBackedList._len l)
       (step (OpSet (str index) value) (FileBackedList._dict l))).
Proof.
  intros Hin. unfold FileBackedList.__setitem__. rewrite decide_False by lia.
  simpl. by destruct (FileBackedDict.__setitem__ _ _ _).
Qed.

Lemma list_append_open value l :
  is_open (FileBackedList._dict l) →
  FileBackedList.append value l =
    (Ok (),
     FileBackedList.mk (FileBackedList._len l + 1)
       (step (OpSet (str (FileBackedList._len l)) value)
             (FileBackedList._dict l))).
Proof.
  intros Hopen. unfold FileBackedList.append. simpl.
  unfold FileBackedDict.__setitem__. by rewrite add_to_cache_open.
Qed.

Lemma represents_dict_step (op : Op V) l xs n :
  (∀ i, (i < length xs)%nat → ¬ writes (str (Z.of_nat i)) op) →
  represents l xs →
  let l' := FileBackedList.mk n (step op (FileBackedList._dict l)) in
  wf (FileBackedList._dict l') ∧ is_open (FileBackedList._dict l') ∧
  round_trip (FileBackedList._dict l') ∧
  ∀ i x, xs !! i = Some x →
         holds (str (Z.of_nat i)) x (FileBackedList._dict l').
Proof.
  intros Hw (Hwf & Hopen & Hrt & Hlen & Hall) l'. simpl. split_and!.
  - by apply step_wf.
  - by apply step_is_open.
  - by apply step_round_trip.
  - intros i x Hi. apply step_holds; [done|done|apply Hrt| |by apply Hall].
    apply Hw. by apply lookup_lt_Some in Hi.
Qed.

Lemma represents_mk n d xs :
  wf d → is_open d → round_trip d →
  n = Z.of_nat (length xs) →
  (∀ i x, xs !! i = Some x → holds (str (Z.of_nat i)) x d) →
  represents (FileBackedList.mk n d) xs.
Proof. intros. by split_and!. Qed.

Lemma represents_get index l xs :
  represents l xs →
  represents (FileBackedList.__getitem__ index l).2 xs ∧
  ∀ i x, index = Z.of_nat i → xs !! i = Some x →
         (FileBackedList.__getitem__ index l).1 = Ok x.
Proof.
  intros Hrep. pose proof Hrep as (Hwf & Hopen & Hrt & Hlen & Hall).
  destruct (decide (0 ≤ index < FileBackedList._len l)) as [Hin|Hout].
  - rewrite list_getitem_step by done. simpl. split.
    + destruct (represents_dict_step (OpGet (str index)) l xs
                  (FileBackedList._len l)) as (? & ? & ? & ?);
        [intros i _; simpl; tauto|done|].
      by split_and!.
    + intros i x -> Hi. apply getitem_holds; [done|done|by apply Hall].
  - unfold FileBackedList.__getitem__. rewrite decide_True by lia. simpl.
    split; [done|]. intros i x -> Hi. apply lookup_lt_Some in Hi. lia.
Qed.

Lemma represents_step (op : LOp V) l xs :
  represents l xs → represents (lstep op l) (list_step op xs).
Proof.
  intros Hrep. pose proof Hrep as (Hwf & Hopen & Hrt & Hlen & Hall).
  destruct op as [value|index value|index|]; simpl.
  - rewrite list_append_open by done. simpl.
    destruct (represents_dict_step
                (OpSet (str (FileBackedList._len l)) value) l xs
                (FileBackedList._len l + 1)) as (Hwf' & Hopen' & Hrt' & Hall');
      [|done|].
    { intros i Hi. simpl. intros Heq%str_inj. lia. }
    split_and!; [done..| |].
    + simpl. rewrite length_app. simpl. lia.
    + intros i x [Hi|[Hi Hx]]%lookup_app_Some; [by apply Hall'|].
      simpl. destruct (i - length xs)%nat eqn:Hd; [|done].
      injection Hx as <-.
      replace (Z.of_nat i) with (FileBackedList._len l) by lia.
      by apply set_holds.
  - case_decide as Hin.
    + rewrite list_setitem_step by lia. cbn [snd].
      apply represents_mk; [by apply step_wf|by apply step_is_open
                  |by apply step_round_trip| |].
      * rewrite length_insert. done.
      * intros i x Hi.
        apply list_lookup_insert_Some in Hi as [(Heq & -> & Hlt)|[Hne Hi]].
        -- replace (Z.of_nat i) with index by lia. by apply set_holds.
        -- apply step_holds; [done|done|apply Hrt| |by apply Hall].
           simpl. intros Heq%str_inj. lia.
    + unfold FileBackedList.__setitem__. rewrite decide_True by lia. done.
  - by apply represents_get.
  - unfold FileBackedList.flush. simpl.
    assert ((let '(res, d') := FileBackedDict.flush (FileBackedList._dict l) in
             (res, FileBackedList.mk (FileBackedList._len l) d')).2 =
            FileBackedList.mk (FileBackedList._len l)
              (step OpFlush (FileBackedList._dict l))) as ->
      by (simpl; by destruct (FileBackedDict.flush _)).
    destruct (represents_dict_step OpFlush l xs (FileBackedList._len l))
      as (? & ? & ? & ?); [intros i _; simpl; tauto|done|].
    by split_and!.
Qed.

Lemma represents_run (ops : list (LOp V)) l xs :
  represents l xs → represents (lrun ops l) (list_run ops xs).
Proof.
  revert l xs. induction ops as [|op ops IH]; intros l xs Hrep; simpl; [done|].
  by apply IH, represents_step.
Qed.

Lemma represents_iter_from n i0 l xs :
  represents l xs →
  (i0 + n = length xs)%nat →
  (FileBackedList.iter_from n (Z.of_nat i0) l).1 = Ok (drop i0 xs) ∧
  represents (FileBackedList.iter_from n (Z.of_nat i0) l).2 xs.
Proof.
  revert i0 l. induction n as [|n IH]; intros i0 l Hrep Hn; simpl.
  - rewrite drop_ge by lia. done.
  - destruct (lookup_lt_is_Some_2 xs i0) as [x Hx]; [lia|].
    destruct (represents_get (Z.of_nat i0) l xs Hrep) as [Hrep' Hval].
    specialize (Hval i0 x eq_refl Hx).
    destruct (FileBackedList.__getitem__ (Z.of_nat i0) l) as [res l'].
    simpl in *. subst res.
    replace (Z.of_nat i0 + 1) with (Z.of_nat (S i0)) by lia.
    destruct (IH (S i0) l' Hrep') as [Hres Hrep'']; [lia|].
    destruct (FileBackedList.iter_from n (Z.of_nat (S i0)) l') as [res l''].
    simpl in *. subst res. split; [|done].
    f_equal. by rewrite (drop_S xs x i0).
Qed.

Lemma init_represents filename tablename (serializer : V → B)
    (deserializer : B → V) extra_columns cache_max_size
    cache_eviction_batch_size w w' l0 :
  FileBackedList.__init__ filename tablename serializer deserializer
    extra_columns cache_max_size cache_eviction_batch_size w = (Ok (), l0, w') →
  (∀ x, deserializer (serializer x) = x) →
  represents l0 [].
Proof.
  intros Hinit Hrt. unfold FileBackedList.__init__ in Hinit.
  destruct (FileBackedDict.__post_init__ _ w) as [[res d0] w0] eqn:Hpost.
  injection Hinit as -> <- ->.
  apply post_init_ok in Hpost as [_ [conn ->]].
  split_and!; simpl.
  - apply NoDup_nil_2.
  - by exists conn.
  - done.
  - done.
  - intros i x Hi. by rewrite lookup_nil in Hi.
Qed.

(** X10. When the deserializer undoes the serializer, a [FileBackedList]
    behaves like a list: after any sequence of append, set, get and flush
    calls on a new list, its length is the length of the list these calls
    build, [get] returns its elements, and iterating yields them in order. *)
Theorem list_behaves_like_list (filename : Path) (tablename : string)
    (serializer : V → B) (deserializer : B → V)
    (extra_columns : option (list (string * (V → B))))
    (cache_max_size cache_eviction_batch_size : option Z)
    (w w' : World) (l0 : FileBackedList.t V B) (ops : list (LOp V)) :
  FileBackedList.__init__ filename tablename serializer deserializer
    extra_columns cache_max_size cache_eviction_batch_size w = (Ok (), l0, w') →
  (∀ x, deserializer (serializer x) = x) →
  let l := lrun ops l0 in
  let xs := list_run ops [] in
  FileBackedList.__len__ l = Z.of_nat (length xs) ∧
  (∀ i x, xs !! i = Some x →
          (FileBackedList.__getitem__ (Z.of_nat i) l).1 = Ok x) ∧
  (FileBackedList.__iter__ l).1 = Ok xs.
Proof.
  intros Hinit Hrt l xs.
  assert (represents l xs) as Hrep.
  { apply represents_run. by eapply init_represents. }
  pose proof Hrep as (_ & _ & _ & Hlen & _). split_and!.
  - done.
  - intros i x Hi.
    by apply (proj2 (represents_get (Z.of_nat i) l xs Hrep) i x).
  - unfold FileBackedList.__iter__. rewrite Hlen, Nat2Z.id.
    by apply (proj1 (represents_iter_from (length xs) 0 l xs Hrep eq_refl)).
Qed.

End list_refinement.

(** ** Queries across collections *)

Section queries.
Context {V B : Type} {build : SqliteBuild}.
Import FileBackedDict.
Implicit Types (d : FileBackedDict.t V B) (refs : list (FileBackedDict.t V B)).








End queries.

(** ** A closed list *)

Section closed_list.
Context {V B : Type} {build : SqliteBuild}.
Implicit Types (l : FileBackedList.t V B) (w : World).

(** X12. Closing a list closes its dictionary and keeps the length; after
    that [append] raises [AttributeError] without growing the list, reading
    or writing an index in range raises [AttributeError] as well, an index
    out of range still raises [IndexError], and the [close] that [__del__]
    issues changes nothing. *)
Theorem closed_list_rejects_calls (l : FileBackedList.t V B) (w : World)
    (count : Z) :
  world_inv w →
  is_open (FileBackedList._dict l) →
  FileBackedDict.cache_eviction_batch_size (FileBackedList._dict l) > 0 →
  _ref_count w !! FileBackedDict.filename (FileBackedList._dict l) = Some count →
  let l' := (FileBackedList.close l w).1.2 in
  (FileBackedList.close l w).1.1 = Ok () ∧
  closed (FileBackedList._dict l') ∧
  FileBackedList._len l' = FileBackedList._len l ∧
  (∀ value, FileBackedList.append value l' = (Raise AttributeError, l')) ∧
  (∀ index value,
     0 ≤ index < FileBackedList._len l →
     FileBackedList.__getitem__ index l' = (Raise AttributeError, l') ∧
     FileBackedList.__setitem__ index value l' = (Raise AttributeError, l')) ∧
  (∀ index,
     ¬ (0 ≤ index < FileBackedList._len l) →
     FileBackedList.__getitem__ index l' = (Raise IndexError, l')) ∧
  (∀ w', FileBackedList.__del__ l' w' = (Ok (), l', w')).
Proof.
  intros Hw [conn Hconn] Hbatch Hcount l'.
  destruct (close_open (FileBackedList._dict l) conn count w Hw Hconn Hcount)
    as (Hclose & _ & Hclosed).
  assert (FileBackedList.close l w =
            (Ok (), FileBackedList.mk (FileBackedList._len l)
                      (FileBackedDict.close (FileBackedList._dict l) w).1.2,
             (FileBackedDict.close (FileBackedList._dict l) w).2)) as Hl.
  { unfold FileBackedList.close. by rewrite Hclose. }
  assert (l' = FileBackedList.mk (FileBackedList._len l)
                 (FileBackedDict.close (FileBackedList._dict l) w).1.2) as Hl'
    by (unfold l'; by rewrite Hl).
  set (d' := (FileBackedDict.close (FileBackedList._dict l) w).1.2) in *.
  assert (FileBackedDict.cache_eviction_batch_size d' > 0) as Hbatch'
    by (unfold d'; rewrite Hclose; simpl;
        rewrite flush_open by (by exists conn); done).
  pose proof Hclosed as (Hnone & Hc & Hmax).
  assert (∀ key, FileBackedDict.__getitem__ key d' = (Raise AttributeError, d'))
    as Hget.
  { intros key. unfold FileBackedDict.__getitem__. rewrite Hc.
    rewrite (proj2 (od_contains_false key [])) by apply not_elem_of_nil.
    by rewrite Hnone. }
  rewrite Hl'. split_and!.
  - by rewrite Hl.
  - done.
  - done.
  - intros value. unfold FileBackedList.append, FileBackedDict.__setitem__.
    simpl. by rewrite closed_prune_one.
  - intros index value Hin. split.
    + unfold FileBackedList.__getitem__. simpl.
      rewrite decide_False by lia. by rewrite Hget.
    + unfold FileBackedList.__setitem__, FileBackedDict.__setitem__. simpl.
      rewrite decide_False by lia. by rewrite closed_prune_one.
  - intros index Hout. unfold FileBackedList.__getitem__. simpl.
    by rewrite decide_True by lia.
  - intros w0. unfold FileBackedList.__del__, FileBackedList.close,
      FileBackedDict.close. simpl. by rewrite Hnone.
Qed.

End closed_list.

(** ** The keys of a list *)

Section list_keys.
Context {V B : Type} {build : SqliteBuild}.
Implicit Types (l : FileBackedList.t V B).

(** The keys ["0"], ["1"], ..., one per index below [n]. *)
Definition index_keys (n : nat) : gset string :=
  list_to_set ((λ i, str (Z.of_nat i)) <$> seq 0 n).

(** The dictionary of [l] is open and holds exactly the keys of the
    indices below the length. *)
Definition keyed_by_index l : Prop :=
  is_open (FileBackedList._dict l) ∧
  0 ≤ FileBackedList._len l ∧
  live_keys (FileBackedList._dict l) =
    index_keys (Z.to_nat (FileBackedList._len l)).

Lemma index_keys_S n : index_keys (S n) = {[str (Z.of_nat n)]} ∪ index_keys n.
Proof.
  unfold index_keys. rewrite seq_S, fmap_app, list_to_set_app_L. simpl.
  set_solver.
Qed.

Lemma elem_of_index_keys i n : (i < n)%nat → str (Z.of_nat i) ∈ index_keys n.
Proof.
  intros Hi. unfold index_keys. apply elem_of_list_to_set, list_elem_of_fmap.
  exists i. split; [done|]. apply elem_of_seq. lia.
Qed.

Lemma keyed_by_index_mk n (d : FileBackedDict.t V B) :
  is_open d → 0 ≤ n → live_keys d = index_keys (Z.to_nat n) →
  keyed_by_index (FileBackedList.mk n d).
Proof. intros. by split_and!. Qed.

Lemma list_flush_step l :
  FileBackedList.flush l =
    ((FileBackedDict.flush (FileBackedList._dict l)).1,
     FileBackedList.mk (FileBackedList._len l)
       (step OpFlush (FileBackedList._dict l))).
Proof.
  unfold FileBackedList.flush. simpl. by destruct (FileBackedDict.flush _).
Qed.

Lemma keyed_by_index_step (op : LOp V) l :
  keyed_by_index l → keyed_by_index (lstep op l).
Proof.
  intros (Hopen & Hlen & Hkeys).
  destruct op as [value|index value|index|]; cbn [lstep].
  - rewrite list_append_open by done. cbn [snd].
    apply keyed_by_index_mk; [by apply step_is_open | lia |].
    rewrite step_live_keys by done. cbn [model_step]. rewrite Hkeys.
    replace (Z.to_nat (FileBackedList._len l + 1))
      with (S (Z.to_nat (FileBackedList._len l))) by lia.
    rewrite index_keys_S. by rewrite Z2Nat.id by lia.
  - destruct (decide (0 ≤ index < FileBackedList._len l)) as [Hin|Hout].
    + rewrite list_setitem_step by done. cbn [snd].
      apply keyed_by_index_mk; [by apply step_is_open | done |].
      rewrite step_live_keys by done. cbn [model_step]. rewrite Hkeys.
      assert (str index ∈ index_keys (Z.to_nat (FileBackedList._len l))) as Hi.
      { rewrite <- (Z2Nat.id index) by lia. apply elem_of_index_keys. lia. }
      set_solver.
    + unfold FileBackedList.__setitem__. rewrite decide_True by lia. done.
  - destruct (decide (0 ≤ index < FileBackedList._len l)) as [Hin|Hout].
    + rewrite list_getitem_step by done. cbn [snd].
      apply keyed_by_index_mk; [by apply step_is_open | done |].
      by rewrite step_live_keys.
    + unfold FileBackedList.__getitem__. rewrite decide_True by lia. done.
  - rewrite list_flush_step. cbn [snd].
    apply keyed_by_index_mk; [by apply step_is_open | done |].
    by rewrite step_live_keys.
Qed.

Lemma lstep_len (op : LOp V) l (xs : list V) :
  is_open (FileBackedList._dict l) →
  FileBackedList._len l = Z.of_nat (length xs) →
  FileBackedList._len (lstep op l) = Z.of_nat (length (list_step op xs)).
Proof.
  intros Hopen Hlen. destruct op as [value|index value|index|]; cbn [lstep list_step].
  - rewrite list_append_open by done. simpl. rewrite length_app. simpl. lia.
  - destruct (list_len_unchanged index value l) as (_ & -> & _).
    case_decide; [by rewrite length_insert | done].
  - unfold FileBackedList.__getitem__. case_decide; [done|].
    by destruct (FileBackedDict.__getitem__ _ _).
  - by rewrite list_flush_step.
Qed.

(** X13. A list keeps its elements under the decimal strings of their
    indices and under no other key: after any sequence of append, set, get
    and flush calls on a new list, the keys present in the cache or the
    table of its dictionary are exactly ["0"], ..., [str(len - 1)]. *)
Theorem list_keys_are_indices (filename : Path) (tablename : string)
    (serializer : V → B) (deserializer : B → V)
    (extra_columns : option (list (string * (V → B))))
    (cache_max_size cache_eviction_batch_size : option Z)
    (w w' : World) (l0 : FileBackedList.t V B) (ops : list (LOp V)) :
  FileBackedList.__init__ filename tablename serializer deserializer
    extra_columns cache_max_size cache_eviction_batch_size w = (Ok (), l0, w') →
  let l := lrun ops l0 in
  FileBackedList._len l = Z.of_nat (length (list_run ops [])) ∧
  live_keys (FileBackedList._dict l) =
    index_keys (length (list_run ops [])).
Proof.
  intros Hinit l.
  assert (keyed_by_index l0 ∧ FileBackedList._len l0 = 0) as [Hk0 Hl0].
  { unfold FileBackedList.__init__ in Hinit.
    destruct (FileBackedDict.__post_init__ _ w) as [[res d0] w0] eqn:Hpost.
    injection Hinit as -> <- ->.
    apply post_init_ok in Hpost as [_ [conn ->]].
    split; [|done]. split_and!; simpl; [by exists conn | done |].
    unfold live_keys, index_keys. simpl. set_solver. }
  assert (∀ (ops : list (LOp V)) l1 (xs : list V),
            keyed_by_index l1 →
            FileBackedList._len l1 = Z.of_nat (length xs) →
            keyed_by_index (lrun ops l1) ∧
            FileBackedList._len (lrun ops l1)
              = Z.of_nat (length (list_run ops xs))) as Hrun.
  { clear -build. intros ops. induction ops as [|op ops IH];
      intros l1 xs Hk Hlen; simpl; [done|].
    apply IH; [by apply keyed_by_index_step|].
    destruct Hk as (Hopen & _ & _). by apply lstep_len. }
  destruct (Hrun ops l0 [] Hk0 Hl0) as [(_ & _ & Hkeys) Hlen].
  split; [done|]. fold l in Hkeys, Hlen. by rewrite Hkeys, Hlen, Nat2Z.id.
Qed.

End list_keys.

(** ** More worked examples *)

Module MoreExamples.
Import FileBackedDict.
#[local] Existing Instance sqlite_3_32.

(** The registry after one collection has been built on ["db"]. *)
Definition built := __post_init__
  (init "db" "data" (λ v : Z, v) (λ b : Z, b) [("x", λ v, 2 * v)] 2 1)
  empty_world.

Lemma built_world_inv : world_inv built.2.
Proof.
  pose proof (acts_registry_inv
    [New "db" "data" (λ v : Z, v) (λ b : Z, b) [("x", λ v, 2 * v)] 2 1]
    empty_system empty_system_registry_inv) as [Hw _].
  exact Hw.
Qed.

(** A list of integers stored as they are. *)
Definition built_list := FileBackedList.__init__
  "db" _DEFAULT_TABLE_NAME (λ v : Z, v) (λ b : Z, b) None (Some 2) (Some 1)
  empty_world.

Lemma dict_behaves_like_map_witness :
  let d0 := Examples.new_dict 2 1 in
  let ops := [OpSet "a" 1; OpSet "b" 2; OpSet "c" 3; OpDel "b"; OpSet "a" 9;
              OpFlush; OpGet "c"] in
  fresh d0 ∧ round_trip d0 ∧
  (__getitem__ "a" (run ops d0)).1 = Ok 9 ∧
  (__getitem__ "b" (run ops d0)).1 = Raise KeyError ∧
  (__len__ (run ops d0)).1 = Ok 2.
Proof.
  intros d0 ops.
  assert (fresh d0) as Hfresh by (apply Examples.new_dict_fresh; lia).
  assert (round_trip d0) as Hrt by (intros v; reflexivity).
  destruct (dict_behaves_like_map d0 ops "a" Hfresh Hrt) as (Ha & _ & Hlen).
  destruct (dict_behaves_like_map d0 ops "b" Hfresh Hrt) as (Hb & _ & _).
  split_and!; [done..|]. rewrite Hlen. reflexivity.
Defined.


Lemma flush_moves_cache_to_table_witness :
  let d := run [OpSet "a" 1; OpSet "b" 2] (Examples.new_dict 2 1) in
  wf d ∧ is_open d ∧
  table (flush d).2 !! "a" = Some (mkRow 1 [("x", 2)]) ∧
  (__len__ (flush d).2).1 = Ok 2 ∧
  (__len__ d).1 = Ok 2.
Proof.
  intros d.
  assert (wf d) as Hwf
    by (apply run_wf, fresh_wf, Examples.new_dict_fresh; lia).
  assert (is_open d) as Hopen by (by exists 0%nat).
  destruct (flush_moves_cache_to_table d Hwf Hopen)
    as (Hrows & _ & Hafter & Hbefore).
  split_and!; [done | done | exact (Hrows "a") | |].
  - rewrite Hafter. reflexivity.
  - rewrite Hbefore. reflexivity.
Defined.


Lemma closed_collection_rejects_calls_witness :
  let d := (close built.1.2 built.2).1.2 in
  closed d ∧ cache_eviction_batch_size d > 0 ∧
  outcome (OpSet "a" 1) d = Some AttributeError ∧
  step (OpSet "a" 1) d = d.
Proof.
  intros d.
  assert (closed d) as Hclosed by (by split_and!).
  assert (cache_eviction_batch_size d > 0) as Hb by reflexivity.
  destruct (closed_collection_rejects_calls d (OpSet "a" 1) Hclosed Hb).
  split_and!; done.
Defined.

Lemma acquire_then_release_witness :
  world_inv empty_world ∧
  ∃ conn w1 w2,
    get_connection "db" empty_world = (Ok conn, w1) ∧
    drop_connection "db" w1 = (Ok (), w2) ∧
    open_handles w2 = open_handles empty_world.
Proof.
  pose proof empty_world_inv as Hw.
  destruct (acquire_then_release "db" empty_world Hw)
    as [(conn & w1 & w2 & Hget & Hdrop & _ & _ & Hop) _].
  split; [done|]. by exists conn, w1, w2.
Defined.

Lemma construction_outcome_witness :
  let d := init "db" "data" (λ v : Z, v) (λ b : Z, b) [("x", λ v, 2 * v)] 2 1 in
  world_inv built.2 ∧
  valid_config d ∧
  (get_connection (filename d) built.2).1 = Ok 0%nat ∧
  (__post_init__ d built.2).1.1 = Raise OperationalError ∧
  _conn (__post_init__ d built.2).1.2 = Some 0%nat.
Proof.
  intros d.
  pose proof built_world_inv as Hw.
  assert (valid_config d) as Hcfg by compute_done.
  destruct (construction_outcome d built.2 Hw) as (_ & _ & _ & _ & Herr).
  destruct (Herr 0%nat (get_connection (filename d) built.2).2 eq_refl Hcfg)
    as [Hraise Hobj]; [vm_compute; discriminate|].
  split_and!; [done | done | reflexivity | done |].
  by rewrite Hobj.
Defined.

Lemma duplicate_table_rejected_witness :
  let d_b := init "db" "data" (λ v : Z, v) (λ b : Z, b) [] 2000 200 in
  world_inv empty_world ∧
  built = (Ok (), built.1.2, built.2) ∧
  valid_config d_b ∧
  (__post_init__ d_b built.2).1.1 = Raise OperationalError.
Proof.
  intros d_b.
  pose proof empty_world_inv as Hw.
  assert (built = (Ok (), built.1.2, built.2)) as Ha by reflexivity.
  assert (valid_config d_b) as Hcfg by compute_done.
  destruct (duplicate_table_rejected _ d_b built.1.2 empty_world built.2
              Hw Ha eq_refl eq_refl Hcfg) as (Herr & _).
  split_and!; done.
Defined.

Lemma construct_then_close_leaks_nothing_witness :
  let d := init "db" "more" (λ v : Z, v) (λ b : Z, b) [] 2 1 in
  let r := __post_init__ d built.2 in
  let c := close (run [OpSet "a" 1; OpSet "b" 2; OpSet "c" 3] r.1.2) r.2 in
  world_inv built.2 ∧
  r = (Ok (), r.1.2, r.2) ∧
  c.1.1 = Ok () ∧
  _ref_count c.2 = _ref_count built.2 ∧
  open_handles c.2 = open_handles built.2.
Proof.
  intros d r c.
  pose proof built_world_inv as Hw.
  assert (r = (Ok (), r.1.2, r.2)) as Hinit by reflexivity.
  destruct (construct_then_close_leaks_nothing d r.1.2 built.2 r.2
              [OpSet "a" 1; OpSet "b" 2; OpSet "c" 3] Hw Hinit)
    as (Hok & Hrc & _ & Hop).
  split_and!; [done | done | exact Hok | exact Hrc | exact Hop].
Defined.

Lemma list_behaves_like_list_witness :
  let ops := [LAppend 10; LAppend 20; LAppend 30; LSet 0 11; LGet 2; LSet 7 0] in
  let l := lrun ops built_list.1.2 in
  built_list = (Ok (), built_list.1.2, built_list.2) ∧
  (∀ x : Z, (λ b : Z, b) ((λ v : Z, v) x) = x) ∧
  FileBackedList.__len__ l = 3 ∧
  (FileBackedList.__iter__ l).1 = Ok [11; 20; 30].
Proof.
  intros ops l.
  assert (built_list = (Ok (), built_list.1.2, built_list.2)) as Hinit
    by reflexivity.
  assert (∀ x : Z, (λ b : Z, b) ((λ v : Z, v) x) = x) as Hrt by done.
  destruct (list_behaves_like_list _ _ _ _ _ _ _ _ _ _ ops Hinit Hrt)
    as (Hlen & _ & Hiter).
  split_and!; done.
Defined.








Lemma closed_list_rejects_calls_witness :
  let l := (FileBackedList.append 10 built_list.1.2).2 in
  let w := built_list.2 in
  let l' := (FileBackedList.close l w).1.2 in
  world_inv w ∧ is_open (FileBackedList._dict l) ∧
  FileBackedList._len l' = 1 ∧
  FileBackedList.append 20 l' = (Raise AttributeError, l').
Proof.
  intros l w l'.
  assert (world_inv w) as Hw.
  { pose proof (acts_registry_inv
      [New "db" _DEFAULT_TABLE_NAME (λ v : Z, v) (λ b : Z, b) [] 2 1]
      empty_system empty_system_registry_inv) as [Hw _]. exact Hw. }
  assert (is_open (FileBackedList._dict l)) as Hopen by (by exists 0%nat).
  destruct (closed_list_rejects_calls l w 1 Hw Hopen eq_refl eq_refl)
    as (_ & _ & Hlen & Happ & _).
  split_and!; [done | done | exact Hlen | exact (Happ 20)].
Defined.

Lemma list_keys_are_indices_witness :
  let ops := [LAppend 10; LAppend 20; LAppend 30; LFlush] in
  let l := lrun ops built_list.1.2 in
  built_list = (Ok (), built_list.1.2, built_list.2) ∧
  live_keys (FileBackedList._dict l) = index_keys 3.
Proof.
  intros ops l.
  assert (built_list = (Ok (), built_list.1.2, built_list.2)) as Hinit
    by reflexivity.
  destruct (list_keys_are_indices _ _ _ _ _ _ _ _ _ _ ops Hinit) as (_ & Hkeys).
  split; [done | exact Hkeys].
Defined.

End MoreExamples.
